(** * Sparse binary-op intersection kernel
    (aten/src/ATen/native/sparse/SparseBinaryOpIntersectionCommon.h)

    A shallow embedding of [find_bound],
    [_sparse_binary_op_intersection_kernel_impl] and
    [_sparse_binary_op_intersection_kernel_out], and the properties of the
    kernel's stages: hashing, binary search, compaction, gather, assembly. *)

From Stdlib Require Import ZArith List Bool Lia Permutation Sorted Arith.
Import ListNotations.

Local Open Scope Z_scope.

(* ===================================================================== *)
(** ** Machine integers *)
(* ===================================================================== *)

(** [hash_t] and [offset_t] are [int32_t] or [int64_t]. *)
Inductive width : Type := W32 | W64.

Definition bits (w : width) : Z :=
  match w with W32 => 32 | W64 => 64 end.

(** Two's-complement reduction of an integer to [n] bits: what a conversion
    to, or an arithmetic operation in, a signed [n]-bit type yields. *)
Definition wrap (n : Z) (z : Z) : Z :=
  (z + 2 ^ (n - 1)) mod 2 ^ n - 2 ^ (n - 1).

(** [static_cast<T>(z)] for the integer type of width [w]. *)
Definition cast (w : width) (z : Z) : Z := wrap (bits w) z.

(** [std::numeric_limits<T>::max()]. *)
Definition max_of (w : width) : Z := 2 ^ (bits w - 1) - 1.

(** [std::numeric_limits<int>::max()]. *)
Definition INT_MAX : Z := max_of W32.

(** [std::numeric_limits<int64_t>::max()]. *)
Definition INT64_MAX : Z := max_of W64.

(** Addition, subtraction and multiplication in the type of width [w]. *)
Definition add_w (w : width) (a b : Z) : Z := cast w (a + b).
Definition sub_w (w : width) (a b : Z) : Z := cast w (a - b).
Definition mul_w (w : width) (a b : Z) : Z := cast w (a * b).

(* ===================================================================== *)
(** ** [find_bound] (lines 37-61) *)
(* ===================================================================== *)

(** [*it] for an iterator at position [it] of the array [a]. *)
Definition deref (a : list Z) (it : Z) : Z := nth (Z.to_nat it) a 0.

(** The loop's test: [is_lower ? *it < value : value >= *it]. *)
Definition bound_test (is_lower : bool) (elem value : Z) : bool :=
  if is_lower then elem <? value else value >=? elem.

(** The [while (count > 0)] loop; [first] and [count] are the loop's
    variables, positions are offsets from the start of [a]. Each round
    strictly decreases [count], so [fuel] rounds are enough when
    [count <= fuel] (lemma [find_bound_loop_fuel]). *)
Fixpoint find_bound_loop (is_lower : bool) (a : list Z) (value : Z)
    (fuel : nat) (first count : Z) : Z :=
  match fuel with
  | O => first
  | S fuel' =>
      if count >? 0 then
        let step := Z.quot count 2 in
        let it := first + step in
        if bound_test is_lower (deref a it) value then
          find_bound_loop is_lower a value fuel' (it + 1) (count - (step + 1))
        else
          find_bound_loop is_lower a value fuel' first step
      else first
  end.

(** [find_bound<ForwardIt, T, is_lower>(first, last, value)]. *)
Definition find_bound (is_lower : bool) (a : list Z) (first last : Z)
    (value : Z) : Z :=
  let count := last - first in
  find_bound_loop is_lower a value (Z.to_nat count) first count.

(** The loop of [find_bound] together with the positions it dereferences:
    the iterators [it] read by [*it], round after round, and the value
    returned. *)
Fixpoint find_bound_reads (is_lower : bool) (a : list Z) (value : Z)
    (fuel : nat) (first count : Z) : list Z * Z :=
  match fuel with
  | O => ([], first)
  | S fuel' =>
      if count >? 0 then
        let step := Z.quot count 2 in
        let it := first + step in
        let rest :=
          if bound_test is_lower (deref a it) value then
            find_bound_reads is_lower a value fuel' (it + 1) (count - (step + 1))
          else
            find_bound_reads is_lower a value fuel' first step in
        (it :: fst rest, snd rest)
      else ([], first)
  end.

(** Length of a list as a signed integer ([numel], [_nnz], [size(0)]). *)
Definition zlen {A : Type} (l : list A) : Z := Z.of_nat (length l).

(* ===================================================================== *)
(** ** Collaborators from the dense-tensor library *)
(* ===================================================================== *)

(** [at::arange(n)]: the positions [0, 1, ..., n-1]. *)
Definition arange (n : Z) : list Z := map Z.of_nat (seq 0 (Z.to_nat n)).

(** [t.narrow(-1, start, len)] of a one-dimensional tensor. *)
Definition narrow {A : Type} (l : list A) (start len : Z) : list A :=
  firstn (Z.to_nat len) (skipn (Z.to_nat start) l).

(** Modelled from the spec: [contiguous_strides] is not in the sources; the
    spec has the coefficients "equal to row-major strides of the broadcasted
    sparse shape": the last stride is 1 and each other stride is the next
    stride times the next size, computed in [int64_t]. *)
Fixpoint contiguous_strides (sizes : list Z) : list Z :=
  match sizes with
  | [] => []
  | _ :: rest =>
      match rest with
      | [] => [1]
      | next_size :: _ =>
          let tl := contiguous_strides rest in
          mul_w W64 (hd 1 tl) next_size :: tl
      end
  end.

(** Modelled from the spec: [Tensor::sort] is not in the sources; the spec
    has "sort(values) -> (sorted_values, permutation)" with values in
    nondecreasing order and a permutation that restores original positions.
    Insertion of (value, position) pairs, each before the first pair whose
    value is not smaller. *)
Fixpoint sort_insert (p : Z * Z) (l : list (Z * Z)) : list (Z * Z) :=
  match l with
  | [] => [p]
  | q :: rest =>
      if fst p <=? fst q then p :: l else q :: sort_insert p rest
  end.

Definition sort_pairs (values : list Z) : list (Z * Z) :=
  fold_right sort_insert [] (combine values (arange (zlen values))).

Definition sort (values : list Z) : list Z * list Z :=
  let ps := sort_pairs values in (map fst ps, map snd ps).

(** Modelled from the spec: [Tensor::cumsum(-1, dtype)] is not in the
    sources; the spec has an inclusive prefix sum
    "shifted_offset[k] = sum of count[j] for j <= k", accumulated in the
    offset type of width [ow]. *)
Fixpoint cumsum_from (ow : width) (acc : Z) (l : list Z) : list Z :=
  match l with
  | [] => []
  | x :: rest =>
      let acc' := add_w ow acc (cast ow x) in
      acc' :: cumsum_from ow acc' rest
  end.

Definition cumsum (ow : width) (l : list Z) : list Z := cumsum_from ow 0 l.

(** Modelled from the spec: [infer_size] is not in the sources; the spec
    names it "broadcasting-shape inference". Shapes are aligned at their
    last dimension; two sizes agree when they are equal or one of them is 1,
    and the result takes the other one. [None] is the library's error. *)
Fixpoint infer_size_aligned (a b : list Z) : option (list Z) :=
  match a, b with
  | [], [] => Some []
  | sa :: a', sb :: b' =>
      if (sa =? sb) || (sa =? 1) || (sb =? 1) then
        match infer_size_aligned a' b' with
        | Some r => Some ((if sa =? 1 then sb else sa) :: r)
        | None => None
        end
      else None
  | _, _ => None
  end.

Definition infer_size (a b : list Z) : option (list Z) :=
  let n := Nat.max (length a) (length b) in
  infer_size_aligned (repeat 1 (n - length a) ++ a)
                     (repeat 1 (n - length b) ++ b).

(** Lexicographic comparison of two coordinate columns. *)
Fixpoint lex_compare (a b : list Z) : comparison :=
  match a, b with
  | [], [] => Eq
  | [], _ :: _ => Lt
  | _ :: _, [] => Gt
  | x :: a', y :: b' =>
      match x ?= y with
      | Eq => lex_compare a' b'
      | c => c
      end
  end.

Definition lex_lt (a b : list Z) : Prop := lex_compare a b = Lt.

(** Equality test of two size lists ([IntArrayRef::operator==]). *)
Fixpoint sizes_eqb (a b : list Z) : bool :=
  match a, b with
  | [], [] => true
  | x :: a', y :: b' => (x =? y) && sizes_eqb a' b'
  | _, _ => false
  end.

(** [sizes.slice(0, n)]. *)
Definition slice_prefix (sizes : list Z) (n : Z) : list Z :=
  firstn (Z.to_nat n) sizes.

(** Uninitialised buffers ([at::empty]): a slot holds nothing until it is
    written. *)
Definition empty_buffer (A : Type) (n : Z) : list (option A) :=
  repeat None (Z.to_nat n).

Fixpoint store_at {A : Type} (buf : list (option A)) (n : nat) (v : A)
    : list (option A) :=
  match buf, n with
  | [], _ => []
  | _ :: rest, O => Some v :: rest
  | x :: rest, S n' => x :: store_at rest n' v
  end.

(** [ptr[pos] = v]; a write outside the buffer leaves the model's buffer as
    it is. *)
Definition store {A : Type} (buf : list (option A)) (pos : Z) (v : A)
    : list (option A) :=
  if pos <? 0 then buf else store_at buf (Z.to_nat pos) v.

(** The contents of a buffer once every slot has been written. *)
Fixpoint read_buffer {A : Type} (buf : list (option A)) : option (list A) :=
  match buf with
  | [] => Some []
  | None :: _ => None
  | Some v :: rest =>
      match read_buffer rest with
      | Some l => Some (v :: l)
      | None => None
      end
  end.

(** [op] applied to two lists position by position, up to the shorter one. *)
Fixpoint zip_with {A B C : Type} (f : A -> B -> C) (la : list A)
    (lb : list B) : list C :=
  match la, lb with
  | a :: la', b :: lb' => f a b :: zip_with f la' lb'
  | _, _ => []
  end.

(* ===================================================================== *)
(** ** Sparse tensors and the kernel *)
(* ===================================================================== *)

Section Kernel.

(** [c10::ScalarType], and the row of dense values stored for one nonzero
    (an opaque payload for the intersection). *)
Variable dtype : Type.
Variable Row : Type.

(** [at::result_type] and [canCast] of the dtype-promotion library. *)
Variable canCast : dtype -> dtype -> bool.

(** [binary_op_t::apply] on the value rows of one matched pair, the cast of
    one row by [Tensor::to], and the row addition [coalesce] sums duplicates
    with. *)
Variable binary_op : Row -> Row -> Row.
Variable to_row : dtype -> Row -> Row.
Variable row_add : Row -> Row -> Row.

(** A values tensor: its rank ([dim()]) and one row per nonzero. *)
Record Values : Type := mkValues {
  vdim : Z;
  vrows : list Row
}.

(** A sparse COO tensor. [_indices] holds, for each nonzero, the column of
    its [sparse_dim] coordinates; [_values] the rows in the same order. *)
Record Tensor : Type := mkTensor {
  is_sparse : bool;
  scalar_type : dtype;
  sparse_dim : Z;
  dense_dim : Z;
  sizes : list Z;
  _indices : list (list Z);
  _values : Values;
  is_coalesced : bool
}.

Variable result_type : Tensor -> Tensor -> dtype.

(** The storage of the index tensor [t._indices()]: its strides
    [(stride(0), stride(1))], along the sparse dimensions and along the
    nonzeros, and the memory at [data_ptr<index_t>() + a]. The index type
    [index_t] of a sparse COO tensor is [int64_t]. *)
Variable indices_stride : Tensor -> Z * Z.
Variable indices_data : Tensor -> Z -> Z.

(** What the memory returned by [at::empty] holds at offset [a] as long as
    nothing has been stored there. *)
Variable uninitialized : Z -> Z.

Definition dim (t : Tensor) : Z := zlen (sizes t).

Definition _nnz (t : Tensor) : Z := zlen (vrows (_values t)).

(** Modelled from the spec: [Tensor::index_select(0, index)] is not in the
    sources; the spec has "gather(values, index_array) -> selected_values
    (index-select along the leading axis)". [None] is the library's error
    for an index outside the rows. *)
Fixpoint select_rows (rows : list Row) (index : list Z) : option (list Row) :=
  match index with
  | [] => Some []
  | i :: rest =>
      if i <? 0 then None
      else
        match nth_error rows (Z.to_nat i), select_rows rows rest with
        | Some r, Some l => Some (r :: l)
        | _, _ => None
        end
  end.

Definition index_select (v : Values) (index : list Z) : option Values :=
  match select_rows (vrows v) index with
  | Some rows => Some {| vdim := vdim v; vrows := rows |}
  | None => None
  end.

(** Modelled from the spec: the operator's application to two gathered
    values tensors is not in the sources; the spec has it "elementwise",
    one output row per pair of rows; the rank of the result is the larger
    rank (dense dimensions broadcast). *)
Definition apply (a b : Values) : Values :=
  {| vdim := Z.max (vdim a) (vdim b);
     vrows := zip_with binary_op (vrows a) (vrows b) |}.

(** [Tensor::to(dtype)] on a values tensor. *)
Definition to (v : Values) (d : dtype) : Values :=
  {| vdim := vdim v; vrows := map (to_row d) (vrows v) |}.

(** Modelled from the spec: [Tensor::coalesce] is not in the sources; the
    spec has a coalesced tensor's coordinates "sorted ascending and pairwise
    unique". Every nonzero is inserted into a list kept in increasing
    lexicographic order of coordinates; a coordinate that is already there
    adds its row to the one stored. *)
Fixpoint coalesce_insert (c : list Z) (v : Row)
    (l : list (list Z * Row)) : list (list Z * Row) :=
  match l with
  | [] => [(c, v)]
  | (c', v') :: rest =>
      match lex_compare c c' with
      | Lt => (c, v) :: l
      | Eq => (c', row_add v' v) :: rest
      | Gt => (c', v') :: coalesce_insert c v rest
      end
  end.

Definition coalesce_pairs (t : Tensor) : list (list Z * Row) :=
  fold_left (fun acc cv => coalesce_insert (fst cv) (snd cv) acc)
            (combine (_indices t) (vrows (_values t))) [].

Definition coalesce (t : Tensor) : Tensor :=
  let merged := coalesce_pairs t in
  {| is_sparse := is_sparse t;
     scalar_type := scalar_type t;
     sparse_dim := sparse_dim t;
     dense_dim := dense_dim t;
     sizes := sizes t;
     _indices := map fst merged;
     _values := {| vdim := vdim (_values t); vrows := map snd merged |};
     is_coalesced := true |}.

(** *** Role selection (lines 104-143) *)

Definition MAX_COPIES_PER_THREAD : Z := 50.

(** [std::accumulate(first, first + sparse_dim, 1, std::multiplies<int64_t>())]:
    the accumulator has the type of the initial value [1], an [int]; every
    product is formed in [int64_t] and stored back into the [int]. *)
Definition sparse_dim_numel (larger : Tensor) : Z :=
  fold_left (fun acc s => cast W32 (mul_w W64 acc s))
            (slice_prefix (sizes larger) (sparse_dim larger)) 1.

(** The pair [(probably_coalesced, source)]. [None]: the integer division
    by [sparse_dim_numel] has a zero divisor. *)
Definition select_roles (x y : Tensor) : option (Tensor * Tensor) :=
  if xorb (is_coalesced x) (is_coalesced y) then
    Some (if is_coalesced x then (x, y) else (y, x))
  else
    let '(larger, smaller) := if _nnz x >=? _nnz y then (x, y) else (y, x) in
    let numel := sparse_dim_numel larger in
    if numel =? 0 then None
    else
      let max_count_lower_bound := Z.quot (_nnz larger) numel in
      Some (if max_count_lower_bound >? MAX_COPIES_PER_THREAD
            then (coalesce larger, smaller)
            else (larger, smaller)).

(** *** Hash function (lines 145-227) *)

Definition hash_coeffs (w : width) (probably_coalesced : Tensor)
    (broadcasted_shape : list Z) : list Z :=
  let broadcasted_sparse_dim_shape :=
    slice_prefix broadcasted_shape (sparse_dim probably_coalesced) in
  let strides := contiguous_strides broadcasted_sparse_dim_shape in
  map (cast w) strides.

(** [static_cast<uint32_t>(sparse_dim)], as a loop bound. *)
Definition sdim_of (t : Tensor) : nat := Z.to_nat (sparse_dim t mod 2 ^ 32).

(** The column of the nonzero at position [nnz_idx]. *)
Definition column (indices : list (list Z)) (nnz_idx : Z) : list Z :=
  nth (Z.to_nat nnz_idx) indices [].

(** One round of the loop over [dim]:
    [hash += static_cast<hash_t>(index[dim]) * hash_coeffs[dim]]. *)
Definition hash_step (w : width) (coeffs col : list Z) (hash : Z)
    (d : nat) : Z :=
  let dim_hash_coeff := nth d coeffs 0 in
  let dim_index := cast w (nth d col 0) in
  add_w w hash (mul_w w dim_index dim_hash_coeff).

Definition compute_hash (w : width) (sdim : nat) (coeffs col : list Z) : Z :=
  fold_left (hash_step w coeffs col) (seq 0 sdim) 0.

(** [nnz_arange]: positions shared by both sides. *)
Definition nnz_arange (probably_coalesced source : Tensor) : list Z :=
  arange (Z.max (_nnz probably_coalesced) (_nnz source)).

Definition probably_coalesced_indices_hash (w : width)
    (probably_coalesced source : Tensor) (broadcasted_shape : list Z)
    : list Z :=
  let coeffs := hash_coeffs w probably_coalesced broadcasted_shape in
  let sdim := sdim_of probably_coalesced in
  let probably_coalesced_nnz_arange :=
    narrow (nnz_arange probably_coalesced source) 0 (_nnz probably_coalesced) in
  map (fun nnz_idx =>
         compute_hash w sdim coeffs (column (_indices probably_coalesced) nnz_idx))
      probably_coalesced_nnz_arange.

(** *** Sort stage (lines 229-248): [(sorted_hash, argsort_hash)] *)

Definition sorted_and_argsort (w : width) (probably_coalesced source : Tensor)
    (broadcasted_shape : list Z) : list Z * list Z :=
  let hash :=
    probably_coalesced_indices_hash w probably_coalesced source broadcasted_shape in
  if is_coalesced probably_coalesced then
    let argsort :=
      narrow (nnz_arange probably_coalesced source) 0 (_nnz probably_coalesced) in
    (hash, argsort)
  else
    sort hash.

(** *** Hash intersection (lines 250-332) *)

(** The kernel's task for the source nonzero [nnz_idx]:
    [(intersection_count[nnz_idx], intersection_first_idx[nnz_idx])], both
    stored as [hash_t]. *)
Definition intersect_one (w : width) (sdim : nat) (coeffs sorted_hash : list Z)
    (source_indices : list (list Z)) (nnz_idx : Z) : Z * Z :=
  let hash := compute_hash w sdim coeffs (column source_indices nnz_idx) in
  let sorted_hash_len := zlen sorted_hash in
  let lb := find_bound true sorted_hash 0 (0 + sorted_hash_len) hash in
  let ub := find_bound false sorted_hash 0 (0 + sorted_hash_len) hash in
  (cast w (ub - lb), cast w (lb - 0)).

Definition intersection (w : width) (probably_coalesced source : Tensor)
    (broadcasted_shape : list Z) : list Z * list Z :=
  let coeffs := hash_coeffs w probably_coalesced broadcasted_shape in
  let sdim := sdim_of probably_coalesced in
  let sorted_hash :=
    fst (sorted_and_argsort w probably_coalesced source broadcasted_shape) in
  let source_arange :=
    narrow (nnz_arange probably_coalesced source) 0 (_nnz source) in
  let records :=
    map (intersect_one w sdim coeffs sorted_hash (_indices source)) source_arange in
  (map fst records, map snd records).

(** *** Offsets and gather (lines 334-450) *)

Definition shifted_offset_of (ow : width) (intersection_count : list Z)
    : list Z :=
  cumsum ow intersection_count.

(** [shifted_offset.size(0) ? shifted_offset.select(-1, -1).item() : 0]. *)
Definition intersection_nnz_of (shifted_offset : list Z) : Z :=
  if zlen shifted_offset =? 0 then 0 else last shifted_offset 0.

(** [intersection_nnz]: the last shifted offset. *)
Definition intersection_nnz (w ow : width) (probably_coalesced source : Tensor)
    (broadcasted_shape : list Z) : Z :=
  intersection_nnz_of
    (shifted_offset_of ow
       (fst (intersection w probably_coalesced source broadcasted_shape))).

(** The three output buffers of the gather kernel:
    [selected_source] and [selected_probably_coalesced] have
    [intersection_nnz] slots each, and [selected_source_sparse_indices] is
    the memory of a contiguous tensor of [sparse_dim] rows and
    [intersection_nnz] columns. *)
Record gather_buffers : Type := mkBuffers {
  buf_selected_source : list (option Z);
  buf_selected_probably_coalesced : list (option Z);
  buf_selected_source_sparse_indices : list (option Z)
}.

Inductive output : Type :=
| SelectedSource
| SelectedProbablyCoalesced
| SelectedSourceSparseIndices.

(** A store [ptr[address] = stored] into one of the output buffers. *)
Record write : Type := mkWrite {
  target : output;
  address : Z;
  stored : Z
}.

Definition perform (b : gather_buffers) (wr : write) : gather_buffers :=
  match target wr with
  | SelectedSource =>
      {| buf_selected_source :=
           store (buf_selected_source b) (address wr) (stored wr);
         buf_selected_probably_coalesced := buf_selected_probably_coalesced b;
         buf_selected_source_sparse_indices :=
           buf_selected_source_sparse_indices b |}
  | SelectedProbablyCoalesced =>
      {| buf_selected_source := buf_selected_source b;
         buf_selected_probably_coalesced :=
           store (buf_selected_probably_coalesced b) (address wr) (stored wr);
         buf_selected_source_sparse_indices :=
           buf_selected_source_sparse_indices b |}
  | SelectedSourceSparseIndices =>
      {| buf_selected_source := buf_selected_source b;
         buf_selected_probably_coalesced := buf_selected_probably_coalesced b;
         buf_selected_source_sparse_indices :=
           store (buf_selected_source_sparse_indices b) (address wr) (stored wr) |}
  end.

(** The four strides of lines 392-402, each one cast to [offset_t]. *)
Record index_strides : Type := mkStrides {
  selected_source_sparse_indices_nnz_stride : Z;
  selected_source_sparse_indices_dim_stride : Z;
  source_sparse_indices_nnz_stride : Z;
  source_sparse_indices_dim_stride : Z
}.

(** The subscript [d * dim_stride] of the copy loop, for [uint32_t d] and a
    stride of type [offset_t]: the product is formed in [unsigned int] when
    [offset_t] is [int32_t], and in [int64_t] when it is [int64_t]. *)
Definition dim_subscript (ow : width) (d : nat) (dim_stride : Z) : Z :=
  match ow with
  | W32 => (Z.of_nat d * dim_stride) mod 2 ^ 32
  | W64 => mul_w W64 (Z.of_nat d) dim_stride
  end.

(** The copy [for (uint32_t d = 0; d < sdim; ++d)
      out[d * selected_source_sparse_indices_dim_stride]
        = in[d * source_sparse_indices_dim_stride]]
    of one column; [out] and [in_] are the offsets of the two pointers from
    the data pointers of their tensors. *)
Definition copy_column (ow : width) (sdim : nat) (strides : index_strides)
    (source_data : Z -> Z) (out in_ : Z) : list write :=
  map (fun d =>
         {| target := SelectedSourceSparseIndices;
            address :=
              out + dim_subscript ow d
                      (selected_source_sparse_indices_dim_stride strides);
            stored :=
              source_data
                (in_ + dim_subscript ow d
                         (source_sparse_indices_dim_stride strides)) |})
      (seq 0 sdim).

(** The stores of round [i] of the loop [for (hash_t i = 0; i < count; ++i)].
    [offset * selected_source_sparse_indices_nnz_stride] is a product of two
    [offset_t], [idx * source_sparse_indices_nnz_stride] one of an [index_t]
    and an [offset_t]; the output pointer has been advanced [i] times by
    [selected_source_sparse_indices_nnz_stride]. *)
Definition gather_write (w ow : width) (sdim : nat) (argsort : list Z)
    (strides : index_strides) (source_data : Z -> Z)
    (idx first_match_idx offset : Z) (i : nat) : list write :=
  let out :=
    mul_w ow offset (selected_source_sparse_indices_nnz_stride strides)
    + Z.of_nat i * selected_source_sparse_indices_nnz_stride strides in
  let in_ := mul_w W64 idx (source_sparse_indices_nnz_stride strides) in
  {| target := SelectedSource;
     address := offset + Z.of_nat i;
     stored := cast w idx |}
  :: {| target := SelectedProbablyCoalesced;
        address := offset + Z.of_nat i;
        stored := cast w (deref argsort (first_match_idx + Z.of_nat i)) |}
  :: copy_column ow sdim strides source_data out in_.

(** The kernel's task for one source nonzero
    [(idx, count, first_match_idx, shifted_offset)]: its stores, in program
    order. *)
Definition gather_task (w ow : width) (sdim : nat) (argsort : list Z)
    (strides : index_strides) (source_data : Z -> Z)
    (task : Z * Z * Z * Z) : list write :=
  let '(idx, count, first_match_idx, shifted_offset) := task in
  let offset := sub_w ow shifted_offset (cast ow count) in
  flat_map (gather_write w ow sdim argsort strides source_data
              idx first_match_idx offset)
           (seq 0 (Z.to_nat count)).

(** The aligned inputs of the gather kernel, one task per source nonzero. *)
Definition gather_tasks (source_idx intersection_count intersection_first_idx
    shifted_offset : list Z) : list (Z * Z * Z * Z) :=
  combine (combine (combine source_idx intersection_count)
                   intersection_first_idx) shifted_offset.

(** The strides the gather kernel works with: those of the contiguous
    [selected_source_sparse_indices] of sizes [{sparse_dim, intersection_nnz}]
    and those of [source._indices()], cast to [offset_t]. *)
Definition gather_strides (w ow : width) (probably_coalesced source : Tensor)
    (broadcasted_shape : list Z) : index_strides :=
  let selected_strides :=
    contiguous_strides
      [sparse_dim source;
       intersection_nnz w ow probably_coalesced source broadcasted_shape] in
  {| selected_source_sparse_indices_nnz_stride :=
       cast ow (nth 1 selected_strides 0);
     selected_source_sparse_indices_dim_stride :=
       cast ow (nth 0 selected_strides 0);
     source_sparse_indices_nnz_stride := cast ow (snd (indices_stride source));
     source_sparse_indices_dim_stride := cast ow (fst (indices_stride source)) |}.

(** The inputs of the gather kernel's iterator: [source_idx],
    [intersection_count], [intersection_first_idx] and [shifted_offset]. *)
Definition gather_inputs (w ow : width) (probably_coalesced source : Tensor)
    (broadcasted_shape : list Z) : list (Z * Z * Z * Z) :=
  let '(intersection_count, intersection_first_idx) :=
    intersection w probably_coalesced source broadcasted_shape in
  let shifted_offset := shifted_offset_of ow intersection_count in
  let source_idx :=
    narrow (nnz_arange probably_coalesced source) 0 (_nnz source) in
  gather_tasks source_idx intersection_count intersection_first_idx
               shifted_offset.

(** All stores of the gather kernel, task after task in the order of the
    source. *)
Definition gather_writes (w ow : width) (probably_coalesced source : Tensor)
    (broadcasted_shape : list Z) : list write :=
  let argsort_hash :=
    snd (sorted_and_argsort w probably_coalesced source broadcasted_shape) in
  flat_map
    (gather_task w ow (sdim_of probably_coalesced) argsort_hash
       (gather_strides w ow probably_coalesced source broadcasted_shape)
       (indices_data source))
    (gather_inputs w ow probably_coalesced source broadcasted_shape).

(** The gather stage: the buffers, allocated by [at::empty], after every
    store. *)
Definition gather (w ow : width) (probably_coalesced source : Tensor)
    (broadcasted_shape : list Z) : gather_buffers :=
  let intersection_nnz :=
    intersection_nnz w ow probably_coalesced source broadcasted_shape in
  fold_left perform
    (gather_writes w ow probably_coalesced source broadcasted_shape)
    {| buf_selected_source := empty_buffer Z intersection_nnz;
       buf_selected_probably_coalesced := empty_buffer Z intersection_nnz;
       buf_selected_source_sparse_indices :=
         empty_buffer Z (sparse_dim source * intersection_nnz) |}.

(** What memory allocated by [at::empty] holds at offset [a]. *)
Definition load (buf : list (option Z)) (a : Z) : Z :=
  match nth_error buf (Z.to_nat a) with
  | Some (Some v) => v
  | _ => uninitialized a
  end.

(** The columns of a contiguous index tensor of [sparse_dim'] rows and [nnz]
    columns held in [buf]: the entry [d] of the column [p] is at offset
    [d * nnz + p]. *)
Definition index_columns (sparse_dim' nnz : Z) (buf : list (option Z))
    : list (list Z) :=
  map (fun p =>
         map (fun d => load buf (Z.of_nat d * nnz + p))
             (seq 0 (Z.to_nat sparse_dim')))
      (arange nnz).

(** [selected_source_sparse_indices], column by column. *)
Definition gathered_indices (w ow : width) (probably_coalesced source : Tensor)
    (broadcasted_shape : list Z) : list (list Z) :=
  index_columns (sparse_dim source)
    (intersection_nnz w ow probably_coalesced source broadcasted_shape)
    (buf_selected_source_sparse_indices
       (gather w ow probably_coalesced source broadcasted_shape)).

(** [(selected_source, selected_source_sparse_indices,
      selected_probably_coalesced)]; [None] when a slot of
    [selected_source] or [selected_probably_coalesced], which
    [index_select] reads as positions, was never written. *)
Definition selected (w ow : width) (probably_coalesced source : Tensor)
    (broadcasted_shape : list Z)
    : option (list Z * list (list Z) * list Z) :=
  let b := gather w ow probably_coalesced source broadcasted_shape in
  match read_buffer (buf_selected_source b),
        read_buffer (buf_selected_probably_coalesced b) with
  | Some s, Some p =>
      Some (s, gathered_indices w ow probably_coalesced source broadcasted_shape, p)
  | _, _ => None
  end.

(** *** The output tensor as mutable state *)

Inductive failure : Type :=
| InputCheckFailed   (* TORCH_CHECK of [_sparse_binary_op_intersection_kernel_out] *)
| CastCheckFailed    (* TORCH_CHECK(canCast(common_dtype, res.scalar_type())) *)
| InferSizeFailed    (* error raised by [infer_size] *)
| IndexOutOfRange    (* error raised by [index_select] *)
| Undefined.         (* division by zero, read of a slot never written *)

(** A computation that may read and write [res] and may fail. *)
Definition M (A : Type) : Type := Tensor -> (failure + A) * Tensor.

Definition ret {A : Type} (a : A) : M A := fun res => (inr a, res).

Definition bind {A B : Type} (m : M A) (k : A -> M B) : M B :=
  fun res =>
    match m res with
    | (inl e, res') => (inl e, res')
    | (inr a, res') => k a res'
    end.

Definition raise {A : Type} (e : failure) : M A := fun res => (inl e, res).

Definition gets {A : Type} (f : Tensor -> A) : M A := fun res => (inr (f res), res).

Definition modify (f : Tensor -> Tensor) : M unit := fun res => (inr tt, f res).

Definition TORCH_CHECK (cond : bool) (e : failure) : M unit :=
  if cond then ret tt else raise e.

Definition lift {A : Type} (o : option A) (e : failure) : M A :=
  match o with
  | Some a => ret a
  | None => raise e
  end.

Notation "x <- m ;; k" := (bind m (fun x => k))
  (at level 61, m at next level, right associativity).
Notation "m ;;; k" := (bind m (fun _ => k))
  (at level 61, right associativity).

(** Modelled from the spec: the [SparseTensorImpl] setters are not in the
    sources; the spec has the assembler install indices and values "with
    sparse_dim = source.sparse_dim, dense_dim = result_values.rank - 1,
    shape = broadcasted_shape, nnz = result_values.length" and set the
    coalesced flag. *)
Definition raw_resize_ (sparse_dim' dense_dim' : Z) (size : list Z) : M unit :=
  modify (fun res =>
    {| is_sparse := is_sparse res; scalar_type := scalar_type res;
       sparse_dim := sparse_dim'; dense_dim := dense_dim'; sizes := size;
       _indices := _indices res; _values := _values res;
       is_coalesced := is_coalesced res |}).

Definition set_indices_and_values_unsafe (indices : list (list Z))
    (values : Values) : M unit :=
  modify (fun res =>
    {| is_sparse := is_sparse res; scalar_type := scalar_type res;
       sparse_dim := sparse_dim res; dense_dim := dense_dim res;
       sizes := sizes res;
       _indices := indices; _values := values;
       is_coalesced := is_coalesced res |}).

Definition set_nnz_and_narrow (new_nnz : Z) : M unit :=
  modify (fun res =>
    {| is_sparse := is_sparse res; scalar_type := scalar_type res;
       sparse_dim := sparse_dim res; dense_dim := dense_dim res;
       sizes := sizes res;
       _indices := narrow (_indices res) 0 new_nnz;
       _values := {| vdim := vdim (_values res);
                     vrows := narrow (vrows (_values res)) 0 new_nnz |};
       is_coalesced := is_coalesced res |}).

Definition _coalesced_ (coalesced : bool) : M unit :=
  modify (fun res =>
    {| is_sparse := is_sparse res; scalar_type := scalar_type res;
       sparse_dim := sparse_dim res; dense_dim := dense_dim res;
       sizes := sizes res;
       _indices := _indices res; _values := _values res;
       is_coalesced := coalesced |}).

(** *** [_sparse_binary_op_intersection_kernel_impl] (lines 71-482)

    [w] is [hash_t] and [ow] is [offset_t]. The operands are values: the
    kernel reads them before it writes [res], apart from the two coalesced
    flags of line 481, which the setters called before that line leave as
    they are. *)
Definition _sparse_binary_op_intersection_kernel_impl (w ow : width)
    (x_ y_ : Tensor) (broadcasted_shape : list Z) (is_commutative : bool)
    : M unit :=
  res_scalar_type <- gets scalar_type ;;
  let common_dtype := result_type x_ y_ in
  TORCH_CHECK (canCast common_dtype res_scalar_type) CastCheckFailed ;;;
  let x := if is_commutative then x_ else coalesce x_ in
  let y := if is_commutative then y_ else coalesce y_ in
  roles <- lift (select_roles x y) Undefined ;;
  let '(probably_coalesced, source) := roles in
  sel <- lift (selected w ow probably_coalesced source broadcasted_shape)
              Undefined ;;
  let '(selected_source, selected_source_sparse_indices,
        selected_probably_coalesced) := sel in
  let res_indices := selected_source_sparse_indices in
  selected_source_values <-
    lift (index_select (_values source) selected_source) IndexOutOfRange ;;
  selected_probably_coalesced_values <-
    lift (index_select (_values probably_coalesced) selected_probably_coalesced)
         IndexOutOfRange ;;
  let res_values :=
    to (apply selected_source_values selected_probably_coalesced_values)
       res_scalar_type in
  let res_sparse_dim := sparse_dim source in
  let res_dense_dim := vdim res_values - 1 in
  let res_shape := broadcasted_shape in
  let res_nnz := zlen (vrows selected_source_values) in
  raw_resize_ res_sparse_dim res_dense_dim res_shape ;;;
  set_indices_and_values_unsafe res_indices res_values ;;;
  set_nnz_and_narrow res_nnz ;;;
  _coalesced_ (is_coalesced source && is_coalesced probably_coalesced).

(** *** [_sparse_binary_op_intersection_kernel_out] (lines 484-540) *)

(** The argument of the entry point's [TORCH_CHECK]. *)
Definition inputs_ok (x y : Tensor) : bool :=
  (is_sparse x && is_sparse y)
  && (dim x =? dim y) && (sparse_dim x =? sparse_dim y)
  && sizes_eqb (slice_prefix (sizes x) (sparse_dim x))
               (slice_prefix (sizes y) (sparse_dim y)).

(** [max_hash_val]: the product of [broadcasted_shape[d]] for
    [d < x.sparse_dim()], in [int64_t]. *)
Definition max_hash_val (x : Tensor) (broadcasted_shape : list Z) : Z :=
  fold_left (fun acc d => mul_w W64 acc (nth d broadcasted_shape 0))
            (seq 0 (Z.to_nat (sparse_dim x))) 1.

Definition is_max_hash_32bits (x : Tensor) (broadcasted_shape : list Z) : bool :=
  max_hash_val x broadcasted_shape <=? INT_MAX.

Definition is_max_offset_32bits (x y : Tensor) : bool :=
  mul_w W64 (_nnz x) (_nnz y) <=? INT_MAX.

(** The widths [(hash_t, offset_t)] of the instantiation that is called. *)
Definition select_widths (x y : Tensor) (broadcasted_shape : list Z)
    : width * width :=
  let h32 := is_max_hash_32bits x broadcasted_shape in
  let o32 := is_max_offset_32bits x y in
  if h32 && o32 then (W32, W32)
  else if h32 && negb o32 then (W32, W64)
  else if negb h32 && o32 then (W64, W32)
  else (W64, W64).

Definition _sparse_binary_op_intersection_kernel_out (x y : Tensor)
    (is_commutative : bool) : M unit :=
  TORCH_CHECK (inputs_ok x y) InputCheckFailed ;;;
  broadcasted_shape <- lift (infer_size (sizes x) (sizes y)) InferSizeFailed ;;
  let '(hash_t, offset_t) := select_widths x y broadcasted_shape in
  _sparse_binary_op_intersection_kernel_impl hash_t offset_t x y
    broadcasted_shape is_commutative.

(* ===================================================================== *)
(** ** Notions used to state the properties *)
(* ===================================================================== *)

(** Number of points of a coordinate space of the given shape. *)
Definition numel (shape : list Z) : Z := fold_right Z.mul 1 shape.

(** Row-major strides as exact integers: the stride of a dimension is the
    number of points of the dimensions after it. *)
Fixpoint row_major_strides (shape : list Z) : list Z :=
  match shape with
  | [] => []
  | _ :: rest => numel rest :: row_major_strides rest
  end.

(** The map [coord -> sum over d of coord[d] * stride[d]] over the
    integers, for the row-major strides of [shape]. *)
Fixpoint linear_offset (shape coord : list Z) : Z :=
  match coord, shape with
  | c :: coord', _ :: shape' => c * numel shape' + linear_offset shape' coord'
  | _, _ => 0
  end.

(** [coord] is a point of the coordinate space of [shape]. *)
Definition in_bounds (shape coord : list Z) : Prop :=
  Forall2 (fun c s => 0 <= c < s) coord shape.

(** The sparse part of the broadcasted shape that the kernel hashes with
    for a tensor [t]. *)
Definition sparse_shape (broadcasted_shape : list Z) (t : Tensor) : list Z :=
  slice_prefix broadcasted_shape (sparse_dim t).

(** The data invariant of a sparse tensor used with [broadcasted_shape]:
    as many index columns as value rows, every column a point of the sparse
    coordinate space, and the coalesced flag only on columns in strictly
    increasing lexicographic order. *)
Record well_formed (broadcasted_shape : list Z) (t : Tensor) : Prop := {
  wf_sparse_dim : 0 <= sparse_dim t < 2 ^ 32;
  wf_sparse_dim_shape : sparse_dim t <= zlen broadcasted_shape;
  wf_nnz : length (_indices t) = length (vrows (_values t));
  wf_in_bounds :
    Forall (in_bounds (sparse_shape broadcasted_shape t)) (_indices t);
  wf_coalesced :
    is_coalesced t = true -> StronglySorted lex_lt (_indices t)
}.

(** Number of nonzeros of [t] at coordinate [c]. *)
Definition multiplicity (c : list Z) (t : Tensor) : nat :=
  count_occ (list_eq_dec Z.eq_dec) (_indices t) c.

(** What the join needs of [(sorted_hash, argsort_hash)] for the hashes
    [hash] of the probe side. *)
Definition sort_stage_ok (hash sorted argsort : list Z) : Prop :=
  Sorted Z.le sorted
  /\ length sorted = length hash
  /\ length argsort = length hash
  /\ Permutation sorted hash
  /\ (forall q, 0 <= q < zlen hash ->
        0 <= deref argsort q < zlen hash
        /\ deref hash (deref argsort q) = deref sorted q)
  /\ (forall j, 0 <= j < zlen hash ->
        exists q, 0 <= q < zlen hash /\ deref argsort q = j).

(** Sum of a list of counts, and its inclusive prefix sums from [acc], over
    the integers. *)
Definition zsum (l : list Z) : Z := fold_right Z.add 0 l.

Fixpoint prefix_sums (acc : Z) (l : list Z) : list Z :=
  match l with
  | [] => []
  | x :: rest => (acc + x) :: prefix_sums (acc + x) rest
  end.

(** The count of a gather task [(idx, count, first_match_idx, shifted_offset)],
    and its [offset = shifted_offset - static_cast<offset_t>(count)]. *)
Definition task_count (t : Z * Z * Z * Z) : Z := snd (fst (fst t)).

Definition task_offset (ow : width) (t : Z * Z * Z * Z) : Z :=
  let '(_, c, _, s) := t in sub_w ow s (cast ow c).

(** Tasks whose shifted offsets are the inclusive prefix sums, from [acc],
    of their nonnegative counts, none above the offset type's maximum. *)
Fixpoint tasks_aligned (ow : width) (acc : Z) (tasks : list (Z * Z * Z * Z))
    : Prop :=
  match tasks with
  | [] => True
  | (_, c, _, s) :: rest =>
      0 <= c /\ s = acc + c /\ s <= max_of ow /\ tasks_aligned ow s rest
  end.

(** What the tasks write, task after task: [g t i] for each round [i] of
    task [t]. *)
Definition expand {A : Type} (g : Z * Z * Z * Z -> nat -> A)
    (tasks : list (Z * Z * Z * Z)) : list A :=
  flat_map (fun t => map (g t) (seq 0 (Z.to_nat (task_count t)))) tasks.

(** One task of the gather kernel on a single buffer: round [i] stores
    [g t i] at [shifted_offset - count + i]. *)
Definition run_task {A : Type} (ow : width) (g : Z * Z * Z * Z -> nat -> A)
    (buf : list (option A)) (t : Z * Z * Z * Z) : list (option A) :=
  let '(_, c, _, s) := t in
  fold_left (fun b i => store b (sub_w ow s (cast ow c) + Z.of_nat i) (g t i))
            (seq 0 (Z.to_nat c)) buf.

(** What round [i] of task [t] stores in [selected_source] and in
    [selected_probably_coalesced]. *)
Definition g_source (w : width) (t : Z * Z * Z * Z) (i : nat) : Z :=
  let '(idx, _, _, _) := t in cast w idx.

Definition g_probe (w : width) (argsort : list Z) (t : Z * Z * Z * Z)
    (i : nat) : Z :=
  let '(_, _, first_match_idx, _) := t in
  cast w (deref argsort (first_match_idx + Z.of_nat i)).

(** Number of rounds of all tasks. *)
Definition total_rounds (tasks : list (Z * Z * Z * Z)) : nat :=
  fold_right (fun t n => (Z.to_nat (task_count t) + n)%nat) 0%nat tasks.

(** The conditions under which the hash, sort, join and offset stages and
    the stores to [selected_source] and [selected_probably_coalesced] stay
    in the range of their integer types: both sides are well formed and
    hashed in the same coordinate space, whose number of points fits
    [hash_t]; the nonzero counts fit [hash_t] (positions and counts are
    stored as [hash_t]); and the largest possible number of matches fits
    [offset_t]. The copy of the index columns needs [gather_fits] on top. *)
Record fits (w ow : width) (broadcasted_shape : list Z)
    (probably_coalesced source : Tensor) : Prop := {
  fits_probe : well_formed broadcasted_shape probably_coalesced;
  fits_source : well_formed broadcasted_shape source;
  fits_sparse_dim : sparse_dim source = sparse_dim probably_coalesced;
  fits_hash : numel (sparse_shape broadcasted_shape probably_coalesced) <= max_of w;
  fits_nnz_probe : _nnz probably_coalesced <= max_of w;
  fits_nnz_source : _nnz source <= max_of w;
  fits_offset : _nnz source * _nnz probably_coalesced <= max_of ow
}.

(** The largest value a subscript [d * dim_stride] of the copy loop can
    take: [UINT_MAX] when [offset_t] is [int32_t], [INT64_MAX] otherwise. *)
Definition max_subscript (ow : width) : Z :=
  match ow with
  | W32 => 2 ^ 32 - 1
  | W64 => max_of W64
  end.

(** The conditions under which the copy of the index columns (lines
    392-402 and 426-442) addresses the entries it means: the strides of
    [source._indices()] are nonnegative and representable in [offset_t],
    the subscripts of the last sparse dimension, [(sparse_dim - 1) *
    stride], of the source and of the [intersection_nnz] columns of the
    output do not leave the type they are formed in, the offset of the last
    source column fits [int64_t], and the entry [d] of the column [k] of
    [source._indices()] is stored at [d * stride(0) + k * stride(1)]. *)
Record gather_fits (w ow : width) (broadcasted_shape : list Z)
    (probably_coalesced source : Tensor) : Prop := {
  gather_selected_subscript :
    (sparse_dim source - 1)
    * intersection_nnz w ow probably_coalesced source broadcasted_shape
    <= max_subscript ow;
  gather_dim_stride : 0 <= fst (indices_stride source) <= max_of ow;
  gather_source_subscript :
    (sparse_dim source - 1) * fst (indices_stride source) <= max_subscript ow;
  gather_nnz_stride : 0 <= snd (indices_stride source) <= max_of ow;
  gather_source_offset :
    (_nnz source - 1) * snd (indices_stride source) <= max_of W64;
  gather_view :
    forall d k, 0 <= d < sparse_dim source -> 0 <= k < _nnz source ->
      indices_data source
        (d * fst (indices_stride source) + k * snd (indices_stride source))
      = nth (Z.to_nat d) (column (_indices source) k) 0
}.

(** The buffer a store to [o] goes to. *)
Definition buffer_of (o : output) (b : gather_buffers) : list (option Z) :=
  match o with
  | SelectedSource => buf_selected_source b
  | SelectedProbablyCoalesced => buf_selected_probably_coalesced b
  | SelectedSourceSparseIndices => buf_selected_source_sparse_indices b
  end.

Definition output_eqb (a b : output) : bool :=
  match a, b with
  | SelectedSource, SelectedSource => true
  | SelectedProbablyCoalesced, SelectedProbablyCoalesced => true
  | SelectedSourceSparseIndices, SelectedSourceSparseIndices => true
  | _, _ => false
  end.

(** The addresses, in program order, of the stores of [l] into the buffer
    [o]. *)
Definition writes_to (o : output) (l : list write) : list Z :=
  map address (filter (fun wr => output_eqb (target wr) o) l).

(** [gather_fits] as a test. *)
Definition gather_fitsb (w ow : width) (broadcasted_shape : list Z)
    (probably_coalesced source : Tensor) : bool :=
  let stride0 := fst (indices_stride source) in
  let stride1 := snd (indices_stride source) in
  ((sparse_dim source - 1)
   * intersection_nnz w ow probably_coalesced source broadcasted_shape
   <=? max_subscript ow)
  && (0 <=? stride0) && (stride0 <=? max_of ow)
  && ((sparse_dim source - 1) * stride0 <=? max_subscript ow)
  && (0 <=? stride1) && (stride1 <=? max_of ow)
  && ((_nnz source - 1) * stride1 <=? max_of W64)
  && forallb
       (fun d =>
          forallb
            (fun k =>
               indices_data source (d * stride0 + k * stride1)
               =? nth (Z.to_nat d) (column (_indices source) k) 0)
            (arange (_nnz source)))
       (arange (sparse_dim source)).

(** The matches of the source nonzero at position [k]: the positions of the
    probe, through [argsort], of the span of [sorted] that holds the linear
    offset of its column. *)
Definition matches_of (shape : list Z) (sorted argsort : list Z)
    (source_indices : list (list Z)) (k : Z) : list (Z * Z) :=
  let h := linear_offset shape (column source_indices k) in
  let lb := find_bound true sorted 0 (zlen sorted) h in
  let ub := find_bound false sorted 0 (zlen sorted) h in
  map (fun i => (k, deref argsort (lb + Z.of_nat i))) (seq 0 (Z.to_nat (ub - lb))).

(** All matched pairs (source position, probe position), in the order of
    the output rows. *)
Definition matched_pairs (shape : list Z) (sorted argsort : list Z)
    (source_indices : list (list Z)) : list (Z * Z) :=
  flat_map (matches_of shape sorted argsort source_indices)
           (arange (zlen source_indices)).

(** The value row of the output for the matched pair [p], cast to [d]. *)
Definition row_of_pair (d : dtype) (source probably_coalesced : Tensor)
    (p : Z * Z) (r : Row) : Prop :=
  exists rs rp,
    nth_error (vrows (_values source)) (Z.to_nat (fst p)) = Some rs
    /\ nth_error (vrows (_values probably_coalesced)) (Z.to_nat (snd p)) = Some rp
    /\ r = to_row d (binary_op rs rp).

(** The matched pairs of a probe and a source, as the kernel computes them
    with widths [w] and [ow]. *)
Definition kernel_pairs (w : width) (broadcasted_shape : list Z)
    (probably_coalesced source : Tensor) : list (Z * Z) :=
  matched_pairs (sparse_shape broadcasted_shape probably_coalesced)
    (fst (sorted_and_argsort w probably_coalesced source broadcasted_shape))
    (snd (sorted_and_argsort w probably_coalesced source broadcasted_shape))
    (_indices source).

(** The output tensor the assembler installs in [res] for value rows
    [rows]; its index columns are those of [selected_source_sparse_indices]. *)
Definition assembled (w ow : width) (broadcasted_shape : list Z)
    (probably_coalesced source res : Tensor) (rows : list Row) : Tensor :=
  {| is_sparse := is_sparse res;
     scalar_type := scalar_type res;
     sparse_dim := sparse_dim source;
     dense_dim :=
       Z.max (vdim (_values source)) (vdim (_values probably_coalesced)) - 1;
     sizes := broadcasted_shape;
     _indices := gathered_indices w ow probably_coalesced source broadcasted_shape;
     _values :=
       {| vdim := Z.max (vdim (_values source)) (vdim (_values probably_coalesced));
          vrows := rows |};
     is_coalesced := is_coalesced source && is_coalesced probably_coalesced |}.

(** A tensor, with one sparse dimension, for which the entry point selects
    the widths [(hash_t, offset_t)] when it is both inputs: 4 or [2^31]
    points, and 1 or 46341 nonzeros at coordinate 0
    ([46341 * 46341 > 2^31 - 1]). *)
Definition width_example (d : dtype) (r : Row) (hash_t offset_t : width)
    : Tensor :=
  let n := Z.to_nat (match offset_t with W32 => 1 | W64 => 46341 end) in
  {| is_sparse := true;
     scalar_type := d;
     sparse_dim := 1;
     dense_dim := 0;
     sizes := [match hash_t with W32 => 4 | W64 => 2147483648 end];
     _indices := repeat [0] n;
     _values := {| vdim := 1; vrows := repeat r n |};
     is_coalesced := false |}.

(* ===================================================================== *)
(** ** Facts about machine integers *)
(* ===================================================================== *)

Lemma max_of_W32 : max_of W32 = 2147483647.
Proof. reflexivity. Qed.

Lemma max_of_W64 : max_of W64 = 9223372036854775807.
Proof. reflexivity. Qed.

Lemma max_of_pos (w : width) : 0 < max_of w.
Proof. destruct w; reflexivity. Qed.

Lemma max_of_le_W64 (w : width) : max_of w <= max_of W64.
Proof. destruct w; [rewrite max_of_W32, max_of_W64; lia | lia]. Qed.

(** A value that the type can represent is left alone by a conversion. *)
Lemma cast_small (w : width) (z : Z) :
  - max_of w - 1 <= z <= max_of w -> cast w z = z.
Proof.
  unfold cast, wrap. destruct w; intros H.
  - rewrite max_of_W32 in H. cbn [bits].
    change (2 ^ (32 - 1)) with 2147483648.
    change (2 ^ 32) with 4294967296.
    rewrite Z.mod_small; lia.
  - rewrite max_of_W64 in H. cbn [bits].
    change (2 ^ (64 - 1)) with 9223372036854775808.
    change (2 ^ 64) with 18446744073709551616.
    rewrite Z.mod_small; lia.
Qed.

Lemma cast_nonneg_small (w : width) (z : Z) :
  0 <= z <= max_of w -> cast w z = z.
Proof. intros H. apply cast_small. pose proof (max_of_pos w). lia. Qed.

Lemma add_w_small (w : width) (a b : Z) :
  0 <= a + b <= max_of w -> add_w w a b = a + b.
Proof. apply cast_nonneg_small. Qed.

Lemma mul_w_small (w : width) (a b : Z) :
  0 <= a * b <= max_of w -> mul_w w a b = a * b.
Proof. apply cast_nonneg_small. Qed.

Lemma sub_w_small (w : width) (a b : Z) :
  0 <= a - b <= max_of w -> sub_w w a b = a - b.
Proof. apply cast_nonneg_small. Qed.

Lemma cast_mul_l (w : width) (a b : Z) : cast w (cast w a * b) = cast w (a * b).
Proof.
  unfold cast, wrap.
  set (m := 2 ^ bits w). set (h := 2 ^ (bits w - 1)).
  assert (Hm : m <> 0) by (unfold m; destruct w; cbn; lia).
  f_equal.
  rewrite (Z.mod_eq (a + h) m Hm).
  replace ((a + h - m * ((a + h) / m) - h) * b + h)
    with ((a * b + h) + (- ((a + h) / m) * b) * m) by ring.
  apply Z_mod_plus_full.
Qed.

Lemma cast_idem_1 (w : width) : cast w 1 = 1.
Proof. destruct w; reflexivity. Qed.

Lemma cast_W32_W64 (z : Z) : cast W32 (cast W64 z) = cast W32 z.
Proof.
  unfold cast, wrap. cbn [bits].
  change (2 ^ (64 - 1)) with 9223372036854775808.
  change (2 ^ 64) with (4294967296 * 4294967296).
  change (2 ^ (32 - 1)) with 2147483648.
  change (2 ^ 32) with 4294967296.
  f_equal.
  rewrite (Z.mod_eq (z + 9223372036854775808) (4294967296 * 4294967296)) by lia.
  set (q := (z + 9223372036854775808) / (4294967296 * 4294967296)).
  replace (z + 9223372036854775808 - 4294967296 * 4294967296 * q
           - 9223372036854775808 + 2147483648)
    with (z + 2147483648 + (- q * 4294967296) * 4294967296) by ring.
  apply Z_mod_plus_full.
Qed.

(* ===================================================================== *)
(** ** Facts about lists and positions *)
(* ===================================================================== *)

Lemma zlen_nonneg {A : Type} (l : list A) : 0 <= zlen l.
Proof. unfold zlen. lia. Qed.

Lemma zlen_cons {A : Type} (x : A) (l : list A) : zlen (x :: l) = zlen l + 1.
Proof. unfold zlen. cbn [length]. lia. Qed.

Lemma zlen_app {A : Type} (l1 l2 : list A) : zlen (l1 ++ l2) = zlen l1 + zlen l2.
Proof. unfold zlen. rewrite length_app. lia. Qed.

Lemma deref_cons_succ (x : Z) (a : list Z) (i : Z) :
  0 <= i -> deref (x :: a) (i + 1) = deref a i.
Proof.
  intros H. unfold deref.
  replace (Z.to_nat (i + 1)) with (S (Z.to_nat i)) by lia. reflexivity.
Qed.

Lemma deref_In (a : list Z) (i : Z) :
  0 <= i < zlen a -> In (deref a i) a.
Proof. unfold zlen, deref. intros H. apply nth_In. lia. Qed.

(** Index form of a sorted array. *)
Lemma sorted_deref_le (a : list Z) :
  Sorted Z.le a ->
  forall i j, 0 <= i <= j /\ j < zlen a -> deref a i <= deref a j.
Proof.
  intros Hs. apply Sorted_StronglySorted in Hs; [| intros x y z; lia].
  induction Hs as [| x a Hs IH Hx]; intros i j Hij.
  - unfold zlen in Hij. cbn in Hij. lia.
  - rewrite zlen_cons in Hij.
    destruct (Z.eq_dec i 0) as [-> | Hi].
    + destruct (Z.eq_dec j 0) as [-> | Hj]; [lia |].
      replace j with ((j - 1) + 1) by lia.
      rewrite deref_cons_succ by lia.
      change (deref (x :: a) 0) with x.
      rewrite Forall_forall in Hx. apply Hx, deref_In. lia.
    + replace i with ((i - 1) + 1) by lia.
      replace j with ((j - 1) + 1) by lia.
      rewrite !deref_cons_succ by lia. apply IH. lia.
Qed.

(* ===================================================================== *)
(** ** [find_bound] is a partition-point search *)
(* ===================================================================== *)

Lemma quot2_bounds (count : Z) :
  0 < count -> 0 <= Z.quot count 2 < count.
Proof.
  intros H. rewrite Z.quot_div_nonneg by lia.
  split; [apply Z.div_pos; lia | apply Z.div_lt; lia].
Qed.

(** The loop invariant: the test holds before [first] and fails from
    [first + count] on; the result is the partition point. *)
Lemma find_bound_loop_spec (is_lower : bool) (a : list Z) (value : Z) :
  (forall i j, 0 <= i <= j /\ j < zlen a ->
     bound_test is_lower (deref a j) value = true ->
     bound_test is_lower (deref a i) value = true) ->
  forall (fuel : nat) (first count : Z),
    0 <= first -> 0 <= count -> first + count <= zlen a ->
    (Z.to_nat count <= fuel)%nat ->
    (forall i, 0 <= i < first -> bound_test is_lower (deref a i) value = true) ->
    (forall i, first + count <= i < zlen a ->
       bound_test is_lower (deref a i) value = false) ->
    let r := find_bound_loop is_lower a value fuel first count in
    first <= r <= first + count
    /\ (forall i, 0 <= i < r -> bound_test is_lower (deref a i) value = true)
    /\ (forall i, r <= i < zlen a -> bound_test is_lower (deref a i) value = false).
Proof.
  intros Hmono fuel.
  induction fuel as [| fuel IH]; intros first count Hf Hc Hlen Hfuel Hlo Hhi.
  - assert (count = 0) by lia. subst count. cbn.
    repeat split; try lia; [exact Hlo | intros i Hi; apply Hhi; lia].
  - cbn [find_bound_loop].
    destruct (count >? 0) eqn:Hpos.
    + apply Z.gtb_lt in Hpos.
      pose proof (quot2_bounds count Hpos) as Hstep.
      set (step := Z.quot count 2) in *.
      destruct (bound_test is_lower (deref a (first + step)) value) eqn:Ht.
      * specialize (IH (first + step + 1) (count - (step + 1))).
        cbv zeta in IH.
        destruct IH as (Hr & Hl & Hh); try lia.
        -- intros i Hi. apply (Hmono i (first + step)); [lia | exact Ht].
        -- intros i Hi. apply Hhi. lia.
        -- cbv zeta. repeat split; try lia; assumption.
      * specialize (IH first step). cbv zeta in IH.
        destruct IH as (Hr & Hl & Hh); try lia.
        -- exact Hlo.
        -- intros i Hi.
           destruct (bound_test is_lower (deref a i) value) eqn:Hti; [| reflexivity].
           rewrite (Hmono (first + step) i) in Ht; [discriminate | lia | exact Hti].
        -- cbv zeta. repeat split; try lia; assumption.
    + assert (count = 0) by lia. subst count. cbv zeta.
      repeat split; try lia; [exact Hlo | intros i Hi; apply Hhi; lia].
Qed.

(** The loop never runs out of rounds: more fuel than [count] changes
    nothing. *)
Lemma find_bound_loop_fuel (is_lower : bool) (a : list Z) (value : Z) :
  forall (fuel fuel' : nat) (first count : Z),
    (Z.to_nat count <= fuel)%nat -> (Z.to_nat count <= fuel')%nat ->
    find_bound_loop is_lower a value fuel first count
    = find_bound_loop is_lower a value fuel' first count.
Proof.
  induction fuel as [| fuel IH]; intros fuel' first count H1 H2.
  - destruct fuel' as [| fuel']; [reflexivity |].
    cbn [find_bound_loop].
    destruct (count >? 0) eqn:Hpos; [apply Z.gtb_lt in Hpos; lia | reflexivity].
  - destruct fuel' as [| fuel'].
    + cbn [find_bound_loop].
      destruct (count >? 0) eqn:Hpos; [apply Z.gtb_lt in Hpos; lia | reflexivity].
    + cbn [find_bound_loop].
      destruct (count >? 0) eqn:Hpos; [| reflexivity].
      apply Z.gtb_lt in Hpos.
      pose proof (quot2_bounds count Hpos) as Hstep.
      destruct (bound_test is_lower (deref a (first + Z.quot count 2)) value);
        apply IH; lia.
Qed.

Lemma bound_test_mono (is_lower : bool) (a : list Z) (value : Z) :
  Sorted Z.le a ->
  forall i j, 0 <= i <= j /\ j < zlen a ->
    bound_test is_lower (deref a j) value = true ->
    bound_test is_lower (deref a i) value = true.
Proof.
  intros Hs i j Hij. pose proof (sorted_deref_le a Hs i j Hij) as Hle.
  unfold bound_test. destruct is_lower.
  - rewrite !Z.ltb_lt. lia.
  - rewrite !Z.geb_le. lia.
Qed.

Lemma find_bound_spec (is_lower : bool) (a : list Z) (value : Z) :
  Sorted Z.le a ->
  let r := find_bound is_lower a 0 (zlen a) value in
  0 <= r <= zlen a
  /\ (forall i, 0 <= i < r -> bound_test is_lower (deref a i) value = true)
  /\ (forall i, r <= i < zlen a -> bound_test is_lower (deref a i) value = false).
Proof.
  intros Hs. unfold find_bound. cbv zeta.
  pose proof (zlen_nonneg a) as Hn.
  destruct (find_bound_loop_spec is_lower a value (bound_test_mono is_lower a value Hs)
              (Z.to_nat (zlen a - 0)) 0 (zlen a - 0)) as (Hr & Hl & Hh);
    try (intros; lia).
  repeat split; try lia; assumption.
Qed.
(* ===================================================================== *)
(** ** The hash is the row-major linear offset *)
(* ===================================================================== *)

Lemma numel_cons (s : Z) (shape : list Z) : numel (s :: shape) = s * numel shape.
Proof. reflexivity. Qed.

Lemma in_bounds_numel_pos (shape coord : list Z) :
  in_bounds shape coord -> 0 < numel shape.
Proof.
  induction 1 as [| c s coord shape Hc _ IH]; [reflexivity |].
  rewrite numel_cons. nia.
Qed.

Lemma in_bounds_length (shape coord : list Z) :
  in_bounds shape coord -> length coord = length shape.
Proof. induction 1; cbn; congruence. Qed.

Lemma in_bounds_sizes_pos (shape coord : list Z) :
  in_bounds shape coord -> Forall (fun s => 1 <= s) shape.
Proof. induction 1; constructor; [lia | assumption]. Qed.

Lemma sizes_pos_numel (shape : list Z) :
  Forall (fun s => 1 <= s) shape -> 1 <= numel shape.
Proof.
  induction 1 as [| s shape Hs _ IH]; [cbn; lia |].
  rewrite numel_cons. nia.
Qed.

(** A point's linear offset is one of the [numel shape] offsets. *)
Lemma linear_offset_bounds (shape coord : list Z) :
  in_bounds shape coord -> 0 <= linear_offset shape coord < numel shape.
Proof.
  induction 1 as [| c s coord shape Hc _ IH]; [cbn; lia |].
  cbn [linear_offset]. rewrite numel_cons.
  assert ((c + 1) * numel shape <= s * numel shape) by nia.
  nia.
Qed.

(** Comparing linear offsets is comparing coordinates lexicographically. *)
Lemma lex_compare_linear (shape c1 c2 : list Z) :
  in_bounds shape c1 -> in_bounds shape c2 ->
  lex_compare c1 c2 = (linear_offset shape c1 ?= linear_offset shape c2).
Proof.
  intros H1. revert c2.
  induction H1 as [| x s c1 shape Hx H1 IH]; intros c2 H2.
  - inversion H2; subst. reflexivity.
  - inversion H2 as [| y s' c2' shape' Hy H2']; subst.
    cbn [lex_compare linear_offset].
    pose proof (linear_offset_bounds _ _ H1) as B1.
    pose proof (linear_offset_bounds _ _ H2') as B2.
    destruct (Z.compare_spec x y) as [-> | Hlt | Hgt].
    + rewrite (IH _ H2').
      symmetry. destruct (Z.compare_spec (linear_offset shape c1) (linear_offset shape c2')) as [E | L | G].
      * apply Z.compare_eq_iff. lia.
      * apply Z.compare_lt_iff. lia.
      * apply Z.compare_gt_iff. lia.
    + symmetry. apply Z.compare_lt_iff.
      assert ((x + 1) * numel shape <= y * numel shape) by nia. lia.
    + symmetry. apply Z.compare_gt_iff.
      assert ((y + 1) * numel shape <= x * numel shape) by nia. lia.
Qed.

Lemma lex_compare_eq (c1 c2 : list Z) : lex_compare c1 c2 = Eq -> c1 = c2.
Proof.
  revert c2. induction c1 as [| x c1 IH]; intros [| y c2]; cbn; try discriminate.
  - reflexivity.
  - destruct (Z.compare_spec x y) as [Hxy | Hxy | Hxy]; try discriminate.
    intros Hc. subst. f_equal. apply IH, Hc.
Qed.

Lemma lex_compare_refl (c : list Z) : lex_compare c c = Eq.
Proof. induction c as [| x c IH]; cbn; [| rewrite Z.compare_refl]; auto. Qed.

(** The strides the library computes in [int64_t] are the exact ones when
    the number of points is representable. *)
Lemma contiguous_strides_cons2 (s n : Z) (r : list Z) :
  contiguous_strides (s :: n :: r)
  = mul_w W64 (hd 1 (contiguous_strides (n :: r))) n :: contiguous_strides (n :: r).
Proof. reflexivity. Qed.

Lemma contiguous_strides_exact (shape : list Z) :
  Forall (fun s => 1 <= s) shape -> numel shape <= INT64_MAX ->
  contiguous_strides shape = row_major_strides shape.
Proof.
  induction 1 as [| s shape Hs Hf IH]; intros Hmax; [reflexivity |].
  destruct shape as [| n r]; [reflexivity |].
  pose proof (sizes_pos_numel _ Hf) as Hpos.
  rewrite numel_cons in Hmax.
  assert (Hrest : numel (n :: r) <= INT64_MAX) by nia.
  rewrite contiguous_strides_cons2, (IH Hrest).
  cbn [row_major_strides hd]. f_equal.
  rewrite numel_cons in Hrest, Hpos.
  inversion Hf as [| ? ? Hn Hr]; subst.
  pose proof (sizes_pos_numel _ Hr).
  rewrite mul_w_small; [rewrite numel_cons; lia |].
  unfold INT64_MAX in Hrest. nia.
Qed.

Lemma nth_row_major_strides (f : Z -> Z) (ps : list Z) (s : Z) (ss : list Z) :
  nth (length ps) (map f (row_major_strides (ps ++ s :: ss))) 0 = f (numel ss).
Proof. induction ps as [| p ps IH]; [reflexivity | exact IH]. Qed.

Lemma nth_middle_length {A : Type} (pc : list A) (c : A) (cs : list A) (d : A) :
  nth (length pc) (pc ++ c :: cs) d = c.
Proof. induction pc as [| p pc IH]; [reflexivity | exact IH]. Qed.

(** The loop over [dim], started at dimension [length ps] with the hash
    accumulated so far. *)
Lemma hash_fold_exact (w : width) (ss cs : list Z) :
  in_bounds ss cs ->
  forall (ps pc : list Z) (acc : Z),
    length pc = length ps -> 0 <= acc -> acc + numel ss <= max_of w ->
    fold_left (hash_step w (map (cast w) (row_major_strides (ps ++ ss))) (pc ++ cs))
              (seq (length ps) (length ss)) acc
    = acc + linear_offset ss cs.
Proof.
  induction 1 as [| c s cs ss Hc Hf IH]; intros ps pc acc Hlen Hacc Hmax.
  - cbn. lia.
  - cbn [length seq fold_left linear_offset].
    pose proof (in_bounds_numel_pos _ _ Hf) as Hpos.
    rewrite numel_cons in Hmax.
    assert (Hcs : (c + 1) * numel ss <= s * numel ss) by nia.
    assert (Hstep : hash_step w (map (cast w) (row_major_strides (ps ++ s :: ss)))
                      (pc ++ c :: cs) acc (length ps) = acc + c * numel ss).
    { unfold hash_step.
      rewrite nth_row_major_strides.
      rewrite <- Hlen, nth_middle_length.
      rewrite (cast_nonneg_small w c) by nia.
      rewrite (cast_nonneg_small w (numel ss)) by nia.
      rewrite mul_w_small by nia.
      apply add_w_small. nia. }
    rewrite Hstep.
    replace (ps ++ s :: ss) with ((ps ++ [s]) ++ ss) by (rewrite <- app_assoc; reflexivity).
    replace (pc ++ c :: cs) with ((pc ++ [c]) ++ cs) by (rewrite <- app_assoc; reflexivity).
    replace (S (length ps)) with (length (ps ++ [s])) by (rewrite length_app; cbn; lia).
    rewrite IH.
    + lia.
    + rewrite !length_app. cbn. lia.
    + nia.
    + nia.
Qed.

(** With coefficients cast from the row-major strides of a shape whose
    number of points fits [hash_t], the hash of a point of the space is its
    linear offset: no operation of the loop wraps around. *)
Lemma compute_hash_exact (w : width) (shape col : list Z) :
  in_bounds shape col -> numel shape <= max_of w ->
  compute_hash w (length shape) (map (cast w) (contiguous_strides shape)) col
  = linear_offset shape col.
Proof.
  intros Hb Hmax. unfold compute_hash.
  rewrite contiguous_strides_exact.
  - pose proof (hash_fold_exact w shape col Hb [] [] 0) as H.
    cbn [app length] in H. rewrite H; [lia | reflexivity | lia | lia].
  - eapply in_bounds_sizes_pos, Hb.
  - pose proof (max_of_le_W64 w). unfold INT64_MAX. lia.
Qed.

(* ===================================================================== *)
(** ** Positions: [arange] and [narrow] *)
(* ===================================================================== *)

Lemma length_arange (n : Z) : length (arange n) = Z.to_nat n.
Proof. unfold arange. rewrite length_map, length_seq. reflexivity. Qed.

Lemma zlen_arange (n : Z) : 0 <= n -> zlen (arange n) = n.
Proof. intros H. unfold zlen. rewrite length_arange. lia. Qed.

Lemma deref_arange (n q : Z) : 0 <= q < n -> deref (arange n) q = q.
Proof.
  intros H. unfold deref, arange.
  change 0 with (Z.of_nat 0) at 1. rewrite map_nth, seq_nth; lia.
Qed.

Lemma In_arange (n j : Z) : In j (arange n) <-> 0 <= j < n.
Proof.
  unfold arange. rewrite in_map_iff. split.
  - intros (i & <- & Hi). apply in_seq in Hi. lia.
  - intros H. exists (Z.to_nat j). split; [lia | apply in_seq; lia].
Qed.

Lemma firstn_seq_min (n s len : nat) :
  firstn n (seq s len) = seq s (Nat.min n len).
Proof.
  revert s len. induction n as [| n IH]; intros s [| len]; cbn; try reflexivity.
  f_equal. apply IH.
Qed.

Lemma narrow_arange (m n : Z) : n <= m -> narrow (arange m) 0 n = arange n.
Proof.
  intros H. unfold narrow, arange. cbn [Z.to_nat skipn].
  rewrite firstn_map, firstn_seq_min. do 2 f_equal. lia.
Qed.

Lemma narrow_all {A : Type} (l : list A) : narrow l 0 (zlen l) = l.
Proof.
  unfold narrow, zlen. cbn [Z.to_nat skipn].
  rewrite Nat2Z.id. apply firstn_all.
Qed.

Lemma map_column_arange {B : Type} (f : list Z -> B) (indices : list (list Z)) :
  map (fun nnz_idx => f (column indices nnz_idx)) (arange (zlen indices))
  = map f indices.
Proof.
  unfold arange, zlen. rewrite Nat2Z.id, map_map.
  induction indices as [| c indices IH] using rev_ind; [reflexivity |].
  rewrite length_app. cbn [length]. rewrite Nat.add_1_r, seq_S, !map_app.
  cbn [map]. f_equal.
  - rewrite <- IH. apply map_ext_in. intros i Hi. apply in_seq in Hi.
    unfold column. rewrite Nat2Z.id, app_nth1 by lia. reflexivity.
  - unfold column. cbn [Nat.add]. rewrite Nat2Z.id, nth_middle_length. reflexivity.
Qed.

Lemma map_fst_combine {A B : Type} (la : list A) (lb : list B) :
  length la = length lb -> map fst (combine la lb) = la.
Proof.
  revert lb. induction la as [| a la IH]; intros [| b lb] H; cbn in *;
    try discriminate; [reflexivity |].
  f_equal. apply IH. lia.
Qed.

Lemma map_snd_combine {A B : Type} (la : list A) (lb : list B) :
  length la = length lb -> map snd (combine la lb) = lb.
Proof.
  revert lb. induction la as [| a la IH]; intros [| b lb] H; cbn in *;
    try discriminate; [reflexivity |].
  f_equal. apply IH. lia.
Qed.

(* ===================================================================== *)
(** ** The sort stage *)
(* ===================================================================== *)

Lemma sort_insert_perm (p : Z * Z) (l : list (Z * Z)) :
  Permutation (sort_insert p l) (p :: l).
Proof.
  induction l as [| q l IH]; cbn; [reflexivity |].
  destruct (fst p <=? fst q); [reflexivity |].
  rewrite IH. apply perm_swap.
Qed.

Lemma sort_pairs_perm (values : list Z) :
  Permutation (sort_pairs values) (combine values (arange (zlen values))).
Proof.
  unfold sort_pairs.
  induction (combine values (arange (zlen values))) as [| p l IH]; cbn;
    [reflexivity |].
  rewrite sort_insert_perm. constructor. exact IH.
Qed.

Lemma sort_insert_sorted (p : Z * Z) (l : list (Z * Z)) :
  Sorted (fun a b => fst a <= fst b) l ->
  Sorted (fun a b => fst a <= fst b) (sort_insert p l).
Proof.
  induction 1 as [| q l Hs IH Hhd]; cbn.
  - repeat constructor.
  - destruct (fst p <=? fst q) eqn:Hle.
    + apply Z.leb_le in Hle. repeat constructor; assumption.
    + apply Z.leb_gt in Hle. constructor; [exact IH |].
      destruct l as [| r l]; cbn.
      * constructor. lia.
      * destruct (fst p <=? fst r); constructor; [lia |].
        inversion Hhd; assumption.
Qed.

Lemma sort_pairs_sorted (values : list Z) :
  Sorted (fun a b => fst a <= fst b) (sort_pairs values).
Proof.
  unfold sort_pairs.
  induction (combine values (arange (zlen values))) as [| p l IH]; cbn;
    [constructor | apply sort_insert_sorted, IH].
Qed.

Lemma sorted_map_fst (ps : list (Z * Z)) :
  Sorted (fun a b => fst a <= fst b) ps -> Sorted Z.le (map fst ps).
Proof.
  induction 1 as [| q l Hs IH Hhd]; cbn; constructor; [exact IH |].
  destruct Hhd; cbn; constructor; assumption.
Qed.

(** Every pair of [combine values (arange n)] is (value at position,
    position). *)
Lemma combine_positions (values : list Z) (k : nat) :
  Forall (fun p => exists i, (i < length values)%nat
                    /\ snd p = Z.of_nat (k + i) /\ fst p = nth i values 0)
         (combine values (map Z.of_nat (seq k (length values)))).
Proof.
  revert k. induction values as [| x values IH]; intros k; cbn; constructor.
  - exists 0%nat. cbn. repeat split; [lia | f_equal; lia].
  - specialize (IH (S k)). rewrite Forall_forall in IH |- *.
    intros p Hp. destruct (IH p Hp) as (i & Hi & Hs & Hf).
    exists (S i). cbn. repeat split; [lia | rewrite Hs; f_equal; lia | exact Hf].
Qed.

Lemma combine_arange_positions (values : list Z) :
  Forall (fun p => 0 <= snd p < zlen values /\ deref values (snd p) = fst p)
         (combine values (arange (zlen values))).
Proof.
  unfold arange, zlen. rewrite Nat2Z.id.
  eapply Forall_impl; [| apply combine_positions].
  cbn beta. intros p (i & Hi & Hs & Hf). cbn [Nat.add] in Hs.
  rewrite Hs, Hf. split; [lia |]. unfold deref. rewrite Nat2Z.id. reflexivity.
Qed.

Lemma deref_map_fst (ps : list (Z * Z)) (q : Z) :
  deref (map fst ps) q = fst (nth (Z.to_nat q) ps (0, 0)).
Proof. unfold deref. exact (map_nth fst ps (0, 0) (Z.to_nat q)). Qed.

Lemma deref_map_snd (ps : list (Z * Z)) (q : Z) :
  deref (map snd ps) q = snd (nth (Z.to_nat q) ps (0, 0)).
Proof. unfold deref. exact (map_nth snd ps (0, 0) (Z.to_nat q)). Qed.

Lemma sort_ok (hash : list Z) :
  sort_stage_ok hash (fst (sort hash)) (snd (sort hash)).
Proof.
  unfold sort. cbn [fst snd].
  pose proof (sort_pairs_perm hash) as Hperm.
  pose proof (sort_pairs_sorted hash) as Hsorted.
  pose proof (combine_arange_positions hash) as Hpos.
  assert (Hlen : length hash = length (arange (zlen hash))).
  { rewrite length_arange. unfold zlen. lia. }
  assert (Hn : length (sort_pairs hash) = length hash).
  { rewrite (Permutation_length Hperm), length_combine, <- Hlen. lia. }
  assert (Hq : Forall (fun p => 0 <= snd p < zlen hash
                                /\ deref hash (snd p) = fst p) (sort_pairs hash)).
  { eapply Permutation_Forall; [symmetry; exact Hperm | exact Hpos]. }
  rewrite Forall_forall in Hq.
  unfold sort_stage_ok.
  split; [apply sorted_map_fst, Hsorted |].
  split; [rewrite length_map; exact Hn |].
  split; [rewrite length_map; exact Hn |].
  split.
  { rewrite (Permutation_map fst Hperm), map_fst_combine by exact Hlen.
    reflexivity. }
  split.
  - intros q Hqr. rewrite deref_map_fst, deref_map_snd.
    apply Hq, nth_In. unfold zlen in Hqr. lia.
  - intros j Hj.
    assert (Hin : In j (map snd (sort_pairs hash))).
    { eapply Permutation_in.
      - symmetry. apply (Permutation_map snd Hperm).
      - rewrite map_snd_combine by exact Hlen. apply In_arange. exact Hj. }
    destruct (In_nth _ _ 0 Hin) as (q & Hqlt & Hnth).
    rewrite length_map, Hn in Hqlt.
    exists (Z.of_nat q). unfold zlen, deref. rewrite Nat2Z.id.
    split; [lia | exact Hnth].
Qed.

(** The branch of a coalesced probe: hashes that are already in order, and
    the identity permutation. *)
Lemma identity_sort_ok (hash : list Z) :
  Sorted Z.le hash -> sort_stage_ok hash hash (arange (zlen hash)).
Proof.
  intros Hs. pose proof (zlen_nonneg hash) as Hn.
  unfold sort_stage_ok.
  split; [exact Hs |]. split; [reflexivity |].
  split; [rewrite length_arange; unfold zlen; lia |].
  split; [reflexivity |].
  split.
  - intros q Hq. rewrite deref_arange by lia. split; [lia | reflexivity].
  - intros j Hj. exists j. split; [lia | apply deref_arange; lia].
Qed.

(* ===================================================================== *)
(** ** Lower and upper bounds in a sorted array *)
(* ===================================================================== *)

Lemma find_bound_lower (a : list Z) (value : Z) :
  Sorted Z.le a ->
  let lb := find_bound true a 0 (zlen a) value in
  0 <= lb <= zlen a
  /\ (forall i, 0 <= i < lb -> deref a i < value)
  /\ (forall i, lb <= i < zlen a -> value <= deref a i).
Proof.
  intros Hs. destruct (find_bound_spec true a value Hs) as (Hr & Hl & Hh).
  cbv zeta. split; [exact Hr |]. split; intros i Hi.
  - specialize (Hl i Hi). unfold bound_test in Hl. apply Z.ltb_lt in Hl. exact Hl.
  - specialize (Hh i Hi). unfold bound_test in Hh. apply Z.ltb_ge in Hh. exact Hh.
Qed.

Lemma find_bound_upper (a : list Z) (value : Z) :
  Sorted Z.le a ->
  let ub := find_bound false a 0 (zlen a) value in
  0 <= ub <= zlen a
  /\ (forall i, 0 <= i < ub -> deref a i <= value)
  /\ (forall i, ub <= i < zlen a -> value < deref a i).
Proof.
  intros Hs. destruct (find_bound_spec false a value Hs) as (Hr & Hl & Hh).
  cbv zeta. split; [exact Hr |]. split; intros i Hi.
  - specialize (Hl i Hi). unfold bound_test in Hl.
    rewrite Z.geb_leb in Hl. apply Z.leb_le in Hl. exact Hl.
  - specialize (Hh i Hi). unfold bound_test in Hh.
    rewrite Z.geb_leb in Hh. apply Z.leb_gt in Hh. exact Hh.
Qed.

(** The entries equal to [value] are exactly those from the lower bound up
    to the upper bound. *)
Lemma find_bound_span (a : list Z) (value : Z) :
  Sorted Z.le a ->
  let lb := find_bound true a 0 (zlen a) value in
  let ub := find_bound false a 0 (zlen a) value in
  0 <= lb /\ lb <= ub /\ ub <= zlen a
  /\ (forall i, 0 <= i < zlen a -> (deref a i = value <-> lb <= i < ub)).
Proof.
  intros Hs.
  destruct (find_bound_lower a value Hs) as (Hlr & Hll & Hlh).
  destruct (find_bound_upper a value Hs) as (Hur & Hul & Huh).
  cbv zeta in *.
  set (lb := find_bound true a 0 (zlen a) value) in *.
  set (ub := find_bound false a 0 (zlen a) value) in *.
  assert (Hle : lb <= ub).
  { destruct (Z_le_gt_dec lb ub) as [Hle | Hgt]; [exact Hle |].
    specialize (Hll ub ltac:(lia)). specialize (Huh ub ltac:(lia)). lia. }
  repeat split; try lia.
  - destruct (Z_lt_ge_dec i lb) as [Hlt | Hge]; [| lia].
    specialize (Hll i ltac:(lia)). lia.
  - destruct (Z_lt_ge_dec i ub) as [Hlt | Hge]; [exact Hlt |].
    specialize (Huh i ltac:(lia)). lia.
  - intros (H1 & H2).
    specialize (Hlh i ltac:(lia)). specialize (Hul i ltac:(lia)). lia.
Qed.

(** A value whose positions are exactly [lb, ub) occurs [ub - lb] times. *)
Lemma count_occ_span (a : list Z) (value : Z) :
  forall lb ub,
    0 <= lb -> lb <= ub -> ub <= zlen a ->
    (forall i, 0 <= i < zlen a -> (deref a i = value <-> lb <= i < ub)) ->
    Z.of_nat (count_occ Z.eq_dec a value) = ub - lb.
Proof.
  induction a as [| x a IH]; intros lb ub H0 Hle Hub Hspan.
  - unfold zlen in Hub. cbn in *. lia.
  - rewrite zlen_cons in Hub, Hspan.
    pose proof (zlen_nonneg a) as Hn.
    assert (Hx : x = value <-> lb <= 0 < ub).
    { apply (Hspan 0). lia. }
    assert (Hshift : forall lb' ub',
               (forall i, 0 <= i < zlen a -> (lb <= i + 1 < ub <-> lb' <= i < ub')) ->
               forall i, 0 <= i < zlen a -> (deref a i = value <-> lb' <= i < ub')).
    { intros lb' ub' Hrel i Hi. rewrite <- (Hrel i Hi).
      rewrite <- (deref_cons_succ x a i) by lia. apply Hspan. lia. }
    cbn [count_occ]. destruct (Z.eq_dec x value) as [He | Hne].
    + assert (lb = 0 /\ 0 < ub) as [-> Hpos] by (apply Hx in He; lia).
      rewrite Nat2Z.inj_succ, (IH 0 (ub - 1)); try lia.
      apply Hshift. intros i Hi. lia.
    + assert (Hcase : ~ (lb <= 0 < ub)) by (intros Hc; apply Hne, Hx, Hc).
      destruct (Z.eq_dec lb 0) as [-> | Hlb].
      * assert (ub = 0) by lia. subst ub.
        rewrite (IH 0 0); try lia.
        apply Hshift. intros i Hi. lia.
      * rewrite (IH (lb - 1) (ub - 1)); try lia.
        apply Hshift. intros i Hi. lia.
Qed.

Lemma find_bound_count (a : list Z) (value : Z) :
  Sorted Z.le a ->
  find_bound false a 0 (zlen a) value - find_bound true a 0 (zlen a) value
  = Z.of_nat (count_occ Z.eq_dec a value).
Proof.
  intros Hs. destruct (find_bound_span a value Hs) as (H0 & Hle & Hub & Hspan).
  symmetry. apply count_occ_span; assumption.
Qed.

(** The record the join stores for one source nonzero. *)
Lemma intersect_one_spec (w : width) (sdim : nat) (coeffs sorted_hash : list Z)
    (source_indices : list (list Z)) (nnz_idx : Z) :
  Sorted Z.le sorted_hash -> zlen sorted_hash <= max_of w ->
  let hash := compute_hash w sdim coeffs (column source_indices nnz_idx) in
  let lb := find_bound true sorted_hash 0 (zlen sorted_hash) hash in
  let ub := find_bound false sorted_hash 0 (zlen sorted_hash) hash in
  intersect_one w sdim coeffs sorted_hash source_indices nnz_idx = (ub - lb, lb).
Proof.
  intros Hs Hmax. cbv zeta. unfold intersect_one. cbv zeta.
  rewrite Z.add_0_l, Z.sub_0_r.
  destruct (find_bound_span sorted_hash
              (compute_hash w sdim coeffs (column source_indices nnz_idx)) Hs)
    as (H0 & Hle & Hub & _).
  rewrite !cast_nonneg_small by lia. reflexivity.
Qed.

(* ===================================================================== *)
(** ** Offsets: the inclusive prefix sum *)
(* ===================================================================== *)

Lemma zsum_cons (x : Z) (l : list Z) : zsum (x :: l) = x + zsum l.
Proof. reflexivity. Qed.

Lemma zsum_nonneg (l : list Z) : Forall (fun c => 0 <= c) l -> 0 <= zsum l.
Proof. induction 1; [cbn | rewrite zsum_cons]; lia. Qed.

(** No partial sum wraps around when the total fits the offset type. *)
Lemma cumsum_from_exact (ow : width) (l : list Z) :
  Forall (fun c => 0 <= c) l ->
  forall acc, 0 <= acc -> acc + zsum l <= max_of ow ->
    cumsum_from ow acc l = prefix_sums acc l.
Proof.
  induction 1 as [| c l Hc Hl IH]; intros acc Hacc Hmax; [reflexivity |].
  cbn [cumsum_from prefix_sums]. rewrite zsum_cons in Hmax.
  pose proof (zsum_nonneg l Hl).
  rewrite (cast_nonneg_small ow c) by lia.
  rewrite add_w_small by lia.
  f_equal. apply IH; lia.
Qed.

Lemma length_prefix_sums (acc : Z) (l : list Z) :
  length (prefix_sums acc l) = length l.
Proof. revert acc. induction l; intros acc; cbn; [| rewrite IHl]; reflexivity. Qed.

Lemma last_prefix_sums (l : list Z) :
  forall acc d, l <> [] -> last (prefix_sums acc l) d = acc + zsum l.
Proof.
  induction l as [| x l IH]; intros acc d Hne; [congruence |].
  destruct l as [| y l].
  - cbn. lia.
  - change (prefix_sums acc (x :: y :: l))
      with ((acc + x) :: prefix_sums (acc + x) (y :: l)).
    change (last ((acc + x) :: prefix_sums (acc + x) (y :: l)) d)
      with (last (prefix_sums (acc + x) (y :: l)) d).
    rewrite IH by discriminate. rewrite (zsum_cons x). lia.
Qed.

(** [intersection_nnz] is the total of the match counts. *)
Lemma intersection_nnz_total (l : list Z) :
  intersection_nnz_of (prefix_sums 0 l) = zsum l.
Proof.
  unfold intersection_nnz_of, zlen. rewrite length_prefix_sums.
  destruct l as [| x l]; [reflexivity |].
  cbn [length]. replace (Z.of_nat (S (length l)) =? 0) with false
    by (symmetry; apply Z.eqb_neq; lia).
  apply last_prefix_sums. discriminate.
Qed.

(* ===================================================================== *)
(** ** Gather: tasks fill disjoint, consecutive ranges of the buffers *)
(* ===================================================================== *)

Lemma store_at_middle {A : Type} (l1 : list (option A)) (x : option A)
    (rest : list (option A)) (v : A) :
  store_at (l1 ++ x :: rest) (length l1) v = l1 ++ Some v :: rest.
Proof. induction l1 as [| y l1 IH]; cbn; [| rewrite IH]; reflexivity. Qed.

Lemma store_next {A : Type} (done : list A) (x : option A)
    (rest : list (option A)) (v : A) :
  store (map Some done ++ x :: rest) (zlen done) v
  = map Some (done ++ [v]) ++ rest.
Proof.
  unfold store, zlen.
  replace (Z.of_nat (length done) <? 0) with false by (symmetry; apply Z.ltb_ge; lia).
  rewrite Nat2Z.id, <- (length_map Some done), store_at_middle.
  rewrite map_app, <- app_assoc. reflexivity.
Qed.

(** The rounds of one task, started at round [k], fill the next [n] slots. *)
Lemma fill_run {A : Type} (g : nat -> A) (offset : Z) (m : nat) :
  forall (n k : nat) (done : list A),
    zlen done = offset + Z.of_nat k ->
    fold_left (fun b i => store b (offset + Z.of_nat i) (g i)) (seq k n)
              (map Some done ++ repeat None (n + m))
    = map Some (done ++ map g (seq k n)) ++ repeat None m.
Proof.
  induction n as [| n IH]; intros k done Hlen.
  - cbn. rewrite app_nil_r. reflexivity.
  - cbn [seq fold_left Nat.add repeat map].
    rewrite <- Hlen, store_next, IH.
    + rewrite <- app_assoc. reflexivity.
    + rewrite zlen_app, Hlen. unfold zlen. cbn. lia.
Qed.

Lemma total_rounds_cons (t : Z * Z * Z * Z) (tasks : list (Z * Z * Z * Z)) :
  total_rounds (t :: tasks) = (Z.to_nat (task_count t) + total_rounds tasks)%nat.
Proof. reflexivity. Qed.

Lemma length_expand {A : Type} (g : Z * Z * Z * Z -> nat -> A)
    (tasks : list (Z * Z * Z * Z)) :
  length (expand g tasks) = total_rounds tasks.
Proof.
  unfold expand. induction tasks as [| t tasks IH]; [reflexivity |].
  cbn [flat_map]. rewrite length_app, length_map, length_seq, IH. reflexivity.
Qed.

(** All tasks, in the order of the source, fill the buffer from the front:
    task after task, round after round. *)
Lemma run_tasks_fill {A : Type} (ow : width) (g : Z * Z * Z * Z -> nat -> A)
    (rest : nat) :
  forall (tasks : list (Z * Z * Z * Z)) (acc : Z) (done : list A),
    tasks_aligned ow acc tasks -> 0 <= acc -> zlen done = acc ->
    fold_left (run_task ow g) tasks
              (map Some done ++ repeat None (total_rounds tasks + rest))
    = map Some (done ++ expand g tasks) ++ repeat None rest.
Proof.
  induction tasks as [| t tasks IH]; intros acc done Hal Hacc Hlen.
  - cbn. rewrite app_nil_r. reflexivity.
  - destruct t as [[[idx c] f] s].
    cbn [tasks_aligned] in Hal. destruct Hal as (Hc & Hs & Hmax & Hal).
    cbn [fold_left]. rewrite total_rounds_cons.
    unfold run_task at 2. cbn [task_count fst snd].
    rewrite (cast_nonneg_small ow c) by lia.
    rewrite sub_w_small by lia.
    rewrite <- Nat.add_assoc.
    rewrite (fill_run (g (idx, c, f, s)) (s - c) (total_rounds tasks + rest)
               (Z.to_nat c) 0 done) by (cbn; lia).
    rewrite (IH s); [| exact Hal | lia |].
    + unfold expand at 2. cbn [flat_map task_count fst snd].
      rewrite <- app_assoc. reflexivity.
    + rewrite zlen_app. unfold zlen at 2.
      rewrite length_map, length_seq. lia.
Qed.

Lemma read_buffer_filled {A : Type} (l : list A) :
  read_buffer (map Some l) = Some l.
Proof. induction l as [| x l IH]; cbn; [| rewrite IH]; reflexivity. Qed.

(** Each buffer sees only the stores that target it. *)
Lemma fold_perform_buffer (o : output) (l : list write) :
  forall b,
    buffer_of o (fold_left perform l b)
    = fold_left (fun bx wr => store bx (address wr) (stored wr))
                (filter (fun wr => output_eqb (target wr) o) l)
                (buffer_of o b).
Proof.
  induction l as [| wr l IH]; intros b; [reflexivity |].
  cbn [fold_left filter]. rewrite IH.
  unfold perform. destruct (target wr), o; reflexivity.
Qed.

Lemma filter_flat_map {A B : Type} (f : B -> bool) (g : A -> list B)
    (l : list A) :
  filter f (flat_map g l) = flat_map (fun x => filter f (g x)) l.
Proof.
  induction l as [| x l IH]; [reflexivity |].
  cbn [flat_map]. rewrite filter_app, IH. reflexivity.
Qed.

Lemma filter_copy_column (o : output) (ow : width) (sdim : nat)
    (strides : index_strides) (data : Z -> Z) (out in_ : Z) :
  filter (fun wr => output_eqb (target wr) o)
         (copy_column ow sdim strides data out in_)
  = match o with
    | SelectedSourceSparseIndices => copy_column ow sdim strides data out in_
    | _ => []
    end.
Proof.
  unfold copy_column. induction (seq 0 sdim) as [| d l IH].
  - destruct o; reflexivity.
  - cbn [map filter target]. destruct o; cbn [output_eqb]; rewrite IH; reflexivity.
Qed.

(** The stores of one task into each of the buffers. *)
Lemma gather_task_source (w ow : width) (sdim : nat) (argsort : list Z)
    (strides : index_strides) (data : Z -> Z) (t : Z * Z * Z * Z) :
  filter (fun wr => output_eqb (target wr) SelectedSource)
         (gather_task w ow sdim argsort strides data t)
  = map (fun i => {| target := SelectedSource;
                     address := task_offset ow t + Z.of_nat i;
                     stored := g_source w t i |})
        (seq 0 (Z.to_nat (task_count t))).
Proof.
  destruct t as [[[idx c] f] s].
  unfold gather_task, task_offset, task_count, g_source. cbn [fst snd].
  rewrite filter_flat_map.
  induction (seq 0 (Z.to_nat c)) as [| i l IH]; [reflexivity |].
  cbn [flat_map map]. rewrite IH. unfold gather_write at 1.
  cbn [filter target output_eqb]. rewrite filter_copy_column. reflexivity.
Qed.

Lemma gather_task_probe (w ow : width) (sdim : nat) (argsort : list Z)
    (strides : index_strides) (data : Z -> Z) (t : Z * Z * Z * Z) :
  filter (fun wr => output_eqb (target wr) SelectedProbablyCoalesced)
         (gather_task w ow sdim argsort strides data t)
  = map (fun i => {| target := SelectedProbablyCoalesced;
                     address := task_offset ow t + Z.of_nat i;
                     stored := g_probe w argsort t i |})
        (seq 0 (Z.to_nat (task_count t))).
Proof.
  destruct t as [[[idx c] f] s].
  unfold gather_task, task_offset, task_count, g_probe. cbn [fst snd].
  rewrite filter_flat_map.
  induction (seq 0 (Z.to_nat c)) as [| i l IH]; [reflexivity |].
  cbn [flat_map map]. rewrite IH. unfold gather_write at 1.
  cbn [filter target output_eqb]. rewrite filter_copy_column. reflexivity.
Qed.

Lemma gather_task_index (w ow : width) (sdim : nat) (argsort : list Z)
    (strides : index_strides) (data : Z -> Z) (t : Z * Z * Z * Z) :
  filter (fun wr => output_eqb (target wr) SelectedSourceSparseIndices)
         (gather_task w ow sdim argsort strides data t)
  = flat_map
      (fun i =>
         copy_column ow sdim strides data
           (mul_w ow (task_offset ow t)
                  (selected_source_sparse_indices_nnz_stride strides)
            + Z.of_nat i * selected_source_sparse_indices_nnz_stride strides)
           (mul_w W64 (fst (fst (fst t)))
                  (source_sparse_indices_nnz_stride strides)))
      (seq 0 (Z.to_nat (task_count t))).
Proof.
  destruct t as [[[idx c] f] s].
  unfold gather_task, task_offset, task_count. cbn [fst snd].
  rewrite filter_flat_map.
  induction (seq 0 (Z.to_nat c)) as [| i l IH]; [reflexivity |].
  cbn [flat_map]. rewrite IH. unfold gather_write at 1.
  cbn [filter target output_eqb]. rewrite filter_copy_column. reflexivity.
Qed.

Lemma fold_left_map {A B C : Type} (f : A -> B -> A) (g : C -> B)
    (l : list C) :
  forall a, fold_left f (map g l) a = fold_left (fun a x => f a (g x)) l a.
Proof. induction l as [| x l IH]; intros a; cbn; [| rewrite IH]; reflexivity. Qed.

(** [selected_source] and [selected_probably_coalesced] after the tasks. *)
Lemma gather_tasks_source (w ow : width) (sdim : nat) (argsort : list Z)
    (strides : index_strides) (data : Z -> Z) (tasks : list (Z * Z * Z * Z)) :
  forall b,
    buf_selected_source
      (fold_left perform
         (flat_map (gather_task w ow sdim argsort strides data) tasks) b)
    = fold_left (run_task ow (g_source w)) tasks (buf_selected_source b).
Proof.
  intros b.
  change (buf_selected_source
            (fold_left perform
               (flat_map (gather_task w ow sdim argsort strides data) tasks) b))
    with (buffer_of SelectedSource
            (fold_left perform
               (flat_map (gather_task w ow sdim argsort strides data) tasks) b)).
  rewrite fold_perform_buffer, filter_flat_map. cbn [buffer_of].
  generalize (buf_selected_source b). clear b.
  induction tasks as [| t tasks IH]; intros buf; [reflexivity |].
  cbn [flat_map fold_left]. rewrite fold_left_app, IH. f_equal.
  rewrite gather_task_source, fold_left_map. cbn [address stored].
  destruct t as [[[idx c] f] s]. reflexivity.
Qed.

Lemma gather_tasks_probe (w ow : width) (sdim : nat) (argsort : list Z)
    (strides : index_strides) (data : Z -> Z) (tasks : list (Z * Z * Z * Z)) :
  forall b,
    buf_selected_probably_coalesced
      (fold_left perform
         (flat_map (gather_task w ow sdim argsort strides data) tasks) b)
    = fold_left (run_task ow (g_probe w argsort)) tasks
                (buf_selected_probably_coalesced b).
Proof.
  intros b.
  change (buf_selected_probably_coalesced
            (fold_left perform
               (flat_map (gather_task w ow sdim argsort strides data) tasks) b))
    with (buffer_of SelectedProbablyCoalesced
            (fold_left perform
               (flat_map (gather_task w ow sdim argsort strides data) tasks) b)).
  rewrite fold_perform_buffer, filter_flat_map. cbn [buffer_of].
  generalize (buf_selected_probably_coalesced b). clear b.
  induction tasks as [| t tasks IH]; intros buf; [reflexivity |].
  cbn [flat_map fold_left]. rewrite fold_left_app, IH. f_equal.
  rewrite gather_task_probe, fold_left_map. cbn [address stored].
  destruct t as [[[idx c] f] s]. reflexivity.
Qed.

(* ===================================================================== *)
(** ** The stages on well-formed operands *)
(* ===================================================================== *)

Lemma sdim_of_length (shape : list Z) (t : Tensor) :
  well_formed shape t -> sdim_of t = length (sparse_shape shape t).
Proof.
  intros [Hsd Hle _ _ _].
  unfold sdim_of, sparse_shape, slice_prefix.
  rewrite Z.mod_small by lia. rewrite length_firstn.
  unfold zlen in Hle. lia.
Qed.

Lemma nnz_indices (shape : list Z) (t : Tensor) :
  well_formed shape t -> _nnz t = zlen (_indices t).
Proof. intros [_ _ Hn _ _]. unfold _nnz, zlen. rewrite Hn. reflexivity. Qed.

Lemma column_in_bounds (shape : list Z) (t : Tensor) (k : Z) :
  well_formed shape t -> 0 <= k < zlen (_indices t) ->
  in_bounds (sparse_shape shape t) (column (_indices t) k).
Proof.
  intros [_ _ _ Hb _] Hk. rewrite Forall_forall in Hb.
  apply Hb. unfold column. apply nth_In. unfold zlen in Hk. lia.
Qed.

Lemma column_hash_exact (w : width) (shape : list Z) (pc : Tensor) (col : list Z) :
  well_formed shape pc -> numel (sparse_shape shape pc) <= max_of w ->
  in_bounds (sparse_shape shape pc) col ->
  compute_hash w (sdim_of pc) (hash_coeffs w pc shape) col
  = linear_offset (sparse_shape shape pc) col.
Proof.
  intros Hwf Hmax Hb. rewrite (sdim_of_length shape pc Hwf).
  unfold hash_coeffs. apply compute_hash_exact; assumption.
Qed.

Lemma pc_hash_exact (w ow : width) (shape : list Z) (pc source : Tensor) :
  fits w ow shape pc source ->
  probably_coalesced_indices_hash w pc source shape
  = map (linear_offset (sparse_shape shape pc)) (_indices pc).
Proof.
  intros F. destruct F as [Hpc Hsrc Hsd Hh Hnp Hns Ho].
  unfold probably_coalesced_indices_hash, nnz_arange.
  rewrite narrow_arange by lia.
  rewrite (nnz_indices shape pc Hpc).
  rewrite (map_column_arange
             (compute_hash w (sdim_of pc) (hash_coeffs w pc shape))).
  apply map_ext_in. intros col Hin.
  apply column_hash_exact; try assumption.
  destruct Hpc as [_ _ _ Hb _]. rewrite Forall_forall in Hb. apply Hb, Hin.
Qed.

(** Columns in strictly increasing lexicographic order have increasing
    linear offsets. *)
Lemma coalesced_hash_sorted (shape : list Z) (cols : list (list Z)) :
  Forall (in_bounds shape) cols -> StronglySorted lex_lt cols ->
  Sorted Z.le (map (linear_offset shape) cols).
Proof.
  intros Hb Hs. induction Hs as [| c cols Hs IH Hc]; cbn; constructor.
  - apply IH. inversion Hb; assumption.
  - destruct cols as [| c' cols]; cbn; constructor.
    inversion Hc as [| ? ? Hlt _]; subst.
    inversion Hb as [| ? ? Hbc Hb']; subst. inversion Hb' as [| ? ? Hbc' _]; subst.
    unfold lex_lt in Hlt. rewrite (lex_compare_linear shape c c' Hbc Hbc') in Hlt.
    rewrite Z.compare_lt_iff in Hlt. lia.
Qed.

Lemma sort_stage_fits (w ow : width) (shape : list Z) (pc source : Tensor) :
  fits w ow shape pc source ->
  sort_stage_ok (map (linear_offset (sparse_shape shape pc)) (_indices pc))
                (fst (sorted_and_argsort w pc source shape))
                (snd (sorted_and_argsort w pc source shape)).
Proof.
  intros F. unfold sorted_and_argsort. rewrite (pc_hash_exact w ow shape pc source F).
  destruct F as [Hpc Hsrc Hsd Hh Hnp Hns Ho].
  destruct (is_coalesced pc) eqn:Hco; cbn [fst snd].
  - unfold nnz_arange. rewrite narrow_arange by lia.
    rewrite (nnz_indices shape pc Hpc).
    replace (zlen (_indices pc))
      with (zlen (map (linear_offset (sparse_shape shape pc)) (_indices pc)))
      by (unfold zlen; rewrite length_map; reflexivity).
    apply identity_sort_ok.
    destruct Hpc as [_ _ _ Hb Hsorted].
    apply coalesced_hash_sorted; [exact Hb | apply Hsorted, Hco].
  - apply sort_ok.
Qed.

Lemma sparse_shape_same (shape : list Z) (pc source : Tensor) :
  sparse_dim source = sparse_dim pc ->
  sparse_shape shape source = sparse_shape shape pc.
Proof. unfold sparse_shape. intros ->. reflexivity. Qed.

Lemma sorted_hash_length (w ow : width) (shape : list Z) (pc source : Tensor) :
  fits w ow shape pc source ->
  zlen (fst (sorted_and_argsort w pc source shape)) = _nnz pc.
Proof.
  intros F. destruct (sort_stage_fits w ow shape pc source F) as (_ & Hl & _).
  destruct F as [Hpc _ _ _ _ _ _].
  rewrite (nnz_indices shape pc Hpc). unfold zlen. rewrite Hl, length_map. reflexivity.
Qed.

(** The records of the join, in terms of linear offsets. *)
Lemma intersection_exact (w ow : width) (shape : list Z) (pc source : Tensor) :
  fits w ow shape pc source ->
  let sorted := fst (sorted_and_argsort w pc source shape) in
  let h := fun k => linear_offset (sparse_shape shape pc) (column (_indices source) k) in
  intersection w pc source shape
  = (map (fun k => find_bound false sorted 0 (zlen sorted) (h k)
                   - find_bound true sorted 0 (zlen sorted) (h k))
         (arange (zlen (_indices source))),
     map (fun k => find_bound true sorted 0 (zlen sorted) (h k))
         (arange (zlen (_indices source)))).
Proof.
  intros F. cbv zeta.
  pose proof (sort_stage_fits w ow shape pc source F) as (Hsorted & _).
  pose proof (sorted_hash_length w ow shape pc source F) as Hlen.
  destruct F as [Hpc Hsrc Hsd Hh Hnp Hns Ho].
  unfold intersection. unfold nnz_arange. rewrite narrow_arange by lia.
  rewrite (nnz_indices shape source Hsrc). rewrite !map_map.
  f_equal; apply map_ext_in; intros k Hk; apply In_arange in Hk;
    rewrite intersect_one_spec by (try exact Hsorted; lia);
    cbn [fst snd];
    rewrite column_hash_exact; try assumption; try reflexivity;
    rewrite <- (sparse_shape_same shape pc source Hsd);
    apply column_in_bounds; assumption.
Qed.

(* ===================================================================== *)
(** ** The gather stage yields the matched pairs *)
(* ===================================================================== *)

Lemma map_flat_map {A B C : Type} (f : B -> C) (g : A -> list B) (l : list A) :
  map f (flat_map g l) = flat_map (fun x => map f (g x)) l.
Proof.
  induction l as [| x l IH]; [reflexivity |].
  cbn [flat_map]. rewrite map_app, IH. reflexivity.
Qed.

Lemma flat_map_ext_in {A B : Type} (f g : A -> list B) (l : list A) :
  (forall x, In x l -> f x = g x) -> flat_map f l = flat_map g l.
Proof.
  induction l as [| x l IH]; intros H; [reflexivity |].
  cbn [flat_map]. rewrite (H x), IH; [reflexivity | | left; reflexivity].
  intros y Hy. apply H. right. exact Hy.
Qed.

(** A column is the list of its entries. *)
Lemma column_entries_from (pre col : list Z) :
  map (fun d => nth d (pre ++ col) 0) (seq (length pre) (length col)) = col.
Proof.
  revert pre. induction col as [| c col IH]; intros pre; [reflexivity |].
  cbn [length seq map]. rewrite nth_middle_length. f_equal.
  replace (pre ++ c :: col) with ((pre ++ [c]) ++ col)
    by (rewrite <- app_assoc; reflexivity).
  replace (S (length pre)) with (length (pre ++ [c]))
    by (rewrite length_app; cbn; lia).
  apply IH.
Qed.

Lemma column_entries (sdim : nat) (col : list Z) :
  length col = sdim -> map (fun d => nth d col 0) (seq 0 sdim) = col.
Proof. intros <-. exact (column_entries_from [] col). Qed.

(** The tasks, when counts and first indices are functions of the source
    position. *)
Lemma expand_tasks {A : Type} (g : Z * Z * Z * Z -> nat -> A)
    (g' : Z -> Z -> nat -> A) (fC fF : Z -> Z) :
  (forall idx c f s i, g (idx, c, f, s) i = g' idx f i) ->
  forall (ks shifted : list Z),
    length shifted = length ks ->
    expand g (gather_tasks ks (map fC ks) (map fF ks) shifted)
    = flat_map (fun k => map (g' k (fF k)) (seq 0 (Z.to_nat (fC k)))) ks.
Proof.
  intros Hg. unfold expand, gather_tasks.
  induction ks as [| k ks IH]; intros [| s shifted] Hlen; cbn in Hlen;
    try discriminate; [reflexivity |].
  cbn [map combine flat_map task_count fst snd]. f_equal.
  - apply map_ext. intros i. apply Hg.
  - apply IH. lia.
Qed.

Lemma tasks_aligned_gather (ow : width) :
  forall (counts ks firsts : list Z) (acc : Z),
    length ks = length counts -> length firsts = length counts ->
    Forall (fun c => 0 <= c) counts ->
    0 <= acc -> acc + zsum counts <= max_of ow ->
    tasks_aligned ow acc (gather_tasks ks counts firsts (prefix_sums acc counts)).
Proof.
  unfold gather_tasks.
  induction counts as [| c counts IH]; intros [| k ks] [| f firsts] acc Hk Hf Hc Hacc Hmax;
    cbn in Hk, Hf; try discriminate; cbn; [exact I |].
  inversion Hc as [| ? ? Hc0 Hc']; subst.
  rewrite zsum_cons in Hmax. pose proof (zsum_nonneg counts Hc').
  repeat split; try lia.
  apply IH; try lia. exact Hc'.
Qed.

Lemma total_rounds_gather :
  forall (counts ks firsts shifted : list Z),
    length ks = length counts -> length firsts = length counts ->
    length shifted = length counts ->
    Forall (fun c => 0 <= c) counts ->
    total_rounds (gather_tasks ks counts firsts shifted) = Z.to_nat (zsum counts).
Proof.
  unfold gather_tasks.
  induction counts as [| c counts IH];
    intros [| k ks] [| f firsts] [| s shifted] Hk Hf Hs Hc;
    cbn in Hk, Hf, Hs; try discriminate; [reflexivity |].
  inversion Hc as [| ? ? Hc0 Hc']; subst.
  cbn [combine]. rewrite total_rounds_cons, zsum_cons.
  cbn [task_count fst snd]. rewrite IH; try lia; [| exact Hc'].
  pose proof (zsum_nonneg counts Hc'). lia.
Qed.

Lemma zsum_le_bound (b : Z) (l : list Z) :
  Forall (fun c => c <= b) l -> zsum l <= zlen l * b.
Proof.
  induction 1 as [| c l Hc _ IH]; [cbn; lia |].
  rewrite zsum_cons, zlen_cons. lia.
Qed.

(** One buffer of the gather stage, filled by its tasks. *)
Lemma gather_buffer_filled {A : Type} (ow : width)
    (g : Z * Z * Z * Z -> nat -> A) (counts ks firsts : list Z) :
  length ks = length counts -> length firsts = length counts ->
  Forall (fun c => 0 <= c) counts -> zsum counts <= max_of ow ->
  fold_left (run_task ow g)
            (gather_tasks ks counts firsts (prefix_sums 0 counts))
            (empty_buffer A (zsum counts))
  = map Some (expand g (gather_tasks ks counts firsts (prefix_sums 0 counts))).
Proof.
  intros Hk Hf Hc Hmax.
  pose proof (run_tasks_fill ow g 0
                (gather_tasks ks counts firsts (prefix_sums 0 counts)) 0 []) as H.
  rewrite total_rounds_gather in H;
    try assumption; [| apply length_prefix_sums].
  cbn [map app] in H. rewrite Nat.add_0_r, app_nil_r in H.
  apply H; [| lia | reflexivity].
  apply tasks_aligned_gather; try assumption; lia.
Qed.

Lemma match_span_fits (w ow : width) (shape : list Z) (pc source : Tensor)
    (h : Z) :
  fits w ow shape pc source ->
  let sorted := fst (sorted_and_argsort w pc source shape) in
  let lb := find_bound true sorted 0 (zlen sorted) h in
  let ub := find_bound false sorted 0 (zlen sorted) h in
  0 <= lb /\ lb <= ub /\ ub <= _nnz pc
  /\ (forall i, 0 <= i < _nnz pc -> (deref sorted i = h <-> lb <= i < ub)).
Proof.
  intros F. cbv zeta.
  pose proof (sort_stage_fits w ow shape pc source F) as (Hsorted & _).
  rewrite <- (sorted_hash_length w ow shape pc source F).
  apply find_bound_span, Hsorted.
Qed.

(** The inputs of the gather kernel in terms of linear offsets: one task per
    source nonzero, with nonnegative counts whose prefix sums do not leave
    [offset_t]. *)
Lemma gather_inputs_exact (w ow : width) (shape : list Z) (pc source : Tensor) :
  fits w ow shape pc source ->
  let sorted := fst (sorted_and_argsort w pc source shape) in
  let h := fun k =>
    linear_offset (sparse_shape shape pc) (column (_indices source) k) in
  let fC := fun k => find_bound false sorted 0 (zlen sorted) (h k)
                     - find_bound true sorted 0 (zlen sorted) (h k) in
  let fF := fun k => find_bound true sorted 0 (zlen sorted) (h k) in
  let ks := arange (zlen (_indices source)) in
  gather_inputs w ow pc source shape
  = gather_tasks ks (map fC ks) (map fF ks) (prefix_sums 0 (map fC ks))
  /\ intersection_nnz w ow pc source shape = zsum (map fC ks)
  /\ Forall (fun c => 0 <= c) (map fC ks)
  /\ zsum (map fC ks) <= max_of ow.
Proof.
  intros F. cbv zeta.
  pose proof (fun h => match_span_fits w ow shape pc source h F) as Hspan.
  cbv zeta in Hspan.
  pose proof (intersection_exact w ow shape pc source F) as Hint. cbv zeta in Hint.
  pose proof F as [Hpc Hsrc Hsd Hh Hnp Hns Ho].
  pose proof (nnz_indices shape source Hsrc) as Hnsrc.
  set (sorted := fst (sorted_and_argsort w pc source shape)) in *.
  set (h := fun k => linear_offset (sparse_shape shape pc)
                       (column (_indices source) k)) in *.
  set (fC := fun k => find_bound false sorted 0 (zlen sorted) (h k)
                      - find_bound true sorted 0 (zlen sorted) (h k)) in *.
  set (fF := fun k => find_bound true sorted 0 (zlen sorted) (h k)) in *.
  set (ks := arange (zlen (_indices source))) in *.
  assert (Hcounts : Forall (fun c => 0 <= c) (map fC ks)).
  { apply Forall_forall. intros c Hc. apply in_map_iff in Hc.
    destruct Hc as (k & <- & _). unfold fC.
    destruct (Hspan (h k)) as (H0 & Hle & _). lia. }
  assert (Hbound : Forall (fun c => c <= _nnz pc) (map fC ks)).
  { apply Forall_forall. intros c Hc. apply in_map_iff in Hc.
    destruct Hc as (k & <- & _). unfold fC.
    destruct (Hspan (h k)) as (H0 & Hle & Hub & _). lia. }
  assert (Hlenks : zlen (map fC ks) = _nnz source).
  { unfold zlen. rewrite length_map. unfold ks. rewrite length_arange, Hnsrc.
    unfold zlen. lia. }
  assert (Htotal : zsum (map fC ks) <= max_of ow).
  { pose proof (zsum_le_bound _ _ Hbound) as Hz. rewrite Hlenks in Hz. lia. }
  assert (Hshift : shifted_offset_of ow (map fC ks) = prefix_sums 0 (map fC ks)).
  { unfold shifted_offset_of, cumsum.
    apply cumsum_from_exact; [exact Hcounts | lia | lia]. }
  unfold gather_inputs, intersection_nnz. rewrite Hint. cbn [fst].
  rewrite Hshift, intersection_nnz_total.
  unfold nnz_arange. rewrite narrow_arange by lia.
  rewrite Hnsrc. fold ks. auto.
Qed.

(** [selected_source] and [selected_probably_coalesced] are the matched
    pairs: their source positions and their probe positions. *)
Lemma gather_selected (w ow : width) (shape : list Z) (pc source : Tensor) :
  fits w ow shape pc source ->
  let pairs :=
    matched_pairs (sparse_shape shape pc)
                  (fst (sorted_and_argsort w pc source shape))
                  (snd (sorted_and_argsort w pc source shape))
                  (_indices source) in
  selected w ow pc source shape
  = Some (map fst pairs, gathered_indices w ow pc source shape, map snd pairs).
Proof.
  intros F. cbv zeta.
  pose proof (sort_stage_fits w ow shape pc source F)
    as (Hsorted & Hls & Hla & Hperm & Harg & Hsurj).
  pose proof (fun h => match_span_fits w ow shape pc source h F) as Hspan.
  cbv zeta in Hspan.
  pose proof (gather_inputs_exact w ow shape pc source F)
    as (Hin & Hnnz & Hcounts & Htotal).
  cbv zeta in Hin, Hnnz, Hcounts, Htotal.
  pose proof F as [Hpc Hsrc Hsd Hh Hnp Hns Ho].
  pose proof (nnz_indices shape source Hsrc) as Hnsrc.
  pose proof (nnz_indices shape pc Hpc) as Hnpc.
  unfold zlen in Harg, Hsurj. rewrite length_map in Harg, Hsurj.
  fold (zlen (_indices pc)) in Harg, Hsurj. rewrite <- Hnpc in Harg, Hsurj.
  set (sorted := fst (sorted_and_argsort w pc source shape)) in *.
  set (argsort := snd (sorted_and_argsort w pc source shape)) in *.
  set (S := sparse_shape shape pc) in *.
  set (h := fun k => linear_offset S (column (_indices source) k)) in *.
  set (fC := fun k => find_bound false sorted 0 (zlen sorted) (h k)
                      - find_bound true sorted 0 (zlen sorted) (h k)) in *.
  set (fF := fun k => find_bound true sorted 0 (zlen sorted) (h k)) in *.
  set (ks := arange (zlen (_indices source))) in *.
  unfold selected, gather, gather_writes. rewrite Hin, Hnnz. fold argsort.
  rewrite gather_tasks_source, gather_tasks_probe.
  cbn [buf_selected_source buf_selected_probably_coalesced].
  rewrite !gather_buffer_filled; try assumption;
    try (rewrite !length_map; reflexivity).
  rewrite !read_buffer_filled.
  rewrite (expand_tasks (g_source w) (fun idx _ _ => cast w idx) fC fF)
    by (try reflexivity; rewrite length_prefix_sums, length_map; reflexivity).
  rewrite (expand_tasks (g_probe w argsort)
             (fun _ f i => cast w (deref argsort (f + Z.of_nat i))) fC fF)
    by (try reflexivity; rewrite length_prefix_sums, length_map; reflexivity).
  unfold matched_pairs. fold ks. rewrite !map_flat_map.
  apply f_equal. apply f_equal2; [apply f_equal2; [| reflexivity] |].
  - apply flat_map_ext_in. intros k Hk. apply In_arange in Hk.
    unfold matches_of. fold (h k). rewrite map_map. cbn [fst].
    apply map_ext. intros i. apply cast_nonneg_small. lia.
  - apply flat_map_ext_in. intros k Hk. apply In_arange in Hk.
    unfold matches_of. fold (h k). rewrite map_map. cbn [snd].
    apply map_ext_in. intros i Hi. apply in_seq in Hi.
    destruct (Hspan (h k)) as (H0 & Hle & Hub & _).
    fold (fF k) in H0, Hle |- *. fold (fC k) in Hi.
    apply cast_nonneg_small.
    unfold fC in Hi. unfold fF in *.
    destruct (Harg (find_bound true sorted 0 (zlen sorted) (h k) + Z.of_nat i))
      as (Hr & _); lia.
Qed.

(* ===================================================================== *)
(** ** Gather: the copy of the index columns *)
(* ===================================================================== *)

Lemma length_flat_map_zsum {A B : Type} (f : A -> list B) (l : list A) :
  Z.of_nat (length (flat_map f l)) = zsum (map (fun x => Z.of_nat (length (f x))) l).
Proof.
  induction l as [| x l IH]; [reflexivity |].
  cbn [flat_map map]. rewrite length_app, zsum_cons. lia.
Qed.

(** The number of output rows is [intersection_nnz], the last element of
    the inclusive prefix sum of the match counts. *)
Lemma kernel_pairs_length (w ow : width) (shape : list Z) (pc source : Tensor) :
  fits w ow shape pc source ->
  zlen (kernel_pairs w shape pc source)
  = intersection_nnz_of
      (shifted_offset_of ow (fst (intersection w pc source shape))).
Proof.
  intros F.
  pose proof (fun h => match_span_fits w ow shape pc source h F) as Hspan.
  cbv zeta in Hspan.
  pose proof (intersection_exact w ow shape pc source F) as Hint. cbv zeta in Hint.
  pose proof F as [Hpc Hsrc Hsd Hh Hnp Hns Ho].
  pose proof (nnz_indices shape source Hsrc) as Hnsrc.
  set (sorted := fst (sorted_and_argsort w pc source shape)) in *.
  set (h := fun k => linear_offset (sparse_shape shape pc) (column (_indices source) k)) in *.
  set (fC := fun k => find_bound false sorted 0 (zlen sorted) (h k)
                      - find_bound true sorted 0 (zlen sorted) (h k)) in *.
  set (ks := arange (zlen (_indices source))) in *.
  assert (Hcounts : Forall (fun c => 0 <= c) (map fC ks)).
  { apply Forall_forall. intros c Hc. apply in_map_iff in Hc.
    destruct Hc as (k & <- & _). unfold fC.
    destruct (Hspan (h k)) as (H0 & Hle & _). lia. }
  assert (Hbound : Forall (fun c => c <= _nnz pc) (map fC ks)).
  { apply Forall_forall. intros c Hc. apply in_map_iff in Hc.
    destruct Hc as (k & <- & _). unfold fC.
    destruct (Hspan (h k)) as (H0 & Hle & Hub & _). lia. }
  assert (Hlenks : zlen (map fC ks) = _nnz source).
  { unfold zlen. rewrite length_map. unfold ks. rewrite length_arange, Hnsrc.
    unfold zlen. lia. }
  assert (Htotal : zsum (map fC ks) <= max_of ow).
  { pose proof (zsum_le_bound _ _ Hbound) as Hz. rewrite Hlenks in Hz. lia. }
  rewrite Hint. cbn [fst].
  unfold shifted_offset_of, cumsum.
  rewrite (cumsum_from_exact ow (map fC ks) Hcounts 0) by lia.
  rewrite intersection_nnz_total.
  unfold kernel_pairs, matched_pairs, zlen. fold ks.
  rewrite length_flat_map_zsum. f_equal.
  apply map_ext_in. intros k Hk.
  unfold matches_of. rewrite length_map, length_seq. fold (h k). fold sorted.
  rewrite Forall_forall in Hcounts.
  specialize (Hcounts (fC k) (in_map fC ks k Hk)). unfold fC in *. lia.
Qed.

Lemma dim_subscript_exact (ow : width) (d : nat) (stride : Z) :
  0 <= Z.of_nat d * stride <= max_subscript ow ->
  dim_subscript ow d stride = Z.of_nat d * stride.
Proof.
  unfold dim_subscript, max_subscript. destruct ow; intros H.
  - apply Z.mod_small. change (2 ^ 32) with 4294967296 in *. lia.
  - apply mul_w_small. exact H.
Qed.

Lemma length_store_at {A : Type} (buf : list (option A)) (n : nat) (v : A) :
  length (store_at buf n v) = length buf.
Proof.
  revert n. induction buf as [| x buf IH]; intros [| n]; cbn; try reflexivity.
  rewrite IH. reflexivity.
Qed.

Lemma length_store {A : Type} (buf : list (option A)) (pos : Z) (v : A) :
  length (store buf pos v) = length buf.
Proof. unfold store. destruct (pos <? 0); [reflexivity | apply length_store_at]. Qed.

Lemma nth_error_store_at_same {A : Type} (buf : list (option A)) (n : nat)
    (v : A) :
  (n < length buf)%nat -> nth_error (store_at buf n v) n = Some (Some v).
Proof.
  revert n. induction buf as [| x buf IH]; intros [| n] H; cbn in *;
    try lia; [reflexivity |].
  apply IH. lia.
Qed.

Lemma nth_error_store_at_other {A : Type} (buf : list (option A)) (n m : nat)
    (v : A) :
  n <> m -> nth_error (store_at buf n v) m = nth_error buf m.
Proof.
  revert n m. induction buf as [| x buf IH]; intros [| n] [| m] H; cbn;
    try reflexivity; try congruence.
  apply IH. congruence.
Qed.

Lemma nth_error_store_same {A : Type} (buf : list (option A)) (pos : Z) (v : A) :
  0 <= pos < zlen buf ->
  nth_error (store buf pos v) (Z.to_nat pos) = Some (Some v).
Proof.
  intros H. unfold store, zlen in *.
  replace (pos <? 0) with false by (symmetry; apply Z.ltb_ge; lia).
  apply nth_error_store_at_same. lia.
Qed.

Lemma nth_error_store_other {A : Type} (buf : list (option A)) (pos : Z)
    (m : nat) (v : A) :
  pos <> Z.of_nat m -> nth_error (store buf pos v) m = nth_error buf m.
Proof.
  intros H. unfold store. destruct (pos <? 0) eqn:E; [reflexivity |].
  apply Z.ltb_ge in E. apply nth_error_store_at_other. lia.
Qed.

(** A slot no store addresses keeps what it held. *)
Lemma fold_store_other (l : list write) (m : nat) :
  ~ In (Z.of_nat m) (map address l) ->
  forall buf,
    nth_error (fold_left (fun bx wr => store bx (address wr) (stored wr)) l buf) m
    = nth_error buf m.
Proof.
  induction l as [| e l IH]; intros Hnot buf; [reflexivity |].
  cbn [fold_left]. rewrite IH.
  - apply nth_error_store_other. intros He. apply Hnot. left. exact He.
  - intros Hin. apply Hnot. right. exact Hin.
Qed.

Lemma fold_store_length (l : list write) :
  forall buf,
    length (fold_left (fun bx wr => store bx (address wr) (stored wr)) l buf)
    = length buf.
Proof.
  induction l as [| e l IH]; intros buf; [reflexivity |].
  cbn [fold_left]. rewrite IH. apply length_store.
Qed.

(** When no two stores address the same slot, every slot that is addressed
    holds what its store wrote. *)
Lemma fold_store_written (l : list write) :
  NoDup (map address l) ->
  forall buf wr,
    In wr l -> 0 <= address wr < zlen buf ->
    nth_error (fold_left (fun bx wr => store bx (address wr) (stored wr)) l buf)
              (Z.to_nat (address wr))
    = Some (Some (stored wr)).
Proof.
  induction l as [| e l IH]; intros Hnd buf wr Hin Hr; [contradiction |].
  cbn [map] in Hnd. inversion Hnd as [| ? ? Hnotin Hnd']; subst.
  cbn [fold_left]. destruct Hin as [-> | Hin].
  - rewrite fold_store_other.
    + apply nth_error_store_same. exact Hr.
    + rewrite Z2Nat.id by lia. exact Hnotin.
  - apply IH; try assumption. unfold zlen. rewrite length_store. exact Hr.
Qed.

Lemma map_seq_from {B : Type} (n : nat) :
  forall (f : nat -> B) (a : nat),
    map f (seq a n) = map (fun j => f (a + j)%nat) (seq 0 n).
Proof.
  induction n as [| n IH]; intros f a; [reflexivity |].
  cbn [seq map]. rewrite Nat.add_0_r. f_equal.
  rewrite (IH f (S a)), (IH (fun j => f (a + j)%nat) 1%nat).
  apply map_ext. intros j. f_equal. lia.
Qed.

Lemma nth_map_seq {B : Type} (f : nat -> B) (n i : nat) (d : B) :
  (i < n)%nat -> nth i (map f (seq 0 n)) d = f i.
Proof.
  intros H. rewrite (nth_indep _ d (f 0%nat)) by (rewrite length_map, length_seq; lia).
  rewrite map_nth, seq_nth by lia. reflexivity.
Qed.

Lemma flat_map_map_comp {A B C : Type} (f : B -> list C) (g : A -> B)
    (l : list A) :
  flat_map f (map g l) = flat_map (fun x => f (g x)) l.
Proof. induction l as [| x l IH]; cbn; [| rewrite IH]; reflexivity. Qed.

Lemma flat_map_expand {A B : Type} (f : A -> list B)
    (g : Z * Z * Z * Z -> nat -> A) (tasks : list (Z * Z * Z * Z)) :
  flat_map f (expand g tasks)
  = flat_map (fun t => flat_map (fun i => f (g t i))
                                (seq 0 (Z.to_nat (task_count t)))) tasks.
Proof.
  unfold expand. induction tasks as [| t tasks IH]; [reflexivity |].
  cbn [flat_map]. rewrite flat_map_app, IH, flat_map_map_comp. reflexivity.
Qed.

(** A task of an aligned list starts at or after the list's first slot and
    ends inside [offset_t]. *)
Lemma tasks_aligned_In (ow : width) (t : Z * Z * Z * Z) :
  forall (tasks : list (Z * Z * Z * Z)) (acc : Z),
    tasks_aligned ow acc tasks -> 0 <= acc -> In t tasks ->
    0 <= task_count t /\ acc <= task_offset ow t
    /\ task_offset ow t + task_count t <= max_of ow.
Proof.
  induction tasks as [| t' tasks IH]; intros acc Hal Hacc Hin; [contradiction |].
  destruct t' as [[[idx c] f] s].
  cbn [tasks_aligned] in Hal. destruct Hal as (Hc & Hs & Hmax & Hal).
  destruct Hin as [<- | Hin].
  - unfold task_offset, task_count. cbn [fst snd].
    rewrite (cast_nonneg_small ow c) by lia. rewrite sub_w_small by lia. lia.
  - destruct (IH s Hal ltac:(lia) Hin) as (H1 & H2 & H3). lia.
Qed.

(** The rounds of aligned tasks, in program order, address consecutive
    slots: round [i] of a task stores at its offset plus [i]. *)
Lemma expand_indexed {A : Type} (ow : width) (g : Z * Z * Z * Z -> nat -> A)
    (dflt : A) :
  forall (tasks : list (Z * Z * Z * Z)) (acc : Z),
    tasks_aligned ow acc tasks -> 0 <= acc ->
    expand (fun t i => (task_offset ow t + Z.of_nat i, g t i)) tasks
    = map (fun j => (acc + Z.of_nat j, nth j (expand g tasks) dflt))
          (seq 0 (total_rounds tasks)).
Proof.
  induction tasks as [| t tasks IH]; intros acc Hal Hacc; [reflexivity |].
  destruct t as [[[idx c] f] s].
  cbn [tasks_aligned] in Hal. destruct Hal as (Hc & Hs & Hmax & Hal).
  rewrite total_rounds_cons. cbn [task_count fst snd].
  unfold expand at 1 2. cbn [flat_map task_count fst snd].
  fold (expand (fun t i => (task_offset ow t + Z.of_nat i, g t i)) tasks).
  fold (expand g tasks).
  rewrite seq_app, map_app. f_equal.
  - unfold task_offset. rewrite (cast_nonneg_small ow c) by lia.
    rewrite sub_w_small by lia.
    apply map_ext_in. intros i Hi. apply in_seq in Hi.
    f_equal; [lia |].
    rewrite app_nth1 by (rewrite length_map, length_seq; lia).
    rewrite nth_map_seq by lia. reflexivity.
  - rewrite (IH s Hal) by lia. cbn [Nat.add].
    rewrite (map_seq_from _ _ (Z.to_nat c)).
    apply map_ext. intros j. f_equal; [lia |].
    rewrite app_nth2 by (rewrite length_map, length_seq; lia).
    rewrite length_map, length_seq. f_equal. lia.
Qed.

(** The stores of aligned tasks into [selected_source_sparse_indices] when
    the address arithmetic is exact: the entries of the column [col idx] of
    each task, one column per round, at the slots [d * N + p] of the column
    [p] of the output. *)
Lemma gather_tasks_index (w ow : width) (sdim : nat) (argsort : list Z)
    (strides : index_strides) (data : Z -> Z) (N : Z) (col : Z -> list Z) :
  selected_source_sparse_indices_nnz_stride strides = 1 ->
  selected_source_sparse_indices_dim_stride strides = N ->
  (forall d, (d < sdim)%nat -> dim_subscript ow d N = Z.of_nat d * N) ->
  forall (tasks : list (Z * Z * Z * Z)) (acc : Z),
    tasks_aligned ow acc tasks -> 0 <= acc ->
    (forall t d, In t tasks -> (d < sdim)%nat ->
       data (mul_w W64 (fst (fst (fst t))) (source_sparse_indices_nnz_stride strides)
             + dim_subscript ow d (source_sparse_indices_dim_stride strides))
       = nth d (col (fst (fst (fst t)))) 0) ->
    filter (fun wr => output_eqb (target wr) SelectedSourceSparseIndices)
           (flat_map (gather_task w ow sdim argsort strides data) tasks)
    = flat_map
        (fun pk =>
           map (fun d => {| target := SelectedSourceSparseIndices;
                            address := Z.of_nat d * N + fst pk;
                            stored := nth d (col (snd pk)) 0 |})
               (seq 0 sdim))
        (map (fun j =>
                (acc + Z.of_nat j,
                 nth j (expand (fun t _ => fst (fst (fst t))) tasks) 0))
             (seq 0 (total_rounds tasks))).
Proof.
  intros Hnnz Hdim Hsub tasks acc Hal Hacc Hdata.
  rewrite <- (expand_indexed ow (fun t _ => fst (fst (fst t))) 0 tasks acc Hal Hacc).
  rewrite flat_map_expand, filter_flat_map.
  apply flat_map_ext_in. intros t Ht.
  destruct (tasks_aligned_In ow t tasks acc Hal Hacc Ht) as (Hc & Hlo & Hhi).
  rewrite gather_task_index. apply flat_map_ext_in. intros i Hi.
  unfold copy_column. apply map_ext_in. intros d Hd. apply in_seq in Hd.
  cbn [fst snd]. rewrite Hnnz, Hdim, (Hsub d) by lia.
  rewrite (Hdata t d Ht) by lia.
  rewrite mul_w_small by lia. f_equal. lia.
Qed.

Lemma Permutation_flat_map_cons {A B : Type} (f : A -> B) (g : A -> list B)
    (l : list A) :
  Permutation (flat_map (fun x => f x :: g x) l) (map f l ++ flat_map g l).
Proof.
  induction l as [| a l IH]; cbn [flat_map map app]; [constructor |].
  apply perm_skip.
  transitivity (g a ++ map f l ++ flat_map g l).
  - apply Permutation_app_head, IH.
  - apply Permutation_app_swap_app.
Qed.

(** Visiting a table column by column or row by row visits the same
    entries. *)
Lemma Permutation_flat_map_swap {A B C : Type} (F : A -> B -> C)
    (la : list A) (lb : list B) :
  Permutation (flat_map (fun a => map (F a) lb) la)
              (flat_map (fun b => map (fun a => F a b) la) lb).
Proof.
  induction la as [| a la IH]; cbn [flat_map map].
  - induction lb as [| b lb IHb]; cbn; [constructor | exact IHb].
  - eapply Permutation_trans;
      [| apply Permutation_sym,
           (Permutation_flat_map_cons (F a) (fun b => map (fun a => F a b) la))].
    apply Permutation_app_head, IH.
Qed.

Lemma arange_app (a b : Z) :
  0 <= a -> 0 <= b -> arange (a + b) = arange a ++ map (fun p => a + p) (arange b).
Proof.
  intros Ha Hb. unfold arange. rewrite Z2Nat.inj_add by lia.
  rewrite seq_app, map_app. f_equal. cbn [Nat.add].
  rewrite map_seq_from, map_map. apply map_ext. intros j. lia.
Qed.

(** The rows [[d * N, d * N + N)] of a contiguous table of [n] rows are the
    offsets [0 .. n * N - 1]. *)
Lemma arange_rows (N : Z) (n : nat) :
  0 <= N ->
  flat_map (fun d => map (fun p => Z.of_nat d * N + p) (arange N)) (seq 0 n)
  = arange (Z.of_nat n * N).
Proof.
  intros HN. induction n as [| n IH]; [reflexivity |].
  rewrite seq_S, flat_map_app, IH. cbn [Nat.add flat_map]. rewrite app_nil_r.
  replace (Z.of_nat (S n) * N) with (Z.of_nat n * N + N) by lia.
  rewrite arange_app by nia. reflexivity.
Qed.

(** Column by column, the slots [d * N + p] are every offset of the table
    once. *)
Lemma index_addresses_perm (N : Z) (n : nat) :
  0 <= N ->
  Permutation
    (flat_map (fun p => map (fun d => Z.of_nat d * N + p) (seq 0 n)) (arange N))
    (arange (Z.of_nat n * N)).
Proof.
  intros HN. rewrite <- (arange_rows N n HN).
  apply (Permutation_flat_map_swap (fun p d => Z.of_nat d * N + p)).
Qed.

Lemma NoDup_arange (n : Z) : NoDup (arange n).
Proof.
  unfold arange. generalize 0%nat. induction (Z.to_nat n) as [| m IH]; intros a;
    cbn; constructor; [| apply IH].
  intros Hin. apply in_map_iff in Hin. destruct Hin as (i & Hi & Hs).
  apply in_seq in Hs. lia.
Qed.

Lemma map_deref_arange {B : Type} (f : Z -> B) (l : list Z) :
  map (fun p => f (deref l p)) (arange (zlen l)) = map f l.
Proof.
  unfold arange, zlen, deref. rewrite Nat2Z.id, map_map.
  induction l as [| c l IH] using rev_ind; [reflexivity |].
  rewrite length_app. cbn [length]. rewrite Nat.add_1_r, seq_S, !map_app.
  cbn [map]. f_equal.
  - rewrite <- IH. apply map_ext_in. intros i Hi. apply in_seq in Hi.
    rewrite Nat2Z.id, app_nth1 by lia. reflexivity.
  - cbn [Nat.add]. rewrite Nat2Z.id, nth_middle_length. reflexivity.
Qed.

Lemma gather_fitsb_sound (w ow : width) (shape : list Z) (pc source : Tensor) :
  gather_fitsb w ow shape pc source = true -> gather_fits w ow shape pc source.
Proof.
  unfold gather_fitsb. cbv zeta. rewrite !andb_true_iff, !Z.leb_le.
  intros (((((((H1 & H2) & H3) & H4) & H5) & H6) & H7) & H8).
  constructor; try lia.
  intros d k Hd Hk. rewrite forallb_forall in H8.
  specialize (H8 d ltac:(apply In_arange; lia)).
  rewrite forallb_forall in H8.
  specialize (H8 k ltac:(apply In_arange; lia)).
  apply Z.eqb_eq, H8.
Qed.

Lemma sdim_of_sparse_dim (w ow : width) (shape : list Z) (pc source : Tensor) :
  fits w ow shape pc source ->
  Z.of_nat (sdim_of pc) = sparse_dim source
  /\ sdim_of pc = Z.to_nat (sparse_dim source).
Proof.
  intros [[Hsd _ _ _ _] _ Heq _ _ _ _]. unfold sdim_of. rewrite Heq.
  rewrite Z.mod_small by lia. split; [lia | reflexivity].
Qed.

(** The strides of the gather kernel on roles that fit: no cast changes
    them. *)
Lemma gather_strides_exact (w ow : width) (shape : list Z) (pc source : Tensor) :
  fits w ow shape pc source -> gather_fits w ow shape pc source ->
  gather_strides w ow pc source shape
  = {| selected_source_sparse_indices_nnz_stride := 1;
       selected_source_sparse_indices_dim_stride :=
         intersection_nnz w ow pc source shape;
       source_sparse_indices_nnz_stride := snd (indices_stride source);
       source_sparse_indices_dim_stride := fst (indices_stride source) |}.
Proof.
  intros F G.
  destruct (gather_inputs_exact w ow shape pc source F)
    as (_ & Hnnz & Hcounts & Htotal).
  cbv zeta in Hnnz, Hcounts, Htotal.
  pose proof (zsum_nonneg _ Hcounts) as H0.
  destruct G as [_ Hd _ Hn _ _].
  pose proof (max_of_le_W64 ow) as Hle. pose proof (max_of_pos ow) as Hpos.
  unfold gather_strides. cbn [contiguous_strides nth hd].
  rewrite Hnnz.
  rewrite (mul_w_small W64 1) by lia.
  rewrite Z.mul_1_l.
  rewrite !cast_nonneg_small by lia. reflexivity.
Qed.

(** The stores into [selected_source_sparse_indices] on roles that fit: for
    each column [p] of the output, in order, the entries of the source
    column of the matched pair [p], each at its slot [d * intersection_nnz
    + p]. *)
Lemma index_writes_exact (w ow : width) (shape : list Z) (pc source : Tensor) :
  fits w ow shape pc source -> gather_fits w ow shape pc source ->
  let N := intersection_nnz w ow pc source shape in
  let s := map fst (kernel_pairs w shape pc source) in
  filter (fun wr => output_eqb (target wr) SelectedSourceSparseIndices)
         (gather_writes w ow pc source shape)
  = flat_map
      (fun p =>
         map (fun d => {| target := SelectedSourceSparseIndices;
                          address := Z.of_nat d * N + p;
                          stored := nth d (column (_indices source) (deref s p)) 0 |})
             (seq 0 (sdim_of pc)))
      (arange N).
Proof.
  intros F G. cbv zeta.
  pose proof (gather_strides_exact w ow shape pc source F G) as Hst.
  pose proof (fun h => match_span_fits w ow shape pc source h F) as Hspan.
  cbv zeta in Hspan.
  destruct (gather_inputs_exact w ow shape pc source F)
    as (Hin & Hnnz & Hcounts & Htotal).
  cbv zeta in Hin, Hnnz, Hcounts, Htotal.
  destruct (sdim_of_sparse_dim w ow shape pc source F) as (Hsdim & _).
  pose proof F as [Hpc Hsrc Hsd Hh Hnp Hns Ho].
  pose proof G as [Gsel Gd Gds Gn Gno Gview].
  pose proof (nnz_indices shape source Hsrc) as Hnsrc.
  pose proof (zsum_nonneg _ Hcounts) as H0.
  set (sorted := fst (sorted_and_argsort w pc source shape)) in *.
  set (argsort := snd (sorted_and_argsort w pc source shape)) in *.
  set (h := fun k => linear_offset (sparse_shape shape pc)
                       (column (_indices source) k)) in *.
  set (fC := fun k => find_bound false sorted 0 (zlen sorted) (h k)
                      - find_bound true sorted 0 (zlen sorted) (h k)) in *.
  set (fF := fun k => find_bound true sorted 0 (zlen sorted) (h k)) in *.
  set (ks := arange (zlen (_indices source))) in *.
  assert (Hs : map fst (kernel_pairs w shape pc source)
               = flat_map (fun k => map (fun _ => k) (seq 0 (Z.to_nat (fC k)))) ks).
  { unfold kernel_pairs, matched_pairs. fold sorted argsort ks.
    rewrite map_flat_map. apply flat_map_ext_in. intros k _.
    unfold matches_of. rewrite map_map. reflexivity. }
  unfold gather_writes. fold argsort. rewrite Hin, Hst.
  rewrite (gather_tasks_index w ow (sdim_of pc) argsort _ (indices_data source)
             (intersection_nnz w ow pc source shape)
             (column (_indices source)))
    with (acc := 0); try reflexivity; try lia.
  - rewrite total_rounds_gather;
      [| rewrite ?length_map; reflexivity ..
       | rewrite length_prefix_sums, length_map; reflexivity
       | exact Hcounts ].
    rewrite (expand_tasks (fun t _ => fst (fst (fst t))) (fun idx _ _ => idx) fC fF)
      by (try reflexivity; rewrite length_prefix_sums, length_map; reflexivity).
    rewrite <- Hs, Hnnz. unfold arange. rewrite !flat_map_map_comp.
    apply flat_map_ext_in. intros j _. cbn [fst snd].
    apply map_ext. intros d. unfold deref. rewrite Nat2Z.id. reflexivity.
  - intros d Hd. apply dim_subscript_exact. rewrite Hnnz in *. nia.
  - apply tasks_aligned_gather; rewrite ?length_map; try reflexivity;
      try assumption; lia.
  - intros t d Ht Hd.
    assert (Hidx : 0 <= fst (fst (fst t)) < _nnz source).
    { destruct t as [[[idx c] f] sft]. cbn [fst].
      unfold gather_tasks in Ht.
      apply in_combine_l in Ht. apply in_combine_l in Ht.
      apply in_combine_l in Ht. apply In_arange in Ht. lia. }
    cbn [source_sparse_indices_nnz_stride source_sparse_indices_dim_stride].
    rewrite mul_w_small by (rewrite max_of_W64 in *; nia).
    rewrite dim_subscript_exact by nia.
    rewrite Z.add_comm.
    rewrite (Gview (Z.of_nat d) (fst (fst (fst t)))) by lia.
    rewrite Nat2Z.id. reflexivity.
Qed.

(** The addresses of those stores are every slot of the index buffer, each
    one once. *)
Lemma index_writes_perm (w ow : width) (shape : list Z) (pc source : Tensor) :
  fits w ow shape pc source -> gather_fits w ow shape pc source ->
  Permutation
    (writes_to SelectedSourceSparseIndices (gather_writes w ow pc source shape))
    (arange (sparse_dim source * intersection_nnz w ow pc source shape)).
Proof.
  intros F G. unfold writes_to.
  pose proof (index_writes_exact w ow shape pc source F G) as Hev.
  cbv zeta in Hev. rewrite Hev.
  destruct (gather_inputs_exact w ow shape pc source F)
    as (_ & Hnnz & Hcounts & _).
  cbv zeta in Hnnz, Hcounts.
  pose proof (zsum_nonneg _ Hcounts) as H0. rewrite <- Hnnz in H0.
  destruct (sdim_of_sparse_dim w ow shape pc source F) as (<- & _).
  rewrite map_flat_map.
  erewrite flat_map_ext_in;
    [apply (index_addresses_perm _ (sdim_of pc) H0) |].
  intros p _. rewrite map_map. reflexivity.
Qed.

(** [selected_source_sparse_indices] holds the source columns of the
    matched pairs, in their order. *)
Lemma gathered_indices_exact (w ow : width) (shape : list Z)
    (pc source : Tensor) :
  fits w ow shape pc source -> gather_fits w ow shape pc source ->
  gathered_indices w ow pc source shape
  = map (fun p => column (_indices source) (fst p))
        (kernel_pairs w shape pc source).
Proof.
  intros F G.
  pose proof (index_writes_exact w ow shape pc source F G) as Hev.
  cbv zeta in Hev.
  pose proof (index_writes_perm w ow shape pc source F G) as Hperm.
  unfold writes_to in Hperm.
  pose proof (kernel_pairs_length w ow shape pc source F) as Hlen.
  fold (intersection_nnz w ow pc source shape) in Hlen.
  destruct (sdim_of_sparse_dim w ow shape pc source F) as (Hsdim & Hsdim').
  pose proof F as [Hpc Hsrc Hsd Hh Hnp Hns Ho].
  pose proof (nnz_indices shape source Hsrc) as Hnsrc.
  set (N := intersection_nnz w ow pc source shape) in *.
  set (s := map fst (kernel_pairs w shape pc source)) in *.
  assert (Hzs : zlen s = N).
  { unfold s, zlen. rewrite length_map. exact Hlen. }
  assert (Hs : forall p, 0 <= p < N -> 0 <= deref s p < zlen (_indices source)).
  { intros p Hp.
    assert (Hin : In (deref s p) (map fst (kernel_pairs w shape pc source)))
      by (apply (deref_In s); lia).
    apply in_map_iff in Hin. destruct Hin as (pr & <- & Hin).
    unfold kernel_pairs, matched_pairs in Hin. apply in_flat_map in Hin.
    destruct Hin as (k & Hk & Hin). apply In_arange in Hk.
    unfold matches_of in Hin. apply in_map_iff in Hin.
    destruct Hin as (i & <- & _). exact Hk. }
  unfold gathered_indices, index_columns. fold N.
  rewrite <- (map_map fst (column (_indices source))). fold s.
  rewrite <- (map_deref_arange (column (_indices source)) s), Hzs.
  apply map_ext_in. intros p Hp. apply In_arange in Hp.
  rewrite <- Hsdim'.
  rewrite <- (column_entries (sdim_of pc) (column (_indices source) (deref s p))).
  2:{ rewrite (sdim_of_length shape pc Hpc). apply in_bounds_length.
      rewrite <- (sparse_shape_same shape pc source Hsd).
      apply column_in_bounds; [exact Hsrc | apply Hs, Hp]. }
  apply map_ext_in. intros d Hd. apply in_seq in Hd.
  change (buf_selected_source_sparse_indices (gather w ow pc source shape))
    with (buffer_of SelectedSourceSparseIndices (gather w ow pc source shape)).
  unfold gather. rewrite fold_perform_buffer. cbn [buffer_of].
  fold N. rewrite Hev.
  set (EV := flat_map _ (arange N)) in *.
  set (wr := {| target := SelectedSourceSparseIndices;
                address := Z.of_nat d * N + p;
                stored := nth d (column (_indices source) (deref s p)) 0 |}).
  assert (Hin : In wr EV).
  { unfold EV. apply in_flat_map. exists p. split; [apply In_arange; lia |].
    apply in_map_iff. exists d. split; [reflexivity | apply in_seq; lia]. }
  assert (Hnd : NoDup (map address EV)).
  { rewrite Hev in Hperm.
    apply (Permutation_NoDup (Permutation_sym Hperm)), NoDup_arange. }
  assert (Hr : 0 <= address wr
               < zlen (empty_buffer Z (sparse_dim source * N))).
  { unfold empty_buffer, zlen. rewrite repeat_length. cbn [address wr].
    rewrite <- Hsdim. nia. }
  pose proof (fold_store_written EV Hnd _ wr Hin Hr) as Hw.
  cbn [address stored wr] in Hw.
  unfold load. cbn [buf_selected_source_sparse_indices]. rewrite Hw. reflexivity.
Qed.

(** One column per matched pair, whatever the copy stored. *)
Lemma gathered_indices_length (w ow : width) (shape : list Z)
    (pc source : Tensor) :
  fits w ow shape pc source ->
  length (gathered_indices w ow pc source shape)
  = length (kernel_pairs w shape pc source).
Proof.
  intros F. pose proof (kernel_pairs_length w ow shape pc source F) as Hlen.
  fold (intersection_nnz w ow pc source shape) in Hlen.
  unfold gathered_indices, index_columns. rewrite length_map, length_arange.
  rewrite <- Hlen. unfold zlen. apply Nat2Z.id.
Qed.

(* ===================================================================== *)
(** ** The matched pairs are the pairs of equal coordinates *)
(* ===================================================================== *)

Lemma linear_offset_inj (shape c1 c2 : list Z) :
  in_bounds shape c1 -> in_bounds shape c2 ->
  linear_offset shape c1 = linear_offset shape c2 -> c1 = c2.
Proof.
  intros H1 H2 He. apply lex_compare_eq.
  rewrite (lex_compare_linear shape c1 c2 H1 H2), He. apply Z.compare_refl.
Qed.

Lemma deref_map_linear (shape : list Z) (cols : list (list Z)) (j : Z) :
  deref (map (linear_offset shape) cols) j = linear_offset shape (column cols j).
Proof.
  unfold deref, column.
  replace 0 with (linear_offset shape []) at 1 by (destruct shape; reflexivity).
  apply map_nth.
Qed.

(** Soundness: an output row pairs a source nonzero and a probe nonzero at
    the same coordinate. *)
Lemma matched_pairs_sound (w ow : width) (shape : list Z) (pc source : Tensor)
    (i j : Z) :
  fits w ow shape pc source ->
  In (i, j) (matched_pairs (sparse_shape shape pc)
               (fst (sorted_and_argsort w pc source shape))
               (snd (sorted_and_argsort w pc source shape))
               (_indices source)) ->
  0 <= i < _nnz source /\ 0 <= j < _nnz pc
  /\ column (_indices source) i = column (_indices pc) j.
Proof.
  intros F Hin.
  pose proof (sort_stage_fits w ow shape pc source F) as (_ & _ & _ & _ & Harg & _).
  pose proof (fun h => match_span_fits w ow shape pc source h F) as Hspan.
  cbv zeta in Hspan.
  pose proof F as [Hpc Hsrc Hsd Hh Hnp Hns Ho].
  pose proof (nnz_indices shape source Hsrc) as Hnsrc.
  pose proof (nnz_indices shape pc Hpc) as Hnpc.
  unfold zlen in Harg. rewrite length_map in Harg.
  fold (zlen (_indices pc)) in Harg. rewrite <- Hnpc in Harg.
  unfold matched_pairs in Hin. apply in_flat_map in Hin.
  destruct Hin as (k & Hk & Hin). apply In_arange in Hk.
  unfold matches_of in Hin. apply in_map_iff in Hin.
  destruct Hin as (r & Heq & Hr). apply in_seq in Hr.
  injection Heq as <- <-.
  set (h := linear_offset (sparse_shape shape pc) (column (_indices source) k)) in *.
  destruct (Hspan h) as (H0 & Hle & Hub & Hiff).
  set (sorted := fst (sorted_and_argsort w pc source shape)) in *.
  set (lb := find_bound true sorted 0 (zlen sorted) h) in *.
  set (ub := find_bound false sorted 0 (zlen sorted) h) in *.
  assert (Hq : lb <= lb + Z.of_nat r < ub) by lia.
  destruct (Harg (lb + Z.of_nat r)) as (Hj & Hhash); [lia |].
  split; [lia |]. split; [exact Hj |].
  rewrite deref_map_linear in Hhash.
  apply (linear_offset_inj (sparse_shape shape pc)).
  - rewrite <- (sparse_shape_same shape pc source Hsd).
    apply column_in_bounds; [assumption | lia].
  - apply column_in_bounds; [assumption | lia].
  - rewrite Hhash. symmetry. apply Hiff; lia.
Qed.

(** Completeness: every pair of a source nonzero and a probe nonzero at the
    same coordinate is an output row. *)
Lemma matched_pairs_complete (w ow : width) (shape : list Z) (pc source : Tensor)
    (i j : Z) :
  fits w ow shape pc source ->
  0 <= i < _nnz source -> 0 <= j < _nnz pc ->
  column (_indices source) i = column (_indices pc) j ->
  In (i, j) (matched_pairs (sparse_shape shape pc)
               (fst (sorted_and_argsort w pc source shape))
               (snd (sorted_and_argsort w pc source shape))
               (_indices source)).
Proof.
  intros F Hi Hj Hcol.
  pose proof (sort_stage_fits w ow shape pc source F) as (_ & _ & _ & _ & Harg & Hsurj).
  pose proof (fun h => match_span_fits w ow shape pc source h F) as Hspan.
  cbv zeta in Hspan.
  pose proof F as [Hpc Hsrc Hsd Hh Hnp Hns Ho].
  pose proof (nnz_indices shape source Hsrc) as Hnsrc.
  pose proof (nnz_indices shape pc Hpc) as Hnpc.
  unfold zlen in Harg, Hsurj. rewrite length_map in Harg, Hsurj.
  fold (zlen (_indices pc)) in Harg, Hsurj. rewrite <- Hnpc in Harg, Hsurj.
  destruct (Hsurj j Hj) as (q & Hq & Hqj).
  destruct (Harg q Hq) as (_ & Hhash).
  rewrite Hqj, deref_map_linear, <- Hcol in Hhash.
  unfold matched_pairs. apply in_flat_map.
  exists i. split; [apply In_arange; lia |].
  unfold matches_of.
  set (h := linear_offset (sparse_shape shape pc) (column (_indices source) i)) in *.
  destruct (Hspan h) as (H0 & Hle & Hub & Hiff).
  set (sorted := fst (sorted_and_argsort w pc source shape)) in *.
  set (lb := find_bound true sorted 0 (zlen sorted) h) in *.
  set (ub := find_bound false sorted 0 (zlen sorted) h) in *.
  assert (Hqr : lb <= q < ub) by (apply Hiff; [lia | symmetry; exact Hhash]).
  apply in_map_iff. exists (Z.to_nat (q - lb)). split.
  - f_equal. rewrite <- Hqj. f_equal. lia.
  - apply in_seq. lia.
Qed.

(* ===================================================================== *)
(** ** Multiplicities *)
(* ===================================================================== *)

Lemma map_const_seq {A : Type} (x : A) (a n : nat) :
  map (fun _ => x) (seq a n) = repeat x n.
Proof.
  revert a. induction n as [| n IH]; intros a; cbn; [| rewrite IH]; reflexivity.
Qed.

Lemma flat_map_column_arange {B : Type} (f : list Z -> list B)
    (indices : list (list Z)) :
  flat_map (fun k => f (column indices k)) (arange (zlen indices))
  = flat_map f indices.
Proof.
  rewrite !flat_map_concat_map. f_equal. apply map_column_arange.
Qed.




(** An injective-on-the-list map preserves multiplicities. *)
Lemma count_occ_map_in {A B : Type} (decA : forall x y : A, {x = y} + {x <> y})
    (decB : forall x y : B, {x = y} + {x <> y}) (f : A -> B) (l : list A) (c : A) :
  (forall x, In x l -> f x = f c -> x = c) ->
  count_occ decB (map f l) (f c) = count_occ decA l c.
Proof.
  induction l as [| x l IH]; intros Hinj; [reflexivity |].
  cbn [map count_occ].
  rewrite IH by (intros y Hy; apply Hinj; right; exact Hy).
  destruct (decB (f x) (f c)) as [He | Hne]; destruct (decA x c) as [Hx | Hx];
    try reflexivity.
  - exfalso. apply Hx, Hinj; [left; reflexivity | exact He].
  - exfalso. apply Hne. rewrite Hx. reflexivity.
Qed.


(* ===================================================================== *)
(** ** [coalesce] *)
(* ===================================================================== *)

Lemma lex_compare_antisym (a b : list Z) :
  lex_compare b a = CompOpp (lex_compare a b).
Proof.
  revert b. induction a as [| x a IH]; intros [| y b]; cbn; try reflexivity.
  rewrite (Z.compare_antisym x y).
  destruct (x ?= y); cbn; [apply IH | reflexivity | reflexivity].
Qed.

Lemma lex_lt_trans (a b c : list Z) : lex_lt a b -> lex_lt b c -> lex_lt a c.
Proof.
  unfold lex_lt. revert b c.
  induction a as [| x a IH]; intros [| y b] [| z c]; cbn; try discriminate;
    try reflexivity.
  destruct (Z.compare_spec x y) as [-> | Hxy | Hxy]; try discriminate.
  - destruct (Z.compare_spec y z) as [-> | Hyz | Hyz]; try discriminate;
      [apply IH | reflexivity].
  - destruct (Z.compare_spec y z) as [-> | Hyz | Hyz]; try discriminate; intros _ _.
    + destruct (Z.compare_spec x z); [lia | reflexivity | lia].
    + destruct (Z.compare_spec x z); [lia | reflexivity | lia].
Qed.

Lemma lex_gt_lt (a b : list Z) : lex_compare a b = Gt -> lex_lt b a.
Proof. intros H. unfold lex_lt. rewrite lex_compare_antisym, H. reflexivity. Qed.

Lemma coalesce_insert_keys (c : list Z) (v : Row) (l : list (list Z * Row))
    (k : list Z) :
  In k (map fst (coalesce_insert c v l)) <-> k = c \/ In k (map fst l).
Proof.
  induction l as [| [c' v'] l IH]; cbn; [intuition congruence |].
  destruct (lex_compare c c') eqn:Hcmp; cbn.
  - apply lex_compare_eq in Hcmp. subst c'. intuition congruence.
  - intuition congruence.
  - rewrite IH. intuition congruence.
Qed.

Lemma coalesce_insert_sorted (c : list Z) (v : Row) (l : list (list Z * Row)) :
  StronglySorted lex_lt (map fst l) ->
  StronglySorted lex_lt (map fst (coalesce_insert c v l)).
Proof.
  induction l as [| [c' v'] l IH]; intros Hs; cbn.
  - repeat constructor.
  - cbn in Hs. inversion Hs as [| ? ? Hs' Hall]; subst.
    destruct (lex_compare c c') eqn:Hcmp; cbn.
    + constructor; assumption.
    + constructor; [exact Hs |]. constructor; [exact Hcmp |].
      eapply Forall_impl; [| exact Hall].
      intros k Hk. eapply lex_lt_trans; [exact Hcmp | exact Hk].
    + constructor; [apply IH, Hs' |].
      apply Forall_forall. intros k Hk. apply coalesce_insert_keys in Hk.
      destruct Hk as [-> | Hk]; [apply lex_gt_lt, Hcmp |].
      rewrite Forall_forall in Hall. apply Hall, Hk.
Qed.

Lemma coalesce_insert_length (c : list Z) (v : Row) (l : list (list Z * Row)) :
  (length (coalesce_insert c v l) <= S (length l))%nat.
Proof.
  induction l as [| [c' v'] l IH]; cbn; [lia |].
  destruct (lex_compare c c'); cbn; lia.
Qed.

Lemma coalesce_fold_spec (pairs : list (list Z * Row)) :
  forall acc,
    StronglySorted lex_lt (map fst acc) ->
    let merged :=
      fold_left (fun acc cv => coalesce_insert (fst cv) (snd cv) acc) pairs acc in
    StronglySorted lex_lt (map fst merged)
    /\ (forall k, In k (map fst merged) <-> In k (map fst pairs) \/ In k (map fst acc))
    /\ (length merged <= length pairs + length acc)%nat.
Proof.
  induction pairs as [| [c v] pairs IH]; intros acc Hs; cbn [fold_left map].
  - cbv zeta. repeat split; [exact Hs | | | lia]; cbn; intuition.
  - destruct (IH (coalesce_insert c v acc) (coalesce_insert_sorted c v acc Hs))
      as (H1 & H2 & H3).
    cbv zeta in *. cbn [fst snd]. split; [exact H1 |]. split.
    + intros k. rewrite H2, coalesce_insert_keys. cbn. intuition congruence.
    + pose proof (coalesce_insert_length c v acc). cbn [length]. lia.
Qed.

Lemma coalesce_spec (t : Tensor) :
  length (_indices t) = length (vrows (_values t)) ->
  StronglySorted lex_lt (_indices (coalesce t))
  /\ (forall k, In k (_indices (coalesce t)) <-> In k (_indices t))
  /\ length (_indices (coalesce t)) = length (vrows (_values (coalesce t)))
  /\ _nnz (coalesce t) <= _nnz t.
Proof.
  intros Hlen. unfold coalesce, _nnz, zlen. cbn [_indices _values vrows].
  destruct (coalesce_fold_spec (combine (_indices t) (vrows (_values t))) [])
    as (H1 & H2 & H3); [constructor |].
  cbv zeta in *. fold (coalesce_pairs t) in *.
  split; [exact H1 |]. split; [| split].
  - intros k. rewrite H2, (map_fst_combine _ _ Hlen). cbn. intuition.
  - rewrite !length_map. reflexivity.
  - rewrite length_map. rewrite length_combine in H3. cbn in H3. lia.
Qed.

Lemma coalesce_well_formed (shape : list Z) (t : Tensor) :
  well_formed shape t -> well_formed shape (coalesce t).
Proof.
  intros [Hsd Hle Hn Hb Hs].
  destruct (coalesce_spec t Hn) as (H1 & H2 & H3 & H4).
  constructor; try assumption.
  - apply Forall_forall. intros k Hk. rewrite Forall_forall in Hb.
    apply Hb, H2, Hk.
  - intros _. exact H1.
Qed.

Lemma coalesce_multiplicity (c : list Z) (t : Tensor) :
  length (_indices t) = length (vrows (_values t)) ->
  (multiplicity c (coalesce t) > 0 <-> multiplicity c t > 0)%nat.
Proof.
  intros Hlen. destruct (coalesce_spec t Hlen) as (_ & H2 & _).
  unfold multiplicity. rewrite <- !count_occ_In. apply H2.
Qed.

(* ===================================================================== *)
(** ** Role selection *)
(* ===================================================================== *)

(** The probe is one input, possibly coalesced; the source is the other. *)
Lemma select_roles_cases (x y pc source : Tensor) :
  select_roles x y = Some (pc, source) ->
  ((pc = x \/ pc = coalesce x) /\ source = y)
  \/ ((pc = y \/ pc = coalesce y) /\ source = x).
Proof.
  unfold select_roles.
  destruct (xorb (is_coalesced x) (is_coalesced y)).
  - destruct (is_coalesced x); intros H; injection H as <- <-; auto.
  - destruct (_nnz x >=? _nnz y); cbv zeta.
    + destruct (sparse_dim_numel x =? 0); [discriminate |].
      destruct (Z.quot (_nnz x) (sparse_dim_numel x) >? MAX_COPIES_PER_THREAD);
        intros H; injection H as <- <-; auto.
    + destruct (sparse_dim_numel y =? 0); [discriminate |].
      destruct (Z.quot (_nnz y) (sparse_dim_numel y) >? MAX_COPIES_PER_THREAD);
        intros H; injection H as <- <-; auto.
Qed.

(** The conjunction of the two roles' flags is that of the operands'. *)
Lemma select_roles_flag (x y pc source : Tensor) :
  select_roles x y = Some (pc, source) ->
  is_coalesced source && is_coalesced pc = is_coalesced x && is_coalesced y.
Proof.
  unfold select_roles.
  destruct (is_coalesced x) eqn:Hx, (is_coalesced y) eqn:Hy; cbn [xorb];
    try (intros H; injection H as <- <-; rewrite Hx, Hy; reflexivity);
    destruct (_nnz x >=? _nnz y); cbv zeta;
    match goal with
    | |- context [sparse_dim_numel ?t =? 0] =>
        destruct (sparse_dim_numel t =? 0); [discriminate |];
        destruct (Z.quot (_nnz t) (sparse_dim_numel t) >? MAX_COPIES_PER_THREAD)
    end;
    intros H; injection H as <- <-; cbn [coalesce is_coalesced];
    rewrite ?Hx, ?Hy; reflexivity.
Qed.

Lemma nnz_nonneg (t : Tensor) : 0 <= _nnz t.
Proof. apply zlen_nonneg. Qed.

Lemma fits_swap (w ow : width) (shape : list Z) (a b : Tensor) :
  fits w ow shape a b -> fits w ow shape b a.
Proof.
  intros [Ha Hb Hsd Hh Hna Hnb Ho].
  constructor; try assumption; try (symmetry; assumption); try lia.
  rewrite (sparse_shape_same shape a b Hsd). exact Hh.
Qed.

Lemma fits_coalesce_probe (w ow : width) (shape : list Z) (a b : Tensor) :
  fits w ow shape a b -> fits w ow shape (coalesce a) b.
Proof.
  intros [Ha Hb Hsd Hh Hna Hnb Ho].
  pose proof Ha as [_ _ Hn _ _].
  destruct (coalesce_spec a Hn) as (_ & _ & _ & Hle).
  pose proof (nnz_nonneg (coalesce a)). pose proof (nnz_nonneg b).
  constructor; try assumption.
  - apply coalesce_well_formed, Ha.
  - lia.
  - nia.
Qed.

Lemma select_roles_fits (w ow : width) (shape : list Z) (x y pc source : Tensor) :
  fits w ow shape x y -> select_roles x y = Some (pc, source) ->
  fits w ow shape pc source.
Proof.
  intros F H. destruct (select_roles_cases x y pc source H)
    as [([-> | ->] & ->) | ([-> | ->] & ->)].
  - exact F.
  - apply fits_coalesce_probe, F.
  - apply fits_swap, F.
  - apply fits_coalesce_probe, fits_swap, F.
Qed.

(** The operands the roles are chosen from: the inputs for a commutative
    operator, their coalesced forms otherwise. *)
Lemma fits_operands (w ow : width) (shape : list Z) (x_ y_ : Tensor)
    (is_commutative : bool) :
  fits w ow shape x_ y_ ->
  fits w ow shape (if is_commutative then x_ else coalesce x_)
                  (if is_commutative then y_ else coalesce y_).
Proof.
  intros F. destruct is_commutative; [exact F |].
  apply fits_coalesce_probe, fits_swap, fits_coalesce_probe, fits_swap, F.
Qed.

(* ===================================================================== *)
(** ** The assembled result *)
(* ===================================================================== *)

Lemma select_rows_ok (rows : list Row) (index : list Z) :
  Forall (fun i => 0 <= i < zlen rows) index ->
  exists l, select_rows rows index = Some l
            /\ Forall2 (fun i r => nth_error rows (Z.to_nat i) = Some r) index l.
Proof.
  induction 1 as [| i index Hi _ (l & Hl & Hf)]; cbn.
  - exists []. split; [reflexivity | constructor].
  - replace (i <? 0) with false by (symmetry; apply Z.ltb_ge; lia).
    destruct (nth_error rows (Z.to_nat i)) as [r |] eqn:Hr.
    + rewrite Hl. exists (r :: l). split; [reflexivity |].
      constructor; assumption.
    + apply nth_error_None in Hr. unfold zlen in Hi. lia.
Qed.

Lemma zip_with_rows (d : dtype) (source pc : Tensor) (pairs : list (Z * Z)) :
  forall rs rp,
    Forall2 (fun i r => nth_error (vrows (_values source)) (Z.to_nat i) = Some r)
            (map fst pairs) rs ->
    Forall2 (fun i r => nth_error (vrows (_values pc)) (Z.to_nat i) = Some r)
            (map snd pairs) rp ->
    Forall2 (row_of_pair d source pc) pairs
            (map (to_row d) (zip_with binary_op rs rp)).
Proof.
  induction pairs as [| p pairs IH]; intros rs rp Hs Hp;
    inversion Hs; inversion Hp; subst; cbn; constructor.
  - exists y, y0. auto.
  - apply IH; assumption.
Qed.

Lemma Forall2_length_eq {A B : Type} (R : A -> B -> Prop) (la : list A)
    (lb : list B) :
  Forall2 R la lb -> length la = length lb.
Proof. induction 1; cbn; congruence. Qed.

Lemma zip_with_length {A B C : Type} (f : A -> B -> C) (la : list A) (lb : list B) :
  length la = length lb -> length (zip_with f la lb) = length la.
Proof.
  revert lb. induction la as [| a la IH]; intros [| b lb] H; cbn in *;
    try discriminate; [reflexivity |].
  f_equal. apply IH. lia.
Qed.

Lemma narrow_length {A : Type} (l : list A) (n : Z) :
  n = zlen l -> narrow l 0 n = l.
Proof. intros ->. apply narrow_all. Qed.

(** The kernel on operands whose roles fit the widths: it returns, and
    [res] holds the assembled tensor, one row per matched pair. *)
Lemma kernel_impl_result (w ow : width) (x_ y_ : Tensor) (shape : list Z)
    (is_commutative : bool) (res pc source : Tensor) :
  canCast (result_type x_ y_) (scalar_type res) = true ->
  select_roles (if is_commutative then x_ else coalesce x_)
               (if is_commutative then y_ else coalesce y_) = Some (pc, source) ->
  fits w ow shape pc source ->
  exists rows,
    Forall2 (row_of_pair (scalar_type res) source pc)
            (kernel_pairs w shape pc source) rows
    /\ _sparse_binary_op_intersection_kernel_impl w ow x_ y_ shape is_commutative res
       = (inr tt, assembled w ow shape pc source res rows).
Proof.
  intros Hcast Hroles F.
  pose proof (gather_selected w ow shape pc source F) as Hsel. cbv zeta in Hsel.
  fold (kernel_pairs w shape pc source) in Hsel.
  assert (Hsrc_idx : Forall (fun i => 0 <= i < zlen (vrows (_values source)))
                            (map fst (kernel_pairs w shape pc source))).
  { apply Forall_forall. intros i Hi. apply in_map_iff in Hi.
    destruct Hi as ([i' j] & <- & Hin).
    apply (matched_pairs_sound w ow shape pc source i' j F) in Hin.
    cbn [fst]. unfold _nnz in Hin. lia. }
  assert (Hpc_idx : Forall (fun i => 0 <= i < zlen (vrows (_values pc)))
                           (map snd (kernel_pairs w shape pc source))).
  { apply Forall_forall. intros j Hj. apply in_map_iff in Hj.
    destruct Hj as ([i j'] & <- & Hin).
    apply (matched_pairs_sound w ow shape pc source i j' F) in Hin.
    cbn [snd]. unfold _nnz in Hin. lia. }
  destruct (select_rows_ok _ _ Hsrc_idx) as (rs & Hrs & Frs).
  destruct (select_rows_ok _ _ Hpc_idx) as (rp & Hrp & Frp).
  pose proof (Forall2_length_eq _ _ _ Frs) as Lrs.
  pose proof (Forall2_length_eq _ _ _ Frp) as Lrp.
  rewrite length_map in Lrs, Lrp.
  exists (map (to_row (scalar_type res)) (zip_with binary_op rs rp)).
  split; [apply zip_with_rows; assumption |].
  unfold _sparse_binary_op_intersection_kernel_impl, bind, gets, TORCH_CHECK.
  rewrite Hcast. unfold ret at 1. rewrite Hroles. unfold lift at 1, ret at 1.
  rewrite Hsel. unfold lift at 1, ret at 1.
  unfold index_select. rewrite Hrs, Hrp. unfold lift, ret.
  unfold raw_resize_, set_indices_and_values_unsafe, set_nnz_and_narrow,
    _coalesced_, modify, apply, to, assembled.
  cbn [is_sparse scalar_type sparse_dim dense_dim sizes _indices _values
       is_coalesced vdim vrows].
  rewrite !narrow_length; [reflexivity | |].
  - unfold zlen. rewrite length_map, zip_with_length by lia. lia.
  - unfold zlen. rewrite (gathered_indices_length w ow shape pc source F). lia.
Qed.

(* ===================================================================== *)
(** ** Further facts used by the properties *)
(* ===================================================================== *)

(** The output columns: every source column, once per probe nonzero at the
    same coordinate, in the order of the source. *)
Lemma matched_columns_flat (w ow : width) (shape : list Z) (pc source : Tensor) :
  fits w ow shape pc source ->
  map (fun p => column (_indices source) (fst p)) (kernel_pairs w shape pc source)
  = flat_map (fun col => repeat col (multiplicity col pc)) (_indices source).
Proof.
  intros F.
  pose proof (sort_stage_fits w ow shape pc source F) as (Hsorted & _ & _ & Hperm & _).
  pose proof F as [Hpc Hsrc Hsd Hh Hnp Hns Ho].
  unfold kernel_pairs, matched_pairs.
  set (sorted := fst (sorted_and_argsort w pc source shape)) in *.
  set (argsort := snd (sorted_and_argsort w pc source shape)) in *.
  set (S := sparse_shape shape pc) in *.
  set (m := fun col : list Z =>
              Z.to_nat (find_bound false sorted 0 (zlen sorted) (linear_offset S col)
                        - find_bound true sorted 0 (zlen sorted) (linear_offset S col))).
  rewrite map_flat_map.
  transitivity (flat_map (fun col => repeat col (m col)) (_indices source)).
  - rewrite <- (flat_map_column_arange (fun col => repeat col (m col))).
    apply flat_map_ext_in. intros k _.
    unfold matches_of. rewrite map_map. cbn [fst]. apply map_const_seq.
  - apply flat_map_ext_in. intros c Hin. f_equal.
    assert (Hc : in_bounds S c).
    { unfold S. rewrite <- (sparse_shape_same shape pc source Hsd).
      destruct Hsrc as [_ _ _ Hb _]. rewrite Forall_forall in Hb. apply Hb, Hin. }
    unfold m, multiplicity.
    rewrite (find_bound_count sorted _ Hsorted), Nat2Z.id.
    rewrite Permutation_count_occ in Hperm. rewrite (Hperm (linear_offset S c)).
    apply count_occ_map_in. intros x Hx He.
    apply (linear_offset_inj S); [| exact Hc | exact He].
    destruct Hpc as [_ _ _ Hb _]. rewrite Forall_forall in Hb. apply Hb, Hx.
Qed.

Lemma lex_lt_irrefl (c : list Z) : ~ lex_lt c c.
Proof. unfold lex_lt. rewrite lex_compare_refl. discriminate. Qed.

Lemma sorted_multiplicity_le_1 (l : list (list Z)) (c : list Z) :
  StronglySorted lex_lt l ->
  (count_occ (list_eq_dec Z.eq_dec) l c <= 1)%nat.
Proof.
  induction 1 as [| x l Hs IH Hall]; cbn; [lia |].
  destruct (list_eq_dec Z.eq_dec x c) as [-> | Hne]; [| exact IH].
  assert (Hnot : ~ In c l).
  { intros Hin. rewrite Forall_forall in Hall.
    apply (lex_lt_irrefl c), Hall, Hin. }
  apply (count_occ_not_In (list_eq_dec Z.eq_dec)) in Hnot. lia.
Qed.

(** Keeping each element of a strictly sorted list at most once keeps it
    strictly sorted. *)
Lemma sorted_flat_map_repeat (m : list Z -> nat) (l : list (list Z)) :
  StronglySorted lex_lt l -> (forall c, (m c <= 1)%nat) ->
  StronglySorted lex_lt (flat_map (fun c => repeat c (m c)) l).
Proof.
  intros Hs Hm. induction Hs as [| x l Hs IH Hall]; cbn; [constructor |].
  assert (Hrest : Forall (lex_lt x) (flat_map (fun c => repeat c (m c)) l)).
  { apply Forall_forall. intros c Hc. apply in_flat_map in Hc.
    destruct Hc as (c' & Hin & Hrep). apply repeat_spec in Hrep. subst c.
    rewrite Forall_forall in Hall. apply Hall, Hin. }
  specialize (Hm x). destruct (m x) as [| [| n]]; cbn; [exact IH | | lia].
  constructor; assumption.
Qed.


(** Membership in both roles is membership in both operands. *)
Lemma select_roles_members (shape : list Z) (x y pc source : Tensor) (c : list Z) :
  well_formed shape x -> well_formed shape y ->
  select_roles x y = Some (pc, source) ->
  (In c (_indices source) /\ In c (_indices pc)
   <-> In c (_indices x) /\ In c (_indices y)).
Proof.
  intros [_ _ Hx _ _] [_ _ Hy _ _] H.
  destruct (coalesce_spec x Hx) as (_ & Mx & _).
  destruct (coalesce_spec y Hy) as (_ & My & _).
  destruct (select_roles_cases x y pc source H)
    as [([-> | ->] & ->) | ([-> | ->] & ->)];
    rewrite ?Mx, ?My; tauto.
Qed.

Lemma operand_members (shape : list Z) (t : Tensor) (is_commutative : bool)
    (c : list Z) :
  well_formed shape t ->
  (In c (_indices (if is_commutative then t else coalesce t))
   <-> In c (_indices t)).
Proof.
  intros [_ _ Hn _ _]. destruct is_commutative; [tauto |].
  apply (coalesce_spec t Hn).
Qed.

(* ===================================================================== *)
(** ** Properties of the kernel *)
(* ===================================================================== *)

(** C5. Binary-search bound correctness: on an array sorted in
    nondecreasing order, [find_bound] with [is_lower = true] returns the
    first position whose element is [>= value] and with [is_lower = false]
    the first position whose element is [> value]; hence the record the
    join stores for a source nonzero, [count = upper - lower] and
    [first_match_offset = lower], delimits exactly the positions of the
    sorted probe hashes that hold the source's hash. *)
Theorem find_bound_lower_upper_span (a : list Z) (value : Z) :
  Sorted Z.le a ->
  let lb := find_bound true a 0 (zlen a) value in
  let ub := find_bound false a 0 (zlen a) value in
  (0 <= lb <= zlen a
   /\ (forall i, 0 <= i < lb -> deref a i < value)
   /\ (forall i, lb <= i < zlen a -> value <= deref a i))
  /\ (0 <= ub <= zlen a
      /\ (forall i, 0 <= i < ub -> deref a i <= value)
      /\ (forall i, ub <= i < zlen a -> value < deref a i))
  /\ (forall (w : width) (sdim : nat) (coeffs : list Z)
             (source_indices : list (list Z)) (nnz_idx : Z),
        zlen a <= max_of w ->
        compute_hash w sdim coeffs (column source_indices nnz_idx) = value ->
        let record := intersect_one w sdim coeffs a source_indices nnz_idx in
        fst record = ub - lb /\ snd record = lb
        /\ (forall i, 0 <= i < zlen a ->
              (deref a i = value <-> snd record <= i < snd record + fst record))).
Proof.
  intros Hs. cbv zeta.
  split; [apply find_bound_lower, Hs |].
  split; [apply find_bound_upper, Hs |].
  intros w sdim coeffs source_indices nnz_idx Hmax Hhash.
  rewrite (intersect_one_spec w sdim coeffs a source_indices nnz_idx Hs Hmax).
  rewrite Hhash. cbn [fst snd].
  destruct (find_bound_span a value Hs) as (H0 & Hle & Hub & Hspan).
  split; [reflexivity |]. split; [reflexivity |].
  intros i Hi. rewrite (Hspan i Hi). lia.
Qed.

(** C4. Hash injectivity and order preservation: over the coordinate space
    of any shape the map [coord -> sum of coord[d] * stride[d]] for the
    row-major strides is injective and orders coordinates as the
    lexicographic order does; when the number of points of the broadcasted
    sparse shape fits [hash_t] the kernel's hash is that map; consequently
    the hash array of a coalesced probe is nondecreasing and the sort stage
    returns it unchanged with the identity permutation. *)
Theorem hash_injective_order_preserving (w ow : width) (shape : list Z)
    (pc source : Tensor) :
  (forall space c1 c2,
     in_bounds space c1 -> in_bounds space c2 ->
     (linear_offset space c1 = linear_offset space c2 -> c1 = c2)
     /\ (linear_offset space c1 < linear_offset space c2 <-> lex_lt c1 c2))
  /\ (fits w ow shape pc source ->
      let space := sparse_shape shape pc in
      let hash := compute_hash w (sdim_of pc) (hash_coeffs w pc shape) in
      (forall c, in_bounds space c -> hash c = linear_offset space c)
      /\ (forall c1 c2, in_bounds space c1 -> in_bounds space c2 ->
            (hash c1 = hash c2 -> c1 = c2)
            /\ (hash c1 < hash c2 <-> lex_lt c1 c2))
      /\ (is_coalesced pc = true ->
            Sorted Z.le (probably_coalesced_indices_hash w pc source shape)
            /\ sorted_and_argsort w pc source shape
               = (probably_coalesced_indices_hash w pc source shape,
                  arange (_nnz pc)))).
Proof.
  assert (Hmath : forall space c1 c2,
             in_bounds space c1 -> in_bounds space c2 ->
             (linear_offset space c1 = linear_offset space c2 -> c1 = c2)
             /\ (linear_offset space c1 < linear_offset space c2 <-> lex_lt c1 c2)).
  { intros space c1 c2 H1 H2. split; [apply linear_offset_inj; assumption |].
    unfold lex_lt. rewrite (lex_compare_linear space c1 c2 H1 H2).
    symmetry. apply Z.compare_lt_iff. }
  split; [exact Hmath |].
  intros F. cbv zeta.
  pose proof F as [Hpc Hsrc Hsd Hh Hnp Hns Ho].
  assert (Hexact : forall c, in_bounds (sparse_shape shape pc) c ->
             compute_hash w (sdim_of pc) (hash_coeffs w pc shape) c
             = linear_offset (sparse_shape shape pc) c).
  { intros c Hc. apply column_hash_exact; assumption. }
  split; [exact Hexact |]. split.
  - intros c1 c2 H1 H2. rewrite (Hexact c1 H1), (Hexact c2 H2).
    apply Hmath; assumption.
  - intros Hco. split.
    + rewrite (pc_hash_exact w ow shape pc source F).
      destruct Hpc as [_ _ _ Hb Hsorted].
      apply coalesced_hash_sorted; [exact Hb | apply Hsorted, Hco].
    + unfold sorted_and_argsort. rewrite Hco.
      unfold nnz_arange. rewrite narrow_arange by lia. reflexivity.
Qed.

(** The kernel on inputs that fit the widths, once the roles are chosen:
    the roles fit too, the kernel returns, and [res] holds the assembled
    tensor. *)
Lemma kernel_impl_runs (w ow : width) (x_ y_ : Tensor) (shape : list Z)
    (is_commutative : bool) (res pc source : Tensor) :
  canCast (result_type x_ y_) (scalar_type res) = true ->
  fits w ow shape x_ y_ ->
  select_roles (if is_commutative then x_ else coalesce x_)
               (if is_commutative then y_ else coalesce y_) = Some (pc, source) ->
  fits w ow shape pc source
  /\ exists rows,
       Forall2 (row_of_pair (scalar_type res) source pc)
               (kernel_pairs w shape pc source) rows
       /\ _sparse_binary_op_intersection_kernel_impl w ow x_ y_ shape
            is_commutative res
          = (inr tt, assembled w ow shape pc source res rows).
Proof.
  intros Hcast F Hroles.
  pose proof (select_roles_fits w ow shape _ _ pc source
                (fits_operands w ow shape x_ y_ is_commutative F) Hroles) as F'.
  split; [exact F' |].
  apply (kernel_impl_result w ow x_ y_ shape is_commutative res pc source);
    assumption.
Qed.

(** Under [gather_fits] the index columns of the assembled tensor are the
    source columns of the matched pairs. *)
Lemma assembled_indices (w ow : width) (shape : list Z)
    (pc source res : Tensor) (rows : list Row) :
  fits w ow shape pc source -> gather_fits w ow shape pc source ->
  _indices (assembled w ow shape pc source res rows)
  = map (fun p => column (_indices source) (fst p))
        (kernel_pairs w shape pc source).
Proof.
  intros F G. unfold assembled. cbn [_indices].
  apply gathered_indices_exact; assumption.
Qed.

(** The [int] accumulator of [std::accumulate] holds the product of the
    sizes reduced to 32 bits. *)
Lemma sparse_dim_numel_fold (l : list Z) :
  forall acc : Z,
    fold_left (fun acc s => cast W32 (mul_w W64 acc s)) l (cast W32 acc)
    = cast W32 (acc * numel l).
Proof.
  induction l as [| s l IH]; intros acc.
  - cbn. f_equal. lia.
  - cbn [fold_left]. unfold mul_w at 2.
    rewrite cast_W32_W64, cast_mul_l, IH, numel_cons. f_equal. ring.
Qed.

Lemma sparse_dim_numel_exact (t : Tensor) :
  sparse_dim_numel t = cast W32 (numel (slice_prefix (sizes t) (sparse_dim t))).
Proof.
  unfold sparse_dim_numel.
  rewrite <- (cast_idem_1 W32) at 1. rewrite sparse_dim_numel_fold.
  f_equal. lia.
Qed.


Lemma multiplicity_In (c : list Z) (t : Tensor) :
  In c (_indices t) <-> (multiplicity c t > 0)%nat.
Proof. unfold multiplicity. apply count_occ_In. Qed.




(** X21. Result size and empty intersection where role selection returns
    (the division of line 137 has a nonzero divisor): the kernel returns;
    the result's nonzero count is the last element of the inclusive prefix
    sum of the match counts, which is 0 when the source is empty; when no
    coordinate is in both inputs the result has no nonzero; and the result
    carries the broadcasted shape, the source's [sparse_dim], and
    [dense_dim] = rank of the result values minus 1. *)
Theorem result_size_and_shape (w ow : width) (x_ y_ : Tensor)
    (shape : list Z) (is_commutative : bool) (res pc source : Tensor) :
  canCast (result_type x_ y_) (scalar_type res) = true ->
  fits w ow shape x_ y_ ->
  select_roles (if is_commutative then x_ else coalesce x_)
               (if is_commutative then y_ else coalesce y_) = Some (pc, source) ->
  exists res',
    _sparse_binary_op_intersection_kernel_impl w ow x_ y_ shape is_commutative res
    = (inr tt, res')
    /\ _nnz res'
       = intersection_nnz_of
           (shifted_offset_of ow (fst (intersection w pc source shape)))
    /\ zlen (_indices res') = _nnz res'
    /\ (_nnz source = 0 -> _nnz res' = 0)
    /\ ((forall c, ~ (In c (_indices x_) /\ In c (_indices y_))) -> _nnz res' = 0)
    /\ sizes res' = shape
    /\ sparse_dim res' = sparse_dim source
    /\ dense_dim res' = vdim (_values res') - 1.
Proof.
  intros Hcast F Hroles.
  destruct (kernel_impl_runs w ow x_ y_ shape is_commutative res pc source
              Hcast F Hroles) as (F' & rows & Hrows & Hrun).
  exists (assembled w ow shape pc source res rows).
  pose proof (Forall2_length_eq _ _ _ Hrows) as Hlen.
  assert (Hnnz : _nnz (assembled w ow shape pc source res rows)
                 = zlen (kernel_pairs w shape pc source)).
  { unfold _nnz, assembled, zlen. cbn [_values vrows]. rewrite Hlen. reflexivity. }
  assert (Hnone : (forall i j, ~ In (i, j) (kernel_pairs w shape pc source)) ->
                  _nnz (assembled w ow shape pc source res rows) = 0).
  { intros Hno. rewrite Hnnz.
    destruct (kernel_pairs w shape pc source) as [| [i j] l]; [reflexivity |].
    exfalso. apply (Hno i j). left. reflexivity. }
  split; [exact Hrun |].
  split; [rewrite Hnnz; apply kernel_pairs_length, F' |].
  split; [rewrite Hnnz; unfold assembled, zlen; cbn [_indices];
          rewrite (gathered_indices_length w ow shape pc source F');
          reflexivity |].
  split; [| split; [| repeat split]].
  - intros Hempty. apply Hnone. intros i j Hin.
    apply (matched_pairs_sound w ow shape pc source i j F') in Hin. lia.
  - intros Hdisjoint. apply Hnone. intros i j Hin.
    apply (matched_pairs_sound w ow shape pc source i j F') in Hin.
    destruct Hin as (Hi & Hj & Hcol).
    pose proof F' as [Hpc Hsrc _ _ _ _ _].
    rewrite (nnz_indices shape source Hsrc) in Hi.
    rewrite (nnz_indices shape pc Hpc) in Hj.
    assert (Hs : In (column (_indices source) i) (_indices source)).
    { unfold column. apply nth_In. unfold zlen in Hi. lia. }
    assert (Hp : In (column (_indices source) i) (_indices pc)).
    { rewrite Hcol. unfold column. apply nth_In. unfold zlen in Hj. lia. }
    apply (Hdisjoint (column (_indices source) i)).
    pose proof (fits_operands w ow shape x_ y_ is_commutative F)
      as [Hx Hy _ _ _ _ _].
    pose proof F as [Hx_ Hy_ _ _ _ _ _].
    rewrite <- (operand_members shape x_ is_commutative _ Hx_).
    rewrite <- (operand_members shape y_ is_commutative _ Hy_).
    rewrite <- (select_roles_members shape _ _ pc source _ Hx Hy Hroles).
    split; assumption.
Qed.

(** C10. Non-commutative coalescing: with [is_commutative = false] the
    roles are chosen from the coalesced forms of both inputs, which every
    later stage works with (the kernel is the commutative kernel on the
    coalesced inputs, the dtype check apart); the kernel returns and the
    output's coalesced flag is set, whatever the flags of the inputs. *)
Theorem non_commutative_coalesces (w ow : width) (x_ y_ : Tensor)
    (shape : list Z) (res pc source : Tensor) :
  canCast (result_type x_ y_) (scalar_type res) = true ->
  fits w ow shape x_ y_ ->
  select_roles (coalesce x_) (coalesce y_) = Some (pc, source) ->
  (result_type (coalesce x_) (coalesce y_) = result_type x_ y_ ->
   _sparse_binary_op_intersection_kernel_impl w ow x_ y_ shape false res
   = _sparse_binary_op_intersection_kernel_impl w ow (coalesce x_) (coalesce y_)
       shape true res)
  /\ StronglySorted lex_lt (_indices (coalesce x_))
  /\ StronglySorted lex_lt (_indices (coalesce y_))
  /\ exists rows,
       _sparse_binary_op_intersection_kernel_impl w ow x_ y_ shape false res
       = (inr tt, assembled w ow shape pc source res rows)
       /\ is_coalesced (assembled w ow shape pc source res rows) = true.
Proof.
  intros Hcast F Hroles.
  destruct (kernel_impl_runs w ow x_ y_ shape false res pc source
              Hcast F Hroles) as (F' & rows & Hrows & Hrun).
  pose proof F as [[_ _ Hnx _ _] [_ _ Hny _ _] _ _ _ _ _].
  split; [| split; [apply (coalesce_spec x_ Hnx) |
                    split; [apply (coalesce_spec y_ Hny) |]]].
  - intros Hty. unfold _sparse_binary_op_intersection_kernel_impl.
    rewrite Hty. reflexivity.
  - exists rows. split; [exact Hrun |].
    unfold assembled. cbn [is_coalesced].
    rewrite (select_roles_flag _ _ pc source Hroles). reflexivity.
Qed.








(* ===================================================================== *)
(** ** The entry point: checks and width selection *)
(* ===================================================================== *)

Lemma sizes_eqb_eq (a b : list Z) : sizes_eqb a b = true <-> a = b.
Proof.
  revert b. induction a as [| x a IH]; intros [| y b]; cbn;
    try (split; [discriminate | congruence]); [tauto |].
  rewrite andb_true_iff, Z.eqb_eq, IH. split; [intros [-> ->] | intros H; injection H]; auto.
Qed.

(** What the entry point's check tests. *)
Lemma inputs_ok_spec (x y : Tensor) :
  inputs_ok x y = true
  <-> (is_sparse x = true /\ is_sparse y = true)
      /\ dim x = dim y
      /\ sparse_dim x = sparse_dim y
      /\ slice_prefix (sizes x) (sparse_dim x) = slice_prefix (sizes y) (sparse_dim y).
Proof.
  unfold inputs_ok.
  rewrite !andb_true_iff, !Z.eqb_eq, sizes_eqb_eq. tauto.
Qed.

(** A failure of the kernel leaves [res] as it was: every write to [res]
    comes after the last step that can fail. *)
Lemma kernel_impl_failure_unchanged (w ow : width) (x_ y_ : Tensor)
    (shape : list Z) (is_commutative : bool) (res res' : Tensor) (e : failure) :
  _sparse_binary_op_intersection_kernel_impl w ow x_ y_ shape is_commutative res
  = (inl e, res') ->
  res' = res.
Proof.
  unfold _sparse_binary_op_intersection_kernel_impl, bind, gets, TORCH_CHECK.
  destruct (canCast (result_type x_ y_) (scalar_type res));
    [| unfold raise; intros H; injection H as _ <-; reflexivity].
  unfold ret at 1.
  destruct (select_roles (if is_commutative then x_ else coalesce x_)
                         (if is_commutative then y_ else coalesce y_))
    as [[pc source] |];
    [| unfold lift, raise; intros H; injection H as _ <-; reflexivity].
  unfold lift at 1, ret at 1.
  destruct (selected w ow pc source shape) as [[[s i] p] |];
    [| unfold lift, raise; intros H; injection H as _ <-; reflexivity].
  unfold lift at 1, ret at 1.
  destruct (index_select (_values source) s) as [vs |];
    [| unfold lift, raise; intros H; injection H as _ <-; reflexivity].
  unfold lift at 1, ret at 1.
  destruct (index_select (_values pc) p) as [vp |];
    [| unfold lift, raise; intros H; injection H as _ <-; reflexivity].
  unfold lift, ret, raw_resize_, set_indices_and_values_unsafe,
    set_nnz_and_narrow, _coalesced_, modify.
  discriminate.
Qed.

(** C7. Error raising and atomicity: the entry point raises a precondition
    failure when the inputs are not both sparse with equal dimensionality,
    equal [sparse_dim] and equal sparse-dimension shape prefixes, and a
    cast failure when the result dtype of the inputs cannot be cast to the
    dtype of [res]; in these and in every other case of failure [res] is as
    it was before the call. *)
Theorem entry_errors_leave_res_unchanged (x y : Tensor)
    (is_commutative : bool) (res : Tensor) :
  (~ ((is_sparse x = true /\ is_sparse y = true)
      /\ dim x = dim y
      /\ sparse_dim x = sparse_dim y
      /\ slice_prefix (sizes x) (sparse_dim x)
         = slice_prefix (sizes y) (sparse_dim y)) ->
   _sparse_binary_op_intersection_kernel_out x y is_commutative res
   = (inl InputCheckFailed, res))
  /\ (forall shape,
        inputs_ok x y = true ->
        infer_size (sizes x) (sizes y) = Some shape ->
        canCast (result_type x y) (scalar_type res) = false ->
        _sparse_binary_op_intersection_kernel_out x y is_commutative res
        = (inl CastCheckFailed, res))
  /\ (forall e res',
        _sparse_binary_op_intersection_kernel_out x y is_commutative res
        = (inl e, res') ->
        res' = res).
Proof.
  split; [| split].
  - intros Hnot. unfold _sparse_binary_op_intersection_kernel_out, bind, TORCH_CHECK.
    destruct (inputs_ok x y) eqn:Hok; [| reflexivity].
    exfalso. apply Hnot, inputs_ok_spec, Hok.
  - intros shape Hok Hshape Hcast.
    unfold _sparse_binary_op_intersection_kernel_out, bind, TORCH_CHECK.
    rewrite Hok, Hshape. unfold ret at 1, lift, ret at 1.
    destruct (select_widths x y shape) as [hw ow'].
    unfold _sparse_binary_op_intersection_kernel_impl, bind, gets, TORCH_CHECK.
    rewrite Hcast. reflexivity.
  - intros e res'.
    unfold _sparse_binary_op_intersection_kernel_out, bind, TORCH_CHECK.
    destruct (inputs_ok x y);
      [| unfold raise; intros H; injection H as _ <-; reflexivity].
    unfold ret at 1.
    destruct (infer_size (sizes x) (sizes y)) as [shape |];
      [| unfold lift, raise; intros H; injection H as _ <-; reflexivity].
    unfold lift, ret at 1.
    destruct (select_widths x y shape) as [hw ow'].
    apply kernel_impl_failure_unchanged.
Qed.

(** Reduction to [n] bits is compatible with multiplication. *)
(** The loop that computes [max_hash_val], started at dimension
    [length pre] with the product so far. *)
Lemma max_hash_fold (rest : list Z) :
  forall (n : nat) (pre : list Z) (acc0 : Z),
    (n <= length rest)%nat ->
    fold_left (fun acc d => mul_w W64 acc (nth d (pre ++ rest) 0))
              (seq (length pre) n) (cast W64 acc0)
    = cast W64 (acc0 * numel (firstn n rest)).
Proof.
  induction rest as [| s rest IH]; intros n pre acc0 Hn.
  - cbn in Hn. assert (n = 0%nat) by lia. subst n. cbn. f_equal. lia.
  - destruct n as [| n]; [cbn; f_equal; lia |].
    cbn [seq fold_left firstn]. rewrite nth_middle_length.
    unfold mul_w at 2. rewrite cast_mul_l.
    replace (pre ++ s :: rest) with ((pre ++ [s]) ++ rest)
      by (rewrite <- app_assoc; reflexivity).
    replace (S (length pre)) with (length (pre ++ [s]))
      by (rewrite length_app; cbn; lia).
    rewrite IH by (cbn in Hn; lia).
    rewrite numel_cons. f_equal. ring.
Qed.

Lemma max_hash_val_exact (x : Tensor) (shape : list Z) :
  0 <= sparse_dim x <= zlen shape ->
  max_hash_val x shape = cast W64 (numel (slice_prefix shape (sparse_dim x))).
Proof.
  intros Hsd. unfold max_hash_val, slice_prefix.
  pose proof (max_hash_fold shape (Z.to_nat (sparse_dim x)) [] 1) as H.
  cbn [app length] in H. rewrite cast_idem_1 in H.
  rewrite H by (unfold zlen in Hsd; lia).
  f_equal. lia.
Qed.

Lemma select_widths_fst (x y : Tensor) (shape : list Z) :
  fst (select_widths x y shape)
  = if is_max_hash_32bits x shape then W32 else W64.
Proof.
  unfold select_widths.
  destruct (is_max_hash_32bits x shape), (is_max_offset_32bits x y); reflexivity.
Qed.

Lemma select_widths_snd (x y : Tensor) (shape : list Z) :
  snd (select_widths x y shape)
  = if is_max_offset_32bits x y then W32 else W64.
Proof.
  unfold select_widths.
  destruct (is_max_hash_32bits x shape), (is_max_offset_32bits x y); reflexivity.
Qed.

(** The two tests of the width selection, when the two products are
    representable in [int64_t]. *)
Lemma select_widths_spec (x y : Tensor) (shape : list Z) :
  0 <= sparse_dim x <= zlen shape ->
  - INT64_MAX - 1 <= numel (slice_prefix shape (sparse_dim x)) <= INT64_MAX ->
  _nnz x * _nnz y <= INT64_MAX ->
  (fst (select_widths x y shape) = W32
   <-> numel (slice_prefix shape (sparse_dim x)) <= INT_MAX)
  /\ (snd (select_widths x y shape) = W32 <-> _nnz x * _nnz y <= INT_MAX).
Proof.
  intros Hsd Hnumel Hnnz.
  pose proof (nnz_nonneg x). pose proof (nnz_nonneg y).
  split.
  - rewrite select_widths_fst. unfold is_max_hash_32bits.
    rewrite (max_hash_val_exact x shape Hsd).
    rewrite cast_small by (unfold INT64_MAX in Hnumel; lia).
    destruct (numel (slice_prefix shape (sparse_dim x)) <=? INT_MAX) eqn:Hle.
    + apply Z.leb_le in Hle. tauto.
    + apply Z.leb_gt in Hle. split; [discriminate | lia].
  - rewrite select_widths_snd. unfold is_max_offset_32bits.
    rewrite mul_w_small by (unfold INT64_MAX in Hnnz; nia).
    destruct (_nnz x * _nnz y <=? INT_MAX) eqn:Hle.
    + apply Z.leb_le in Hle. tauto.
    + apply Z.leb_gt in Hle. split; [discriminate | lia].
Qed.

(** C9. Width selection rule: when the product of the first [sparse_dim]
    entries of the broadcasted shape and the product of the two nonzero
    counts are representable in [int64_t], 32-bit hashes are used iff the
    first product is at most the largest [int], 32-bit offsets iff the
    second is, each choice depending on its own bound only; the entry point
    calls the kernel with the two widths so chosen; and each of the four
    combinations of widths is selected for some pair of inputs. *)
Theorem width_selection (x y : Tensor) (shape : list Z) :
  0 <= sparse_dim x <= zlen shape ->
  - INT64_MAX - 1 <= numel (slice_prefix shape (sparse_dim x)) <= INT64_MAX ->
  _nnz x * _nnz y <= INT64_MAX ->
  (fst (select_widths x y shape) = W32
   <-> numel (slice_prefix shape (sparse_dim x)) <= INT_MAX)
  /\ (snd (select_widths x y shape) = W32 <-> _nnz x * _nnz y <= INT_MAX)
  /\ (forall is_commutative res,
        inputs_ok x y = true ->
        infer_size (sizes x) (sizes y) = Some shape ->
        _sparse_binary_op_intersection_kernel_out x y is_commutative res
        = _sparse_binary_op_intersection_kernel_impl
            (fst (select_widths x y shape)) (snd (select_widths x y shape))
            x y shape is_commutative res)
  /\ (forall (d : dtype) (r : Row) (hash_t offset_t : width),
        select_widths (width_example d r hash_t offset_t)
                      (width_example d r hash_t offset_t)
                      (sizes (width_example d r hash_t offset_t))
        = (hash_t, offset_t)
        /\ inputs_ok (width_example d r hash_t offset_t)
                     (width_example d r hash_t offset_t) = true
        /\ infer_size (sizes (width_example d r hash_t offset_t))
                      (sizes (width_example d r hash_t offset_t))
           = Some (sizes (width_example d r hash_t offset_t))).
Proof.
  intros Hsd Hnumel Hnnz.
  destruct (select_widths_spec x y shape Hsd Hnumel Hnnz) as (Hh & Ho).
  split; [exact Hh |]. split; [exact Ho |]. split.
  - intros is_commutative res Hok Hshape.
    unfold _sparse_binary_op_intersection_kernel_out, bind, TORCH_CHECK.
    rewrite Hok, Hshape. unfold ret at 1, lift, ret at 1.
    destruct (select_widths x y shape) as [hw ow']. reflexivity.
  - intros d r hash_t offset_t. destruct hash_t, offset_t; vm_compute; auto.
Qed.

(* ===================================================================== *)
(** ** From the entry point to the kernel's preconditions *)
(* ===================================================================== *)

(** Role selection returns unless its division has a zero divisor. *)
Lemma select_roles_returns (x y : Tensor) :
  xorb (is_coalesced x) (is_coalesced y) = true
  \/ (sparse_dim_numel x <> 0 /\ sparse_dim_numel y <> 0) ->
  exists pc source, select_roles x y = Some (pc, source).
Proof.
  unfold select_roles. intros [Hx | (Hnx & Hny)].
  - rewrite Hx. destruct (is_coalesced x); eauto.
  - apply Z.eqb_neq in Hnx, Hny.
    destruct (xorb (is_coalesced x) (is_coalesced y));
      [destruct (is_coalesced x); eauto |].
    destruct (_nnz x >=? _nnz y); cbv zeta; rewrite ?Hnx, ?Hny;
      match goal with
      | |- context [if ?c then _ else _] => destruct c
      end; eauto.
Qed.

Lemma infer_size_aligned_length (a b r : list Z) :
  infer_size_aligned a b = Some r -> length r = length a.
Proof.
  revert b r. induction a as [| sa a IH]; intros [| sb b] r; cbn;
    try discriminate.
  - intros H. injection H as <-. reflexivity.
  - destruct ((sa =? sb) || (sa =? 1) || (sb =? 1)); [| discriminate].
    destruct (infer_size_aligned a b) as [r' |] eqn:Hr; [| discriminate].
    intros H. injection H as <-. cbn. f_equal. apply (IH b r' Hr).
Qed.

(** Where the two shapes agree, the broadcasted shape agrees with them. *)
Lemma infer_size_aligned_prefix (a b r : list Z) (n : nat) :
  infer_size_aligned a b = Some r -> firstn n a = firstn n b ->
  firstn n r = firstn n a.
Proof.
  revert a b r. induction n as [| n IH]; intros a b r Hr Hp; [reflexivity |].
  destruct a as [| sa a], b as [| sb b]; cbn in Hr; try discriminate.
  - injection Hr as <-. reflexivity.
  - destruct ((sa =? sb) || (sa =? 1) || (sb =? 1)); [| discriminate].
    destruct (infer_size_aligned a b) as [r' |] eqn:Hr'; [| discriminate].
    injection Hr as <-. cbn in Hp |- *. injection Hp as <- Hp.
    rewrite (IH a b r' Hr' Hp).
    destruct (sa =? 1) eqn:H1; [apply Z.eqb_eq in H1; subst |]; reflexivity.
Qed.

Lemma infer_size_same_rank (a b : list Z) :
  length a = length b -> infer_size a b = infer_size_aligned a b.
Proof.
  intros H. unfold infer_size. rewrite H, Nat.max_id, Nat.sub_diag. reflexivity.
Qed.

(** The entry point's checks, the data invariant of the two inputs against
    their own shapes, and representable bounds give the conditions the
    kernel's stages rely on, for the widths the entry point selects. *)
Lemma entry_fits (x y : Tensor) (shape : list Z) :
  inputs_ok x y = true ->
  infer_size (sizes x) (sizes y) = Some shape ->
  well_formed (sizes x) x -> well_formed (sizes y) y ->
  0 <= numel (slice_prefix (sizes x) (sparse_dim x)) <= INT64_MAX ->
  _nnz x * _nnz y <= INT64_MAX ->
  _nnz x <= max_of (fst (select_widths x y shape)) ->
  _nnz y <= max_of (fst (select_widths x y shape)) ->
  fits (fst (select_widths x y shape)) (snd (select_widths x y shape)) shape x y.
Proof.
  intros Hok Hshape Hx Hy Hnumel Hnnz Hnx Hny.
  apply inputs_ok_spec in Hok. destruct Hok as (_ & Hdim & Hsd & Hprefix).
  assert (Hrank : length (sizes x) = length (sizes y)).
  { unfold dim, zlen in Hdim. lia. }
  rewrite (infer_size_same_rank _ _ Hrank) in Hshape.
  pose proof (infer_size_aligned_length _ _ _ Hshape) as Hlen.
  assert (Hpx : slice_prefix shape (sparse_dim x)
                = slice_prefix (sizes x) (sparse_dim x)).
  { unfold slice_prefix in *.
    apply (infer_size_aligned_prefix _ _ _ _ Hshape).
    rewrite Hprefix, Hsd. reflexivity. }
  assert (Hpy : slice_prefix shape (sparse_dim y)
                = slice_prefix (sizes y) (sparse_dim y)).
  { rewrite <- Hprefix, <- Hsd. exact Hpx. }
  assert (Hwx : well_formed shape x).
  { destruct Hx as [H1 H2 H3 H4 H5]. constructor; try assumption.
    - unfold zlen in *. lia.
    - unfold sparse_shape in *. rewrite Hpx. exact H4. }
  assert (Hwy : well_formed shape y).
  { destruct Hy as [H1 H2 H3 H4 H5]. constructor; try assumption.
    - unfold zlen in *. lia.
    - unfold sparse_shape in *. rewrite Hpy. exact H4. }
  pose proof Hwx as [Hsdx Hsdle _ _ _].
  destruct (select_widths_spec x y shape) as (Hh & Ho);
    [lia | rewrite Hpx; unfold INT64_MAX in *; lia | exact Hnnz |].
  constructor; try assumption.
  - symmetry. exact Hsd.
  - unfold sparse_shape.
    destruct (fst (select_widths x y shape)) eqn:Hw.
    + apply Hh. reflexivity.
    + rewrite Hpx. apply Hnumel.
  - rewrite Z.mul_comm.
    destruct (snd (select_widths x y shape)) eqn:Hw.
    + apply Ho. reflexivity.
    + exact Hnnz.
Qed.

(** The entry point on valid inputs: it returns, and [res] holds the
    assembled tensor for the widths it selects. *)
Lemma kernel_out_runs (x y : Tensor) (shape : list Z) (is_commutative : bool)
    (res pc source : Tensor) :
  inputs_ok x y = true ->
  infer_size (sizes x) (sizes y) = Some shape ->
  well_formed (sizes x) x -> well_formed (sizes y) y ->
  0 <= numel (slice_prefix (sizes x) (sparse_dim x)) <= INT64_MAX ->
  _nnz x * _nnz y <= INT64_MAX ->
  _nnz x <= max_of (fst (select_widths x y shape)) ->
  _nnz y <= max_of (fst (select_widths x y shape)) ->
  canCast (result_type x y) (scalar_type res) = true ->
  select_roles (if is_commutative then x else coalesce x)
               (if is_commutative then y else coalesce y) = Some (pc, source) ->
  exists rows,
    Forall2 (row_of_pair (scalar_type res) source pc)
            (kernel_pairs (fst (select_widths x y shape)) shape pc source) rows
    /\ _sparse_binary_op_intersection_kernel_out x y is_commutative res
       = (inr tt, assembled (fst (select_widths x y shape))
                      (snd (select_widths x y shape)) shape pc source res rows).
Proof.
  intros Hok Hshape Hx Hy Hnumel Hnnz Hnx Hny Hcast Hroles.
  pose proof (entry_fits x y shape Hok Hshape Hx Hy Hnumel Hnnz Hnx Hny) as F.
  destruct (kernel_impl_runs _ _ x y shape is_commutative res pc source
              Hcast F Hroles) as (_ & rows & Hrows & Hrun).
  exists rows. split; [exact Hrows |].
  unfold _sparse_binary_op_intersection_kernel_out, bind, TORCH_CHECK.
  rewrite Hok, Hshape. unfold ret at 1, lift, ret at 1.
  rewrite <- Hrun.
  destruct (select_widths x y shape) as [hw ow']. reflexivity.
Qed.

(* ===================================================================== *)
(** ** Further properties of [find_bound] *)
(* ===================================================================== *)

(** The loop with its reads returns what the loop returns, reads only
    positions of [first, first + count), and halves [count] every round. *)
Lemma find_bound_reads_spec (is_lower : bool) (a : list Z) (value : Z) :
  forall (fuel : nat) (first count : Z),
    (Z.to_nat count <= fuel)%nat ->
    snd (find_bound_reads is_lower a value fuel first count)
    = find_bound_loop is_lower a value fuel first count
    /\ Forall (fun it => first <= it < first + count)
              (fst (find_bound_reads is_lower a value fuel first count))
    /\ Z.of_nat (length (fst (find_bound_reads is_lower a value fuel first count)))
       <= Z.log2 (2 * count)
    /\ (count <= 0 -> find_bound_reads is_lower a value fuel first count = ([], first)).
Proof.
  induction fuel as [| fuel IH]; intros first count Hfuel.
  - cbn. repeat split; try constructor. apply Z.log2_nonneg.
  - cbn [find_bound_reads find_bound_loop].
    destruct (count >? 0) eqn:Hpos.
    + apply Z.gtb_lt in Hpos.
      pose proof (quot2_bounds count Hpos) as Hstep.
      assert (Hhalf : 2 * Z.quot count 2 <= count
                      /\ 2 * (count - (Z.quot count 2 + 1)) <= count).
      { rewrite Z.quot_div_nonneg by lia.
        pose proof (Z.div_mod count 2 ltac:(lia)).
        pose proof (Z.mod_pos_bound count 2 ltac:(lia)). lia. }
      set (step := Z.quot count 2) in *.
      assert (Hlog : forall c, c <= step \/ c <= count - (step + 1) ->
                Z.log2 (2 * c) + 1 <= Z.log2 (2 * count)).
      { intros c Hc. destruct (Z_le_gt_dec c 0) as [Hc0 | Hc0].
        - rewrite (Z.log2_nonpos (2 * c)) by lia.
          pose proof (Z.log2_double count Hpos).
          pose proof (Z.log2_nonneg count). lia.
        - pose proof (Z.log2_double (2 * c) ltac:(lia)) as Hd.
          pose proof (Z.log2_le_mono (2 * (2 * c)) (2 * count) ltac:(lia)). lia. }
      destruct (bound_test is_lower (deref a (first + step)) value).
      * destruct (IH (first + step + 1) (count - (step + 1)) ltac:(lia))
          as (Hr & Hreads & Hlen & _).
        cbn [fst snd length]. split; [exact Hr |]. split; [| split; [| lia]].
        -- constructor; [lia |].
           eapply Forall_impl; [| exact Hreads]. cbn. intros it Hit. lia.
        -- specialize (Hlog (count - (step + 1)) ltac:(lia)). lia.
      * destruct (IH first step ltac:(lia)) as (Hr & Hreads & Hlen & _).
        cbn [fst snd length]. split; [exact Hr |]. split; [| split; [| lia]].
        -- constructor; [lia |].
           eapply Forall_impl; [| exact Hreads]. cbn. intros it Hit. lia.
        -- specialize (Hlog step ltac:(lia)). lia.
    + cbn [fst snd length]. repeat split; try constructor. apply Z.log2_nonneg.
Qed.

(** The result of the loop depends on the array only through the positions
    of [first, first + count). *)
Lemma find_bound_loop_ext (is_lower : bool) (a b : list Z) (value : Z) :
  forall (fuel : nat) (first count : Z),
    (forall i, first <= i < first + count -> deref a i = deref b i) ->
    find_bound_loop is_lower a value fuel first count
    = find_bound_loop is_lower b value fuel first count.
Proof.
  induction fuel as [| fuel IH]; intros first count Hab; [reflexivity |].
  cbn [find_bound_loop].
  destruct (count >? 0) eqn:Hpos; [| reflexivity].
  apply Z.gtb_lt in Hpos.
  pose proof (quot2_bounds count Hpos) as Hstep.
  rewrite <- (Hab (first + Z.quot count 2)) by lia.
  destruct (bound_test is_lower (deref a (first + Z.quot count 2)) value);
    apply IH; intros i Hi; apply Hab; lia.
Qed.

(** Whatever the array holds, the loop returns a position of
    [first, first + count]. *)
Lemma find_bound_loop_range (is_lower : bool) (a : list Z) (value : Z) :
  forall (fuel : nat) (first count : Z),
    0 <= count ->
    first <= find_bound_loop is_lower a value fuel first count <= first + count.
Proof.
  induction fuel as [| fuel IH]; intros first count Hc; [cbn; lia |].
  cbn [find_bound_loop].
  destruct (count >? 0) eqn:Hpos; [| lia].
  apply Z.gtb_lt in Hpos.
  pose proof (quot2_bounds count Hpos) as Hstep.
  destruct (bound_test is_lower (deref a (first + Z.quot count 2)) value).
  - specialize (IH (first + Z.quot count 2 + 1) (count - (Z.quot count 2 + 1))
                   ltac:(lia)). lia.
  - specialize (IH first (Z.quot count 2) ltac:(lia)). lia.
Qed.

(** X1. [find_bound] is memory safe on any array, sorted or not: every
    position it dereferences lies in [first, last), its result lies in
    [first, last] (it is [first], with no read at all, for an empty range),
    and the result depends on the array only through the elements of
    [first, last). *)
Theorem find_bound_reads_in_range (is_lower : bool) (a : list Z)
    (first last value : Z) :
  let run :=
    find_bound_reads is_lower a value (Z.to_nat (last - first)) first
      (last - first) in
  snd run = find_bound is_lower a first last value
  /\ Forall (fun it => first <= it < last) (fst run)
  /\ (first <= last -> first <= find_bound is_lower a first last value <= last)
  /\ (last <= first ->
      fst run = [] /\ find_bound is_lower a first last value = first)
  /\ (forall b : list Z,
        (forall i, first <= i < last -> deref a i = deref b i) ->
        find_bound is_lower b first last value
        = find_bound is_lower a first last value).
Proof.
  cbv zeta.
  destruct (find_bound_reads_spec is_lower a value (Z.to_nat (last - first))
              first (last - first) (Nat.le_refl _)) as (Hr & Hreads & _ & Hempty).
  fold (find_bound is_lower a first last value) in Hr.
  split; [exact Hr |].
  split; [eapply Forall_impl; [| exact Hreads]; cbn; intros it Hit; lia |].
  split; [| split].
  - intros Hle. unfold find_bound. cbv zeta.
    pose proof (find_bound_loop_range is_lower a value (Z.to_nat (last - first))
                  first (last - first) ltac:(lia)). lia.
  - intros Hle. rewrite <- Hr, Hempty by lia. split; reflexivity.
  - intros b Hab. unfold find_bound. cbv zeta. symmetry.
    apply find_bound_loop_ext. intros i Hi. apply Hab. lia.
Qed.

Lemma log2_succ_nonpos (count : Z) : count <= 0 -> Z.log2 (count + 1) = 0.
Proof.
  intros H. pose proof (Z.log2_le_mono (count + 1) 1 ltac:(lia)) as Hle.
  pose proof (Z.log2_nonneg (count + 1)). change (Z.log2 1) with 0 in Hle. lia.
Qed.

(** Every round at most halves [count + 1]. *)
Lemma find_bound_reads_lower (is_lower : bool) (a : list Z) (value : Z) :
  forall (fuel : nat) (first count : Z),
    (Z.to_nat count <= fuel)%nat ->
    Z.log2 (count + 1)
    <= Z.of_nat (length (fst (find_bound_reads is_lower a value fuel first count))).
Proof.
  induction fuel as [| fuel IH]; intros first count Hfuel.
  - cbn. rewrite log2_succ_nonpos by lia. lia.
  - cbn [find_bound_reads].
    destruct (count >? 0) eqn:Hpos.
    + apply Z.gtb_lt in Hpos.
      pose proof (quot2_bounds count Hpos) as Hstep.
      assert (Hhalf : 2 * Z.quot count 2 <= count <= 2 * Z.quot count 2 + 1).
      { rewrite Z.quot_div_nonneg by lia.
        pose proof (Z.div_mod count 2 ltac:(lia)).
        pose proof (Z.mod_pos_bound count 2 ltac:(lia)). lia. }
      set (step := Z.quot count 2) in *.
      assert (Hlog : forall c, count <= 2 * c + 2 -> 0 <= c ->
                Z.log2 (count + 1) <= Z.log2 (c + 1) + 1).
      { intros c Hc Hc0.
        pose proof (Z.log2_succ_double (c + 1) ltac:(lia)) as Hd.
        pose proof (Z.log2_le_mono (count + 1) (2 * (c + 1) + 1) ltac:(lia)). lia. }
      destruct (bound_test is_lower (deref a (first + step)) value).
      * specialize (IH (first + step + 1) (count - (step + 1)) ltac:(lia)).
        specialize (Hlog (count - (step + 1)) ltac:(lia) ltac:(lia)).
        cbn [fst length]. lia.
      * specialize (IH first step ltac:(lia)).
        specialize (Hlog step ltac:(lia) ltac:(lia)).
        cbn [fst length]. lia.
    + assert (count <= 0) by lia.
      cbn [fst length]. rewrite log2_succ_nonpos by lia. lia.
Qed.

(** X2. [find_bound] is a logarithmic search: on a range of [count > 0]
    positions it dereferences at least [log2 (count + 1)] and at most
    [log2 count + 1] of them, whatever the array holds and for either kind
    of bound; on an empty range it dereferences none. *)
Theorem find_bound_logarithmic (is_lower : bool) (a : list Z)
    (first last value : Z) :
  let count := last - first in
  let reads :=
    fst (find_bound_reads is_lower a value (Z.to_nat count) first count) in
  (0 < count ->
   Z.log2 (count + 1) <= Z.of_nat (length reads) <= Z.log2 count + 1)
  /\ (count <= 0 -> reads = []).
Proof.
  cbv zeta.
  destruct (find_bound_reads_spec is_lower a value (Z.to_nat (last - first))
              first (last - first) (Nat.le_refl _)) as (_ & _ & Hlen & Hempty).
  pose proof (find_bound_reads_lower is_lower a value (Z.to_nat (last - first))
                first (last - first) (Nat.le_refl _)) as Hlow.
  split.
  - intros Hpos. rewrite Z.log2_double in Hlen by exact Hpos. lia.
  - intros Hle. rewrite (Hempty Hle). reflexivity.
Qed.

(** The loop invariant on a range [lo, hi) that the test partitions. *)
Lemma find_bound_loop_partition (is_lower : bool) (a : list Z) (value lo hi : Z) :
  (forall i j, lo <= i <= j /\ j < hi ->
     bound_test is_lower (deref a j) value = true ->
     bound_test is_lower (deref a i) value = true) ->
  forall (fuel : nat) (first count : Z),
    lo <= first -> 0 <= count -> first + count <= hi ->
    (Z.to_nat count <= fuel)%nat ->
    (forall i, lo <= i < first -> bound_test is_lower (deref a i) value = true) ->
    (forall i, first + count <= i < hi ->
       bound_test is_lower (deref a i) value = false) ->
    let r := find_bound_loop is_lower a value fuel first count in
    first <= r <= first + count
    /\ (forall i, lo <= i < r -> bound_test is_lower (deref a i) value = true)
    /\ (forall i, r <= i < hi -> bound_test is_lower (deref a i) value = false).
Proof.
  intros Hmono fuel.
  induction fuel as [| fuel IH]; intros first count Hf Hc Hlen Hfuel Hlo Hhi.
  - assert (count = 0) by lia. subst count. cbn.
    repeat split; try lia; [exact Hlo | intros i Hi; apply Hhi; lia].
  - cbn [find_bound_loop].
    destruct (count >? 0) eqn:Hpos.
    + apply Z.gtb_lt in Hpos.
      pose proof (quot2_bounds count Hpos) as Hstep.
      set (step := Z.quot count 2) in *.
      destruct (bound_test is_lower (deref a (first + step)) value) eqn:Ht.
      * specialize (IH (first + step + 1) (count - (step + 1))).
        cbv zeta in IH.
        destruct IH as (Hr & Hl & Hh); try lia.
        -- intros i Hi. apply (Hmono i (first + step)); [lia | exact Ht].
        -- intros i Hi. apply Hhi. lia.
        -- cbv zeta. repeat split; try lia; assumption.
      * specialize (IH first step). cbv zeta in IH.
        destruct IH as (Hr & Hl & Hh); try lia.
        -- exact Hlo.
        -- intros i Hi.
           destruct (bound_test is_lower (deref a i) value) eqn:Hti; [| reflexivity].
           rewrite (Hmono (first + step) i) in Ht; [discriminate | lia | exact Hti].
        -- cbv zeta. repeat split; try lia; assumption.
    + assert (count = 0) by lia. subst count. cbv zeta.
      repeat split; try lia; [exact Hlo | intros i Hi; apply Hhi; lia].
Qed.

(** X3. [find_bound] is a partition-point search on any sub-range: when
    the loop's test ([*it < value] for a lower bound, [value >= *it] for an
    upper bound) holds on a prefix of [first, last) and fails on the rest,
    the result is the position where it first fails ([last] when it never
    does), and no other position of [first, last] separates the two parts.
    The range need not be sorted, nor be the whole array. *)
Theorem find_bound_partition_point (is_lower : bool) (a : list Z)
    (first last value : Z) :
  first <= last ->
  (forall i j, first <= i <= j /\ j < last ->
     bound_test is_lower (deref a j) value = true ->
     bound_test is_lower (deref a i) value = true) ->
  let r := find_bound is_lower a first last value in
  first <= r <= last
  /\ (forall i, first <= i < r -> bound_test is_lower (deref a i) value = true)
  /\ (forall i, r <= i < last -> bound_test is_lower (deref a i) value = false)
  /\ (forall r', first <= r' <= last ->
        (forall i, first <= i < r' ->
           bound_test is_lower (deref a i) value = true) ->
        (forall i, r' <= i < last ->
           bound_test is_lower (deref a i) value = false) ->
        r' = r).
Proof.
  intros Hle Hmono. cbv zeta. unfold find_bound. cbv zeta.
  destruct (find_bound_loop_partition is_lower a value first last Hmono
              (Z.to_nat (last - first)) first (last - first))
    as (Hr & Hl & Hh); try (intros; lia).
  cbv zeta in Hr, Hl, Hh.
  set (r := find_bound_loop is_lower a value (Z.to_nat (last - first)) first
              (last - first)) in *.
  split; [lia |]. split; [exact Hl |]. split; [exact Hh |].
  intros r' Hr' Hl' Hh'.
  destruct (Z.lt_trichotomy r' r) as [Hlt | [Heq | Hgt]]; [| exact Heq |].
  - specialize (Hl r' ltac:(lia)). specialize (Hh' r' ltac:(lia)). congruence.
  - specialize (Hl' r ltac:(lia)). specialize (Hh r ltac:(lia)). congruence.
Qed.

(** On any array the lower bound is not after the upper bound: the two
    searches take the same rounds until a probed element equals [value],
    where the lower bound goes left and the upper bound goes right. *)
Lemma find_bound_loop_ordered (a : list Z) (value : Z) :
  forall (fuel : nat) (first count : Z),
    0 <= count ->
    find_bound_loop true a value fuel first count
    <= find_bound_loop false a value fuel first count.
Proof.
  induction fuel as [| fuel IH]; intros first count Hc; [cbn; lia |].
  cbn [find_bound_loop].
  destruct (count >? 0) eqn:Hpos; [| lia].
  apply Z.gtb_lt in Hpos.
  pose proof (quot2_bounds count Hpos) as Hstep.
  set (step := Z.quot count 2) in *.
  unfold bound_test.
  destruct (Z.ltb_spec (deref a (first + step)) value) as [Hlt | Hge];
    destruct (Z.geb_spec value (deref a (first + step))) as [Hge' | Hlt'];
    try lia.
  - apply IH. lia.
  - pose proof (find_bound_loop_range true a value fuel first step ltac:(lia)).
    pose proof (find_bound_loop_range false a value fuel (first + step + 1)
                  (count - (step + 1)) ltac:(lia)).
    lia.
  - apply IH. lia.
Qed.

(** X4. The two bounds are ordered on any array, sorted or not: for
    [first <= last], [first <= lower bound <= upper bound <= last]. So the
    record the join stores for a source nonzero always has a nonnegative
    count and a span [first_match, first_match + count) inside the hash
    array, even when the hash array is not sorted (a probe flagged
    coalesced whose columns are not in order), provided the length of the
    array fits [hash_t]. *)
Theorem find_bound_pair_ordered (a : list Z) (first last value : Z) :
  first <= last ->
  (first <= find_bound true a first last value
   /\ find_bound true a first last value <= find_bound false a first last value
   /\ find_bound false a first last value <= last)
  /\ (forall (w : width) (sdim : nat) (coeffs : list Z)
             (source_indices : list (list Z)) (nnz_idx : Z),
        zlen a <= max_of w ->
        let record := intersect_one w sdim coeffs a source_indices nnz_idx in
        0 <= fst record /\ 0 <= snd record
        /\ snd record + fst record <= zlen a).
Proof.
  intros Hle.
  assert (Hgen : forall f l v, f <= l ->
            f <= find_bound true a f l v
            /\ find_bound true a f l v <= find_bound false a f l v
            /\ find_bound false a f l v <= l).
  { intros f l v Hfl. unfold find_bound. cbv zeta.
    pose proof (find_bound_loop_range true a v (Z.to_nat (l - f)) f (l - f)
                  ltac:(lia)).
    pose proof (find_bound_loop_range false a v (Z.to_nat (l - f)) f (l - f)
                  ltac:(lia)).
    pose proof (find_bound_loop_ordered a v (Z.to_nat (l - f)) f (l - f)
                  ltac:(lia)).
    lia. }
  split; [apply Hgen, Hle |].
  intros w sdim coeffs source_indices nnz_idx Hmax. cbv zeta.
  unfold intersect_one. cbv zeta. cbn [fst snd].
  pose proof (zlen_nonneg a) as Hn.
  destruct (Hgen 0 (0 + zlen a)
              (compute_hash w sdim coeffs (column source_indices nnz_idx))
              ltac:(lia)) as (H0 & Hlu & Hu).
  rewrite !cast_nonneg_small by lia. lia.
Qed.

(** X5. The spans of different values do not overlap and are ordered as
    the values are: on a sorted array, for [v1 < v2], the upper bound of
    [v1] is not after the lower bound of [v2]; and both kinds of bound are
    nondecreasing in the value searched for. So source nonzeros with
    different hashes match disjoint parts of the probe. *)
Theorem find_bound_spans_ordered (a : list Z) (v1 v2 : Z) :
  Sorted Z.le a -> v1 < v2 ->
  find_bound false a 0 (zlen a) v1 <= find_bound true a 0 (zlen a) v2
  /\ find_bound true a 0 (zlen a) v1 <= find_bound true a 0 (zlen a) v2
  /\ find_bound false a 0 (zlen a) v1 <= find_bound false a 0 (zlen a) v2
  /\ (forall i,
        ~ (find_bound true a 0 (zlen a) v1 <= i < find_bound false a 0 (zlen a) v1
           /\ find_bound true a 0 (zlen a) v2 <= i
              < find_bound false a 0 (zlen a) v2)).
Proof.
  intros Hs Hlt.
  destruct (find_bound_span a v1 Hs) as (A0 & A1 & A2 & _).
  destruct (find_bound_span a v2 Hs) as (B0 & B1 & B2 & _).
  destruct (find_bound_upper a v1 Hs) as (_ & Hul & _).
  destruct (find_bound_lower a v2 Hs) as (_ & _ & Hlh).
  cbv zeta in *.
  set (lb1 := find_bound true a 0 (zlen a) v1) in *.
  set (ub1 := find_bound false a 0 (zlen a) v1) in *.
  set (lb2 := find_bound true a 0 (zlen a) v2) in *.
  set (ub2 := find_bound false a 0 (zlen a) v2) in *.
  assert (Hsep : ub1 <= lb2).
  { destruct (Z_le_gt_dec ub1 lb2) as [Hle | Hgt]; [exact Hle |].
    specialize (Hul lb2 ltac:(lia)). specialize (Hlh lb2 ltac:(lia)). lia. }
  repeat split; lia.
Qed.

(* ===================================================================== *)
(** ** Further properties of role selection *)
(* ===================================================================== *)

Lemma numel_zero (l : list Z) : In 0 l -> numel l = 0.
Proof.
  induction l as [| s l IH]; intros H; [destruct H |].
  rewrite numel_cons. destruct H as [-> | H]; [lia | rewrite (IH H); lia].
Qed.

Lemma cast_W32_zero (n : Z) : cast W32 n = 0 <-> n mod 2 ^ 32 = 0.
Proof.
  unfold cast, wrap. cbn [bits].
  change (2 ^ (32 - 1)) with 2147483648. change (2 ^ 32) with 4294967296.
  pose proof (Z.div_mod (n + 2147483648) 4294967296 ltac:(lia)) as Hd.
  pose proof (Z.mod_pos_bound (n + 2147483648) 4294967296 ltac:(lia)) as Hb.
  split; intros H.
  - assert (Hn : n = ((n + 2147483648) / 4294967296) * 4294967296) by lia.
    rewrite Hn. apply Z.mod_mul. lia.
  - apply Z.mod_divide in H; [| lia]. destruct H as (q & ->).
    rewrite Z.add_comm, Z_mod_plus_full. reflexivity.
Qed.

(** X6. Role selection divides by zero exactly when the two inputs have
    the same coalesced flag and the number of points of the sparse shape of
    the larger one ([x] when the nonzero counts are equal) is 0 once stored
    in the [int] accumulator, that is, is a multiple of [2^32]: in
    particular whenever one of its sparse dimensions has size 0. The kernel
    then stops in an undefined operation, before any write to [res]. *)
Theorem role_selection_division_by_zero (x y : Tensor) :
  (forall t, sparse_dim_numel t
             = cast W32 (numel (slice_prefix (sizes t) (sparse_dim t))))
  /\ (forall n, cast W32 n = 0 <-> n mod 2 ^ 32 = 0)
  /\ (select_roles x y = None
      <-> is_coalesced x = is_coalesced y
          /\ cast W32 (numel (slice_prefix
                                (sizes (if _nnz x >=? _nnz y then x else y))
                                (sparse_dim (if _nnz x >=? _nnz y then x else y))))
             = 0)
  /\ (is_coalesced x = is_coalesced y ->
      In 0 (slice_prefix (sizes (if _nnz x >=? _nnz y then x else y))
                         (sparse_dim (if _nnz x >=? _nnz y then x else y))) ->
      select_roles x y = None)
  /\ (forall (w ow : width) (shape : list Z) (res : Tensor),
        canCast (result_type x y) (scalar_type res) = true ->
        select_roles x y = None ->
        _sparse_binary_op_intersection_kernel_impl w ow x y shape true res
        = (inl Undefined, res)).
Proof.
  assert (Hiff : select_roles x y = None
                 <-> is_coalesced x = is_coalesced y
                     /\ cast W32 (numel (slice_prefix
                           (sizes (if _nnz x >=? _nnz y then x else y))
                           (sparse_dim (if _nnz x >=? _nnz y then x else y))))
                        = 0).
  { rewrite <- sparse_dim_numel_exact. unfold select_roles.
    destruct (is_coalesced x), (is_coalesced y); cbn [xorb];
      try (split; [discriminate | intros [H _]; discriminate H]);
      destruct (_nnz x >=? _nnz y); cbv zeta;
      match goal with
      | |- context [sparse_dim_numel ?t =? 0] =>
          destruct (Z.eqb_spec (sparse_dim_numel t) 0) as [He | Hne]
      end;
      try (split; [intros _; split; [reflexivity | exact He] | reflexivity]);
      match goal with
      | |- context [if ?c then _ else _] => destruct c
      end;
      (split; [discriminate | intros [_ H]; contradiction]). }
  split; [exact sparse_dim_numel_exact |].
  split; [exact cast_W32_zero |].
  split; [exact Hiff |]. split.
  - intros Hflag Hin. apply Hiff. split; [exact Hflag |].
    rewrite (numel_zero _ Hin). reflexivity.
  - intros w ow shape res Hcast Hnone.
    unfold _sparse_binary_op_intersection_kernel_impl, bind, gets, TORCH_CHECK.
    rewrite Hcast. unfold ret at 1. rewrite Hnone. reflexivity.
Qed.

(** Coalescing a tensor whose columns are already in strictly increasing
    order, with the flag set, changes nothing. *)
Lemma coalesce_insert_last (c : list Z) (v : Row) (l : list (list Z * Row)) :
  Forall (fun k => lex_lt k c) (map fst l) ->
  coalesce_insert c v l = l ++ [(c, v)].
Proof.
  induction l as [| [c' v'] l IH]; intros H; [reflexivity |].
  cbn in H. inversion H as [| ? ? Hlt Hrest]; subst.
  cbn [coalesce_insert app].
  rewrite lex_compare_antisym. unfold lex_lt in Hlt. rewrite Hlt. cbn [CompOpp].
  rewrite (IH Hrest). reflexivity.
Qed.

Lemma strongly_sorted_before (l1 : list (list Z)) (c : list Z) (l2 : list (list Z)) :
  StronglySorted lex_lt (l1 ++ c :: l2) -> Forall (fun k => lex_lt k c) l1.
Proof.
  induction l1 as [| k l1 IH]; intros H; [constructor |].
  cbn in H. inversion H as [| ? ? Hs Hall]; subst.
  constructor; [| apply IH, Hs].
  rewrite Forall_forall in Hall. apply Hall, in_elt.
Qed.

Lemma coalesce_fold_sorted (pairs : list (list Z * Row)) :
  forall acc,
    StronglySorted lex_lt (map fst (acc ++ pairs)) ->
    fold_left (fun acc cv => coalesce_insert (fst cv) (snd cv) acc) pairs acc
    = acc ++ pairs.
Proof.
  induction pairs as [| [c v] pairs IH]; intros acc Hs; cbn [fold_left fst snd].
  - rewrite app_nil_r. reflexivity.
  - rewrite coalesce_insert_last.
    + rewrite IH; rewrite <- app_assoc; [reflexivity | exact Hs].
    + rewrite map_app in Hs. cbn [map fst] in Hs.
      apply (strongly_sorted_before _ _ _ Hs).
Qed.

Lemma coalesce_sorted_id (t : Tensor) :
  length (_indices t) = length (vrows (_values t)) ->
  StronglySorted lex_lt (_indices t) -> is_coalesced t = true ->
  coalesce t = t.
Proof.
  intros Hlen Hs Hco. unfold coalesce, coalesce_pairs.
  rewrite coalesce_fold_sorted
    by (cbn [app]; rewrite (map_fst_combine _ _ Hlen); exact Hs).
  cbn [app]. rewrite (map_fst_combine _ _ Hlen), (map_snd_combine _ _ Hlen).
  destruct t as [sp st sd dd sz idx [vd vr] co]. cbn in *. subst co. reflexivity.
Qed.

Lemma coalesce_idempotent (t : Tensor) :
  length (_indices t) = length (vrows (_values t)) ->
  coalesce (coalesce t) = coalesce t.
Proof.
  intros Hlen. destruct (coalesce_spec t Hlen) as (Hs & _ & Hl & _).
  apply coalesce_sorted_id; [exact Hl | exact Hs | reflexivity].
Qed.

(** X7. The order of the two inputs matters to role selection only at a
    tie: when the operands' coalesced flags differ or their nonzero counts
    differ, swapping the inputs selects the same probe and the same source,
    and the kernel (for a commutative or a non-commutative operator alike)
    leaves the same outcome and the same [res] when [result_type] does not
    depend on the order either; when flags and counts are both equal the
    second operand is the source and the first one the probe (coalesced or
    not). *)
Theorem role_selection_swap (x_ y_ : Tensor) (is_commutative : bool) :
  let x := if is_commutative then x_ else coalesce x_ in
  let y := if is_commutative then y_ else coalesce y_ in
  (is_coalesced x <> is_coalesced y \/ _nnz x <> _nnz y ->
   select_roles x y = select_roles y x
   /\ (forall (w ow : width) (shape : list Z) (res : Tensor),
         result_type x_ y_ = result_type y_ x_ ->
         _sparse_binary_op_intersection_kernel_impl w ow x_ y_ shape
           is_commutative res
         = _sparse_binary_op_intersection_kernel_impl w ow y_ x_ shape
             is_commutative res))
  /\ (is_coalesced x = is_coalesced y -> _nnz x = _nnz y ->
      forall pc source,
        select_roles x y = Some (pc, source) ->
        source = y /\ (pc = x \/ pc = coalesce x)).
Proof.
  cbv zeta.
  set (x := if is_commutative then x_ else coalesce x_).
  set (y := if is_commutative then y_ else coalesce y_).
  split.
  - intros Hdiff.
    assert (Hsel : select_roles x y = select_roles y x).
    { unfold select_roles. rewrite (xorb_comm (is_coalesced y)).
      destruct (is_coalesced x) eqn:Hx, (is_coalesced y) eqn:Hy; cbn [xorb];
        try reflexivity;
        (destruct Hdiff as [Hd | Hd]; [congruence |]);
        destruct (Z.geb_spec (_nnz x) (_nnz y)), (Z.geb_spec (_nnz y) (_nnz x));
        try lia; reflexivity. }
    split; [exact Hsel |].
    intros w ow shape res Hty.
    unfold _sparse_binary_op_intersection_kernel_impl.
    fold x. fold y. rewrite Hty, Hsel. reflexivity.
  - intros Hflag Hnnz pc source. unfold select_roles.
    rewrite Hflag, xorb_nilpotent.
    replace (_nnz x >=? _nnz y) with true by (symmetry; apply Z.geb_le; lia).
    cbv zeta.
    destruct (sparse_dim_numel x =? 0); [discriminate |].
    destruct (Z.quot (_nnz x) (sparse_dim_numel x) >? MAX_COPIES_PER_THREAD);
      intros H; injection H as <- <-; auto.
Qed.

(** X8. No sort call when an input is coalesced: if role selection returns
    and at least one of its two operands is coalesced, the probe is
    coalesced, and the sort stage returns the probe's hash array itself
    with the positions [0, ..., nnz - 1] as [argsort]; the source is always
    one of the two operands, unchanged. Only when neither operand is
    coalesced, and the larger one is not coalesced on the way, the hash
    array goes through [sort]. *)
Theorem coalesced_operand_skips_sort (w : width) (x y pc source : Tensor)
    (shape : list Z) :
  select_roles x y = Some (pc, source) ->
  (source = x \/ source = y)
  /\ (is_coalesced x || is_coalesced y = true -> is_coalesced pc = true)
  /\ (is_coalesced pc = true ->
      sorted_and_argsort w pc source shape
      = (probably_coalesced_indices_hash w pc source shape, arange (_nnz pc)))
  /\ (is_coalesced pc = false ->
      is_coalesced x = false /\ is_coalesced y = false
      /\ ((pc = x /\ source = y) \/ (pc = y /\ source = x))
      /\ sorted_and_argsort w pc source shape
         = sort (probably_coalesced_indices_hash w pc source shape)).
Proof.
  intros Hroles.
  pose proof (select_roles_cases x y pc source Hroles) as Hcases.
  split; [destruct Hcases as [(_ & ->) | (_ & ->)]; auto |].
  split; [| split].
  - revert Hroles. unfold select_roles.
    destruct (is_coalesced x) eqn:Hx, (is_coalesced y) eqn:Hy; cbn [xorb orb];
      try discriminate;
      try (intros H _; injection H as <- <-; assumption);
      destruct (_nnz x >=? _nnz y); cbv zeta;
      match goal with
      | |- context [sparse_dim_numel ?t =? 0] =>
          destruct (sparse_dim_numel t =? 0); [discriminate |];
          destruct (Z.quot (_nnz t) (sparse_dim_numel t) >? MAX_COPIES_PER_THREAD)
      end;
      intros H _; injection H as <- <-; cbn [coalesce is_coalesced];
      first [reflexivity | assumption].
  - intros Hco. unfold sorted_and_argsort. rewrite Hco.
    unfold nnz_arange. pose proof (nnz_nonneg pc). pose proof (nnz_nonneg source).
    rewrite narrow_arange by lia. reflexivity.
  - intros Hco.
    assert (Hsort : sorted_and_argsort w pc source shape
                    = sort (probably_coalesced_indices_hash w pc source shape)).
    { unfold sorted_and_argsort. rewrite Hco. reflexivity. }
    revert Hroles. unfold select_roles.
    destruct (is_coalesced x) eqn:Hx, (is_coalesced y) eqn:Hy; cbn [xorb];
      try (intros H; injection H as <- <-; congruence);
      destruct (_nnz x >=? _nnz y); cbv zeta;
      match goal with
      | |- context [sparse_dim_numel ?t =? 0] =>
          destruct (sparse_dim_numel t =? 0); [discriminate |];
          destruct (Z.quot (_nnz t) (sparse_dim_numel t) >? MAX_COPIES_PER_THREAD)
      end;
      intros H; injection H as <- <-; cbn [coalesce is_coalesced] in Hco;
      try congruence; auto 6.
Qed.

(** *** Eager coalescing and the pigeonhole principle *)

Lemma length_count_filter (l : list Z) (v : Z) :
  length l
  = (count_occ Z.eq_dec l v + length (filter (fun x => negb (Z.eqb x v)) l))%nat.
Proof.
  induction l as [| x l IH]; [reflexivity |].
  cbn [count_occ filter length].
  destruct (Z.eq_dec x v) as [-> | Hne].
  - rewrite Z.eqb_refl. cbn [negb]. lia.
  - replace (x =? v) with false by (symmetry; apply Z.eqb_neq, Hne).
    cbn [negb length]. lia.
Qed.

Lemma count_occ_filter_le (f : Z -> bool) (l : list Z) (u : Z) :
  (count_occ Z.eq_dec (filter f l) u <= count_occ Z.eq_dec l u)%nat.
Proof.
  induction l as [| x l IH]; [cbn; lia |].
  cbn [filter count_occ].
  destruct (f x); cbn [count_occ]; destruct (Z.eq_dec x u); lia.
Qed.

(** A list of [n] values, all in [0, N), none repeated more than [b]
    times, has at most [N * b] elements. *)
Lemma length_le_count_bound (b : nat) :
  forall (N : nat) (l : list Z),
    (forall v, In v l -> 0 <= v < Z.of_nat N) ->
    (forall v, (count_occ Z.eq_dec l v <= b)%nat) ->
    (length l <= N * b)%nat.
Proof.
  induction N as [| N IH]; intros l Hrange Hcount.
  - destruct l as [| v l]; [cbn; lia |].
    specialize (Hrange v (or_introl eq_refl)). lia.
  - rewrite (length_count_filter l (Z.of_nat N)).
    specialize (IH (filter (fun x => negb (Z.eqb x (Z.of_nat N))) l)).
    assert (Hlen : (length (filter (fun x => negb (Z.eqb x (Z.of_nat N))) l)
                    <= N * b)%nat).
    { apply IH.
      - intros v Hv. apply filter_In in Hv. destruct Hv as (Hin & Hne).
        apply negb_true_iff, Z.eqb_neq in Hne.
        specialize (Hrange v Hin). lia.
      - intros v. pose proof (count_occ_filter_le
                                (fun x => negb (Z.eqb x (Z.of_nat N))) l v).
        specialize (Hcount v). lia. }
    specialize (Hcount (Z.of_nat N)). lia.
Qed.

(** Pigeonhole: [q * numel] columns of a coordinate space hold some
    coordinate at least [q] times. *)
Lemma pigeonhole_columns (space : list Z) (l : list (list Z)) (q : nat) :
  Forall (in_bounds space) l -> (1 <= q)%nat -> 0 < numel space ->
  Z.of_nat q * numel space <= zlen l ->
  exists c, In c l /\ (q <= count_occ (list_eq_dec Z.eq_dec) l c)%nat.
Proof.
  intros Hb Hq Hpos Hn.
  destruct (Exists_dec
              (fun c => (q <= count_occ (list_eq_dec Z.eq_dec) l c)%nat) l
              (fun c => le_dec q (count_occ (list_eq_dec Z.eq_dec) l c)))
    as [Hex | Hnex].
  - apply Exists_exists in Hex. exact Hex.
  - exfalso. apply Forall_Exists_neg in Hnex. rewrite Forall_forall in Hnex, Hb.
    set (h := map (linear_offset space) l).
    assert (Hrange : forall v, In v h -> 0 <= v < Z.of_nat (Z.to_nat (numel space))).
    { intros v Hv. apply in_map_iff in Hv. destruct Hv as (c & <- & Hc).
      pose proof (linear_offset_bounds space c (Hb c Hc)). lia. }
    assert (Hcount : forall v, (count_occ Z.eq_dec h v <= q - 1)%nat).
    { intros v. destruct (in_dec Z.eq_dec v h) as [Hin | Hnin].
      - apply in_map_iff in Hin. destruct Hin as (c & <- & Hc).
        unfold h.
        rewrite (count_occ_map_in (list_eq_dec Z.eq_dec) Z.eq_dec
                   (linear_offset space) l c).
        + specialize (Hnex c Hc). lia.
        + intros c' Hc' He.
          apply (linear_offset_inj space); [apply Hb, Hc' | apply Hb, Hc | exact He].
      - apply (count_occ_not_In Z.eq_dec) in Hnin. lia. }
    pose proof (length_le_count_bound (q - 1) (Z.to_nat (numel space)) h
                  Hrange Hcount) as Hlen.
    unfold h in Hlen. rewrite length_map in Hlen. unfold zlen in Hn.
    assert (Z.of_nat (length l) <= numel space * Z.of_nat (q - 1)) by nia.
    nia.
Qed.

(** X9. Eager coalescing needs repeated coordinates. When the two
    operands have the same coalesced flag, the larger one ([x] at equal
    counts) is well formed for its own shape and the number of points of
    its sparse shape is positive and fits an [int], then [nnz / numel], the
    bound role selection compares with 50, is a lower bound of the largest
    number of nonzeros the larger operand holds at one coordinate. So the
    larger operand is coalesced by role selection only if it holds some
    coordinate more than 50 times, and operands with at most 50 nonzeros per
    coordinate are used as they are. *)
Theorem eager_coalesce_needs_repeats (x y pc source : Tensor) :
  let larger := if _nnz x >=? _nnz y then x else y in
  let smaller := if _nnz x >=? _nnz y then y else x in
  let space := slice_prefix (sizes larger) (sparse_dim larger) in
  is_coalesced x = is_coalesced y ->
  well_formed (sizes larger) larger ->
  0 < numel space <= INT_MAX ->
  select_roles x y = Some (pc, source) ->
  source = smaller
  /\ (pc = larger \/ pc = coalesce larger)
  /\ (1 <= Z.quot (_nnz larger) (numel space) ->
      exists c, In c (_indices larger)
                /\ Z.quot (_nnz larger) (numel space)
                   <= Z.of_nat (multiplicity c larger))
  /\ (pc <> larger ->
      exists c, In c (_indices larger) /\ (50 < multiplicity c larger)%nat)
  /\ ((forall c, (multiplicity c larger <= 50)%nat) -> pc = larger).
Proof.
  cbv zeta. intros Hflag Hwf Hnumel Hroles.
  set (larger := if _nnz x >=? _nnz y then x else y) in *.
  set (smaller := if _nnz x >=? _nnz y then y else x) in *.
  set (space := slice_prefix (sizes larger) (sparse_dim larger)) in *.
  assert (Hint : sparse_dim_numel larger = numel space).
  { rewrite sparse_dim_numel_exact. fold space.
    apply cast_small. unfold INT_MAX in Hnumel. lia. }
  assert (Hsel : (pc, source)
                 = if Z.quot (_nnz larger) (numel space) >? MAX_COPIES_PER_THREAD
                   then (coalesce larger, smaller) else (larger, smaller)).
  { revert Hroles. unfold select_roles. rewrite Hflag, xorb_nilpotent.
    fold larger smaller.
    replace (if _nnz x >=? _nnz y then (x, y) else (y, x))
      with (larger, smaller)
      by (unfold larger, smaller; destruct (_nnz x >=? _nnz y); reflexivity).
    cbv zeta. rewrite Hint.
    destruct (numel space =? 0); [discriminate |].
    intros H. injection H as H. symmetry. exact H. }
  assert (Hpigeon : 1 <= Z.quot (_nnz larger) (numel space) ->
            exists c, In c (_indices larger)
                      /\ Z.quot (_nnz larger) (numel space)
                         <= Z.of_nat (multiplicity c larger)).
  { intros Hq. pose proof (nnz_nonneg larger) as Hn.
    rewrite Z.quot_div_nonneg in * by lia.
    pose proof Hwf as [_ _ _ Hb _].
    destruct (pigeonhole_columns space (_indices larger)
                (Z.to_nat (_nnz larger / numel space)) Hb ltac:(lia) ltac:(lia))
      as (c & Hc & Hcount).
    - rewrite Z2Nat.id by lia. rewrite <- (nnz_indices _ _ Hwf).
      rewrite Z.mul_comm. apply Z.mul_div_le. lia.
    - exists c. split; [exact Hc |]. unfold multiplicity. lia. }
  unfold MAX_COPIES_PER_THREAD in Hsel.
  destruct (Z.gtb_spec (Z.quot (_nnz larger) (numel space)) 50) as [Hgt | Hle];
    injection Hsel as -> ->.
  - split; [reflexivity |]. split; [right; reflexivity |].
    split; [exact Hpigeon |].
    destruct (Hpigeon ltac:(lia)) as (c & Hc & Hcount).
    split.
    + intros _. exists c. split; [exact Hc | lia].
    + intros Hall. specialize (Hall c). lia.
  - split; [reflexivity |]. split; [left; reflexivity |].
    split; [exact Hpigeon |]. split; [intros H; contradiction | reflexivity].
Qed.

(* ===================================================================== *)
(** ** The hash is a bijection onto the linear offsets *)
(* ===================================================================== *)

(** Every linear offset of a coordinate space is the offset of one of its
    points. *)
Lemma linear_offset_onto (space : list Z) :
  Forall (fun s => 0 <= s) space ->
  forall h, 0 <= h < numel space ->
    exists c, in_bounds space c /\ linear_offset space c = h.
Proof.
  induction 1 as [| s space Hs _ IH]; intros h Hh.
  - exists []. split; [constructor |]. cbn in *. lia.
  - rewrite numel_cons in Hh.
    assert (Hn : 0 < numel space) by nia.
    destruct (IH (h mod numel space)) as (c & Hc & Hoff);
      [apply Z.mod_pos_bound, Hn |].
    exists (h / numel space :: c). split.
    + constructor; [| exact Hc]. split.
      * apply Z.div_pos; lia.
      * apply Z.div_lt_upper_bound; [exact Hn | lia].
    + cbn [linear_offset]. rewrite Hoff.
      pose proof (Z.div_mod h (numel space) ltac:(lia)). lia.
Qed.

(** X10. The kernel's hash is a perfect hash: when the number of points of
    the broadcasted sparse shape fits [hash_t], it maps the points of that
    coordinate space one-to-one onto the linear offsets [0, ..., numel - 1]
    (every hash is in that range, and every offset of the range is the hash
    of exactly one point), so no hash value wraps around. *)
Theorem hash_bijective_onto_offsets (w : width) (shape : list Z) (pc : Tensor) :
  well_formed shape pc ->
  numel (sparse_shape shape pc) <= max_of w ->
  Forall (fun s => 0 <= s) (sparse_shape shape pc) ->
  let space := sparse_shape shape pc in
  let hash := compute_hash w (sdim_of pc) (hash_coeffs w pc shape) in
  (forall c, in_bounds space c -> 0 <= hash c < numel space)
  /\ (forall h, 0 <= h < numel space ->
        exists c, in_bounds space c /\ hash c = h
                  /\ (forall c', in_bounds space c' -> hash c' = h -> c' = c)).
Proof.
  intros Hwf Hmax Hpos. cbv zeta. split.
  - intros c Hc. rewrite (column_hash_exact w shape pc c Hwf Hmax Hc).
    apply linear_offset_bounds, Hc.
  - intros h Hh.
    destruct (linear_offset_onto _ Hpos h Hh) as (c & Hc & Hoff).
    exists c. split; [exact Hc |].
    split; [rewrite (column_hash_exact w shape pc c Hwf Hmax Hc); exact Hoff |].
    intros c' Hc' Hh'.
    rewrite (column_hash_exact w shape pc c' Hwf Hmax Hc') in Hh'.
    apply (linear_offset_inj (sparse_shape shape pc)); [exact Hc' | exact Hc |].
    congruence.
Qed.

(* ===================================================================== *)
(** ** Further properties of the kernel's result *)
(* ===================================================================== *)

Lemma flat_map_repeat_filter {A : Type} (m : A -> nat) (keep : A -> bool)
    (l : list A) :
  (forall c, In c l -> m c = if keep c then 1%nat else 0%nat) ->
  flat_map (fun c => repeat c (m c)) l = filter keep l.
Proof.
  induction l as [| c l IH]; intros H; [reflexivity |].
  cbn [flat_map filter]. rewrite (H c (or_introl eq_refl)).
  rewrite IH by (intros c' Hc'; apply H; right; exact Hc').
  destruct (keep c); reflexivity.
Qed.

(** The kernel's outcome under the three conditions of the properties of
    the kernel, with the number of rows of [res] in closed form. *)
Lemma kernel_impl_rows (w ow : width) (x_ y_ : Tensor) (shape : list Z)
    (is_commutative : bool) (res pc source : Tensor) :
  canCast (result_type x_ y_) (scalar_type res) = true ->
  fits w ow shape x_ y_ ->
  select_roles (if is_commutative then x_ else coalesce x_)
               (if is_commutative then y_ else coalesce y_) = Some (pc, source) ->
  fits w ow shape pc source
  /\ exists rows,
       Forall2 (row_of_pair (scalar_type res) source pc)
               (kernel_pairs w shape pc source) rows
       /\ _sparse_binary_op_intersection_kernel_impl w ow x_ y_ shape
            is_commutative res
          = (inr tt, assembled w ow shape pc source res rows)
       /\ length rows
          = length (flat_map (fun col => repeat col (multiplicity col pc))
                             (_indices source)).
Proof.
  intros Hcast F Hroles.
  destruct (kernel_impl_runs w ow x_ y_ shape is_commutative res pc source
              Hcast F Hroles) as (F' & rows & Hrows & Hrun).
  split; [exact F' |]. exists rows.
  split; [exact Hrows |]. split; [exact Hrun |].
  rewrite <- (matched_columns_flat w ow shape pc source F'), length_map.
  symmetry. apply (Forall2_length_eq _ _ _ Hrows).
Qed.

(** The same when the copy of the index columns stays in range, with the
    index columns of [res] in closed form. *)
Lemma kernel_impl_indices (w ow : width) (x_ y_ : Tensor) (shape : list Z)
    (is_commutative : bool) (res pc source : Tensor) :
  canCast (result_type x_ y_) (scalar_type res) = true ->
  fits w ow shape x_ y_ ->
  select_roles (if is_commutative then x_ else coalesce x_)
               (if is_commutative then y_ else coalesce y_) = Some (pc, source) ->
  gather_fits w ow shape pc source ->
  fits w ow shape pc source
  /\ exists rows,
       Forall2 (row_of_pair (scalar_type res) source pc)
               (kernel_pairs w shape pc source) rows
       /\ _sparse_binary_op_intersection_kernel_impl w ow x_ y_ shape
            is_commutative res
          = (inr tt, assembled w ow shape pc source res rows)
       /\ _indices (assembled w ow shape pc source res rows)
          = flat_map (fun col => repeat col (multiplicity col pc)) (_indices source)
       /\ length rows = length (_indices (assembled w ow shape pc source res rows)).
Proof.
  intros Hcast F Hroles G.
  destruct (kernel_impl_runs w ow x_ y_ shape is_commutative res pc source
              Hcast F Hroles) as (F' & rows & Hrows & Hrun).
  split; [exact F' |]. exists rows.
  split; [exact Hrows |]. split; [exact Hrun |].
  rewrite (assembled_indices w ow shape pc source res rows F' G).
  split; [apply (matched_columns_flat w ow shape pc source F') |].
  rewrite length_map.
  symmetry. apply (Forall2_length_eq _ _ _ Hrows).
Qed.

(** X11. Order preservation: when the copy of the index columns stays in
    range ([gather_fits]), the kernel returns, and the index columns of
    the result are the source's columns, in the order of the source, each
    one repeated as many times as the probe holds its coordinate (a column
    the probe does not hold is dropped). With a coalesced probe the result's
    columns are therefore the source's columns that occur in the probe, in
    source order. *)
Theorem result_columns_follow_source (w ow : width) (x_ y_ : Tensor)
    (shape : list Z) (is_commutative : bool) (res pc source : Tensor) :
  canCast (result_type x_ y_) (scalar_type res) = true ->
  fits w ow shape x_ y_ ->
  select_roles (if is_commutative then x_ else coalesce x_)
               (if is_commutative then y_ else coalesce y_) = Some (pc, source) ->
  gather_fits w ow shape pc source ->
  exists res',
    _sparse_binary_op_intersection_kernel_impl w ow x_ y_ shape is_commutative res
    = (inr tt, res')
    /\ _indices res'
       = flat_map (fun col => repeat col (multiplicity col pc)) (_indices source)
    /\ (is_coalesced pc = true ->
        _indices res'
        = filter (fun col =>
                    if in_dec (list_eq_dec Z.eq_dec) col (_indices pc)
                    then true else false)
                 (_indices source)).
Proof.
  intros Hcast F Hroles G.
  destruct (kernel_impl_indices w ow x_ y_ shape is_commutative res pc source
              Hcast F Hroles G) as (F' & rows & Hrows & Hrun & Hidx & _).
  exists (assembled w ow shape pc source res rows).
  split; [exact Hrun |]. split; [exact Hidx |].
  intros Hco. rewrite Hidx. apply flat_map_repeat_filter. intros c _.
  destruct F' as [[_ _ _ _ Hs] _ _ _ _ _ _].
  pose proof (sorted_multiplicity_le_1 _ c (Hs Hco)) as Hle.
  fold (multiplicity c pc) in Hle.
  destruct (in_dec (list_eq_dec Z.eq_dec) c (_indices pc)) as [Hin | Hnin].
  - apply multiplicity_In in Hin. lia.
  - unfold multiplicity. apply count_occ_not_In, Hnin.
Qed.

(** The assembled tensor satisfies the data invariant. *)
Lemma assembled_well_formed (w ow : width) (shape : list Z)
    (pc source res : Tensor) (rows : list Row) :
  fits w ow shape pc source ->
  _indices (assembled w ow shape pc source res rows)
  = flat_map (fun col => repeat col (multiplicity col pc)) (_indices source) ->
  length rows = length (_indices (assembled w ow shape pc source res rows)) ->
  well_formed shape (assembled w ow shape pc source res rows).
Proof.
  intros F Hidx Hlen.
  pose proof F as [Hpc Hsrc Hsd _ _ _ _].
  pose proof Hsrc as [S1 S2 S3 S4 S5]. pose proof Hpc as [_ _ _ _ P5].
  constructor.
  - exact S1.
  - exact S2.
  - symmetry. exact Hlen.
  - rewrite Hidx. apply Forall_forall. intros c Hc.
    apply in_flat_map in Hc. destruct Hc as (c' & Hin & Hrep).
    apply repeat_spec in Hrep. subst c.
    rewrite Forall_forall in S4. apply (S4 c' Hin).
  - intros Hflag. unfold assembled in Hflag. cbn [is_coalesced] in Hflag.
    apply andb_true_iff in Hflag. destruct Hflag as (Hs & Hp).
    rewrite Hidx. apply sorted_flat_map_repeat; [apply S5, Hs |].
    intros c. apply sorted_multiplicity_le_1, P5, Hp.
Qed.

(** X12. The data invariant is kept: when the copy of the index columns
    stays in range ([gather_fits]), the kernel returns, and its result is
    well formed for the broadcasted shape (as many index columns as value
    rows, every column a point of the broadcasted sparse coordinate space,
    strictly increasing columns when the coalesced flag is set); the
    kernel leaves [is_sparse] and the dtype of [res] as they were. *)
Theorem result_well_formed (w ow : width) (x_ y_ : Tensor)
    (shape : list Z) (is_commutative : bool) (res pc source : Tensor) :
  canCast (result_type x_ y_) (scalar_type res) = true ->
  fits w ow shape x_ y_ ->
  select_roles (if is_commutative then x_ else coalesce x_)
               (if is_commutative then y_ else coalesce y_) = Some (pc, source) ->
  gather_fits w ow shape pc source ->
  exists res',
    _sparse_binary_op_intersection_kernel_impl w ow x_ y_ shape is_commutative res
    = (inr tt, res')
    /\ well_formed shape res'
    /\ is_sparse res' = is_sparse res
    /\ scalar_type res' = scalar_type res.
Proof.
  intros Hcast F Hroles G.
  destruct (kernel_impl_indices w ow x_ y_ shape is_commutative res pc source
              Hcast F Hroles G) as (F' & rows & Hrows & Hrun & Hidx & Hlen).
  exists (assembled w ow shape pc source res rows).
  split; [exact Hrun |]. split; [| split; reflexivity].
  apply (assembled_well_formed w ow shape pc source res rows F' Hidx Hlen).
Qed.

Lemma length_flat_map_repeat {A : Type} (m : A -> nat) (l : list A) :
  length (flat_map (fun c => repeat c (m c)) l) = list_sum (map m l).
Proof.
  induction l as [| c l IH]; [reflexivity |].
  cbn [flat_map map]. rewrite length_app, repeat_length, IH. reflexivity.
Qed.

Lemma list_sum_le_bound {A : Type} (m : A -> nat) (b : nat) (l : list A) :
  (forall c, In c l -> (m c <= b)%nat) ->
  (list_sum (map m l) <= length l * b)%nat.
Proof.
  induction l as [| c l IH]; intros H; [cbn; lia |].
  cbn [map list_sum fold_right length].
  specialize (IH (fun c' Hc' => H c' (or_intror Hc'))).
  specialize (H c (or_introl eq_refl)). unfold list_sum in IH. lia.
Qed.

Lemma list_sum_const {A : Type} (m : A -> nat) (b : nat) (l : list A) :
  (forall c, In c l -> m c = b) -> list_sum (map m l) = (length l * b)%nat.
Proof.
  induction l as [| c l IH]; intros H; [reflexivity |].
  cbn [map list_sum fold_right length].
  specialize (IH (fun c' Hc' => H c' (or_intror Hc'))). unfold list_sum in IH.
  rewrite IH, (H c (or_introl eq_refl)). lia.
Qed.

(** Counting the pairs of equal elements of two lists, from either side. *)
Lemma list_sum_count_occ_swap {A : Type}
    (dec : forall x y : A, {x = y} + {x <> y}) (la lb : list A) :
  list_sum (map (fun a => count_occ dec lb a) la)
  = list_sum (map (fun b => count_occ dec la b) lb).
Proof.
  unfold list_sum. induction la as [| a la IH].
  - cbn. induction lb as [| b lb IHb]; [reflexivity | exact IHb].
  - cbn [map fold_right]. rewrite IH. clear IH.
    induction lb as [| b lb IHb]; [reflexivity |].
    cbn [map fold_right count_occ] in *.
    destruct (dec b a) as [-> | Hne].
    + destruct (dec a a) as [_ | Hc]; [| congruence]. lia.
    + destruct (dec a b) as [He | _]; [congruence |]. lia.
Qed.

Lemma count_occ_all_equal {A : Type}
    (dec : forall x y : A, {x = y} + {x <> y}) (l : list A) (c : A) :
  (forall c', In c' l -> c' = c) -> count_occ dec l c = length l.
Proof.
  induction l as [| x l IH]; intros H; [reflexivity |].
  cbn [count_occ length].
  destruct (dec x c) as [_ | Hne];
    [| exfalso; apply Hne, H; left; reflexivity].
  rewrite IH; [reflexivity |]. intros c' Hc'. apply H. right. exact Hc'.
Qed.

(** The sizes of the two roles are bounded by those of the inputs. *)
Lemma roles_nnz_le (w ow : width) (shape : list Z) (x_ y_ : Tensor)
    (is_commutative : bool) (pc source : Tensor) :
  fits w ow shape x_ y_ ->
  select_roles (if is_commutative then x_ else coalesce x_)
               (if is_commutative then y_ else coalesce y_) = Some (pc, source) ->
  _nnz source * _nnz pc <= _nnz x_ * _nnz y_.
Proof.
  intros F Hroles.
  pose proof F as [[_ _ Hnx _ _] [_ _ Hny _ _] _ _ _ _ _].
  pose proof (fits_operands w ow shape x_ y_ is_commutative F)
    as [[_ _ Hnx' _ _] [_ _ Hny' _ _] _ _ _ _ _].
  set (x := if is_commutative then x_ else coalesce x_) in *.
  set (y := if is_commutative then y_ else coalesce y_) in *.
  assert (Hx : _nnz x <= _nnz x_).
  { unfold x. destruct is_commutative; [lia |]. apply (coalesce_spec x_ Hnx). }
  assert (Hy : _nnz y <= _nnz y_).
  { unfold y. destruct is_commutative; [lia |]. apply (coalesce_spec y_ Hny). }
  destruct (coalesce_spec x Hnx') as (_ & _ & _ & Hcx).
  destruct (coalesce_spec y Hny') as (_ & _ & _ & Hcy).
  pose proof (nnz_nonneg x). pose proof (nnz_nonneg y).
  pose proof (nnz_nonneg (coalesce x)). pose proof (nnz_nonneg (coalesce y)).
  destruct (select_roles_cases x y pc source Hroles)
    as [([-> | ->] & ->) | ([-> | ->] & ->)]; nia.
Qed.

(** X13. Size of the result: the kernel returns, and the number of rows of
    the result is at most [nnz(source) * nnz(probe)], hence at most
    [nnz(x) * nnz(y)], the bound from which the entry point chooses
    [offset_t]; the bound is reached when all nonzeros of both sides are at
    one coordinate. When the probe is coalesced the result has at most as
    many rows as the source, and when the source is coalesced at most as
    many as the probe. *)
Theorem result_nnz_bounds (w ow : width) (x_ y_ : Tensor)
    (shape : list Z) (is_commutative : bool) (res pc source : Tensor) :
  canCast (result_type x_ y_) (scalar_type res) = true ->
  fits w ow shape x_ y_ ->
  select_roles (if is_commutative then x_ else coalesce x_)
               (if is_commutative then y_ else coalesce y_) = Some (pc, source) ->
  exists res',
    _sparse_binary_op_intersection_kernel_impl w ow x_ y_ shape is_commutative res
    = (inr tt, res')
    /\ _nnz res' <= _nnz source * _nnz pc
    /\ _nnz source * _nnz pc <= _nnz x_ * _nnz y_
    /\ (is_coalesced pc = true -> _nnz res' <= _nnz source)
    /\ (is_coalesced source = true -> _nnz res' <= _nnz pc)
    /\ ((forall c c', In c (_indices source) -> In c' (_indices pc) -> c = c') ->
        _nnz res' = _nnz source * _nnz pc).
Proof.
  intros Hcast F Hroles.
  destruct (kernel_impl_rows w ow x_ y_ shape is_commutative res pc source
              Hcast F Hroles) as (F' & rows & Hrows & Hrun & Hlen).
  exists (assembled w ow shape pc source res rows).
  split; [exact Hrun |].
  pose proof F' as [Hpc Hsrc _ _ _ _ _].
  pose proof (nnz_indices shape source Hsrc) as Hns.
  pose proof (nnz_indices shape pc Hpc) as Hnp.
  assert (Hnnz : _nnz (assembled w ow shape pc source res rows)
                 = Z.of_nat (list_sum (map (fun col => multiplicity col pc)
                                           (_indices source)))).
  { unfold _nnz at 1, zlen. unfold assembled at 1. cbn [_values vrows].
    rewrite Hlen, length_flat_map_repeat. reflexivity. }
  rewrite Hnnz, Hns, Hnp. unfold zlen.
  split; [| split; [| split; [| split]]].
  - pose proof (list_sum_le_bound (fun col => multiplicity col pc)
                  (length (_indices pc)) (_indices source)) as H.
    rewrite <- Nat2Z.inj_mul. apply Nat2Z.inj_le, H.
    intros c _. apply count_occ_bound.
  - pose proof (roles_nnz_le w ow shape x_ y_ is_commutative pc source F Hroles)
      as H.
    rewrite Hns, Hnp in H. exact H.
  - intros Hco. destruct Hpc as [_ _ _ _ Hs].
    pose proof (list_sum_le_bound (fun col => multiplicity col pc) 1
                  (_indices source)) as H.
    rewrite Nat.mul_1_r in H. apply Nat2Z.inj_le, H.
    intros c _. apply sorted_multiplicity_le_1, Hs, Hco.
  - intros Hco. destruct Hsrc as [_ _ _ _ Hs].
    unfold multiplicity.
    rewrite (list_sum_count_occ_swap (list_eq_dec Z.eq_dec)).
    pose proof (list_sum_le_bound
                  (fun col => count_occ (list_eq_dec Z.eq_dec) (_indices source) col)
                  1 (_indices pc)) as H.
    rewrite Nat.mul_1_r in H. apply Nat2Z.inj_le, H.
    intros c _. apply sorted_multiplicity_le_1, Hs, Hco.
  - intros Hsame. rewrite <- Nat2Z.inj_mul. f_equal.
    apply list_sum_const. intros c Hc. unfold multiplicity.
    apply count_occ_all_equal. intros c' Hc'. symmetry. apply (Hsame c c' Hc Hc').
Qed.

(** X14. Failure modes of the kernel on inputs that fit the widths: it
    raises the cast failure when, and only when, the result dtype of the
    inputs cannot be cast to the dtype of [res], whatever else holds of the
    inputs; otherwise it stops in the division by zero of role selection
    when that has a zero divisor, and returns in every other case. It never
    reads a slot the gather left unwritten and never raises the
    out-of-range error of [index_select], and a failure leaves [res] as it
    was. *)
Theorem kernel_failure_modes (w ow : width) (x_ y_ : Tensor) (shape : list Z)
    (is_commutative : bool) (res : Tensor) :
  fits w ow shape x_ y_ ->
  let run :=
    _sparse_binary_op_intersection_kernel_impl w ow x_ y_ shape is_commutative
      res in
  let roles :=
    select_roles (if is_commutative then x_ else coalesce x_)
                 (if is_commutative then y_ else coalesce y_) in
  (canCast (result_type x_ y_) (scalar_type res) = false ->
   run = (inl CastCheckFailed, res))
  /\ (canCast (result_type x_ y_) (scalar_type res) = true -> roles = None ->
      run = (inl Undefined, res))
  /\ (canCast (result_type x_ y_) (scalar_type res) = true -> roles <> None ->
      fst run = inr tt)
  /\ (forall e, fst run = inl e ->
        snd run = res
        /\ ((e = CastCheckFailed
             /\ canCast (result_type x_ y_) (scalar_type res) = false)
            \/ (e = Undefined /\ roles = None))).
Proof.
  intros F. cbv zeta.
  set (roles := select_roles (if is_commutative then x_ else coalesce x_)
                             (if is_commutative then y_ else coalesce y_)).
  assert (Hcast : canCast (result_type x_ y_) (scalar_type res) = false ->
            _sparse_binary_op_intersection_kernel_impl w ow x_ y_ shape
              is_commutative res = (inl CastCheckFailed, res)).
  { intros Hc. unfold _sparse_binary_op_intersection_kernel_impl, bind, gets,
      TORCH_CHECK. rewrite Hc. reflexivity. }
  assert (Hnone : canCast (result_type x_ y_) (scalar_type res) = true ->
            roles = None ->
            _sparse_binary_op_intersection_kernel_impl w ow x_ y_ shape
              is_commutative res = (inl Undefined, res)).
  { intros Hc Hr. unfold _sparse_binary_op_intersection_kernel_impl, bind, gets,
      TORCH_CHECK. rewrite Hc. unfold ret at 1. fold roles. rewrite Hr.
    reflexivity. }
  assert (Hsome : canCast (result_type x_ y_) (scalar_type res) = true ->
            roles <> None ->
            fst (_sparse_binary_op_intersection_kernel_impl w ow x_ y_ shape
                   is_commutative res) = inr tt).
  { intros Hc Hr. destruct roles as [[pc source] |] eqn:Hroles; [| contradiction].
    destruct (kernel_impl_runs w ow x_ y_ shape is_commutative res pc source
                Hc F Hroles) as (_ & rows & _ & Hrun).
    rewrite Hrun. reflexivity. }
  split; [exact Hcast |]. split; [exact Hnone |]. split; [exact Hsome |].
  intros e He.
  destruct (canCast (result_type x_ y_) (scalar_type res)) eqn:Hc.
  - destruct roles as [[pc source] |] eqn:Hroles.
    + rewrite (Hsome eq_refl ltac:(discriminate)) in He. discriminate He.
    + rewrite (Hnone eq_refl eq_refl) in He |- *. cbn [fst snd] in *.
      injection He as <-. auto.
  - rewrite (Hcast eq_refl) in He |- *. cbn [fst snd] in *.
    injection He as <-. auto.
Qed.

(* ===================================================================== *)
(** ** The records of the join in terms of coordinates *)
(* ===================================================================== *)

Lemma length_filter_perm (p : Z -> bool) (l l' : list Z) :
  Permutation l l' -> length (filter p l) = length (filter p l').
Proof.
  induction 1 as [| x l l' _ IH | x y l | l l' l'' _ IH1 _ IH2]; cbn [filter].
  - reflexivity.
  - destruct (p x); cbn [length]; congruence.
  - destruct (p x), (p y); reflexivity.
  - congruence.
Qed.

Lemma length_filter_map {A : Type} (p : Z -> bool) (f : A -> Z) (l : list A) :
  length (filter p (map f l)) = length (filter (fun x => p (f x)) l).
Proof.
  induction l as [| x l IH]; [reflexivity |].
  cbn [map filter]. destruct (p (f x)); cbn [length]; congruence.
Qed.

(** The partition point of a test that holds exactly on the elements
    smaller than [v] is the number of those elements. *)
Lemma lower_rank (a : list Z) (v : Z) :
  forall lb,
    0 <= lb <= zlen a ->
    (forall i, 0 <= i < lb -> deref a i < v) ->
    (forall i, lb <= i < zlen a -> v <= deref a i) ->
    Z.of_nat (length (filter (fun e => e <? v) a)) = lb.
Proof.
  induction a as [| x a IH]; intros lb Hlb Hlo Hhi.
  - unfold zlen in Hlb. cbn in *. lia.
  - rewrite zlen_cons in Hlb, Hhi. pose proof (zlen_nonneg a) as Hn.
    cbn [filter]. destruct (Z.eq_dec lb 0) as [-> | Hne].
    + assert (Hx : v <= x) by (apply (Hhi 0); lia).
      replace (x <? v) with false by (symmetry; apply Z.ltb_ge; exact Hx).
      apply IH; [lia | intros i Hi; lia |].
      intros i Hi. rewrite <- (deref_cons_succ x a i) by lia. apply Hhi. lia.
    + assert (Hx : x < v) by (apply (Hlo 0); lia).
      replace (x <? v) with true by (symmetry; apply Z.ltb_lt; exact Hx).
      cbn [length]. rewrite Nat2Z.inj_succ, (IH (lb - 1)); [lia | lia | |].
      * intros i Hi. rewrite <- (deref_cons_succ x a i) by lia. apply Hlo. lia.
      * intros i Hi. rewrite <- (deref_cons_succ x a i) by lia. apply Hhi. lia.
Qed.

Lemma deref_map_arange (f : Z -> Z) (n k : Z) :
  0 <= k < n -> deref (map f (arange n)) k = f k.
Proof.
  intros Hk. unfold deref.
  rewrite (nth_indep _ 0 (f 0)) by (rewrite length_map, length_arange; lia).
  rewrite map_nth. f_equal. apply (deref_arange n k Hk).
Qed.

(** X15. What the join computes, in terms of coordinates: on roles that
    fit the widths, for the source nonzero [k],
    [intersection_count[k]] is the number of probe nonzeros at the
    coordinate of [k], and [intersection_first_idx[k]] is the number of
    probe nonzeros at a lexicographically smaller coordinate (its rank
    among the probe's coordinates), whether the probe is coalesced or goes
    through the sort. *)
Theorem join_record_meaning (w ow : width) (shape : list Z)
    (pc source : Tensor) (k : Z) :
  fits w ow shape pc source ->
  0 <= k < _nnz source ->
  let c := column (_indices source) k in
  deref (fst (intersection w pc source shape)) k = Z.of_nat (multiplicity c pc)
  /\ deref (snd (intersection w pc source shape)) k
     = Z.of_nat (length (filter (fun c' => match lex_compare c' c with
                                           | Lt => true
                                           | _ => false
                                           end)
                                (_indices pc))).
Proof.
  intros F Hk. cbv zeta.
  pose proof (sort_stage_fits w ow shape pc source F)
    as (Hsorted & _ & _ & Hperm & _).
  pose proof (intersection_exact w ow shape pc source F) as Hint.
  cbv zeta in Hint.
  pose proof F as [Hpc Hsrc Hsd Hh Hnp Hns Ho].
  pose proof (nnz_indices shape source Hsrc) as Hn.
  set (S := sparse_shape shape pc) in *.
  set (sorted := fst (sorted_and_argsort w pc source shape)) in *.
  set (c := column (_indices source) k).
  assert (Hc : in_bounds S c).
  { unfold S. rewrite <- (sparse_shape_same shape pc source Hsd).
    apply column_in_bounds; [exact Hsrc | lia]. }
  assert (Hbpc : forall c', In c' (_indices pc) -> in_bounds S c').
  { destruct Hpc as [_ _ _ Hb _]. rewrite Forall_forall in Hb. exact Hb. }
  rewrite Hint. cbn [fst snd]. rewrite !deref_map_arange by lia. fold c. split.
  - rewrite (find_bound_count sorted _ Hsorted). f_equal.
    rewrite Permutation_count_occ in Hperm. rewrite (Hperm (linear_offset S c)).
    unfold multiplicity. apply count_occ_map_in. intros x Hx He.
    apply (linear_offset_inj S); [apply Hbpc, Hx | exact Hc | exact He].
  - destruct (find_bound_lower sorted (linear_offset S c) Hsorted)
      as (Hr & Hlo & Hhi).
    cbv zeta in Hr, Hlo, Hhi.
    rewrite <- (lower_rank sorted (linear_offset S c) _ Hr Hlo Hhi).
    f_equal. rewrite (length_filter_perm _ _ _ Hperm), length_filter_map.
    f_equal. apply filter_ext_in. intros c' Hc'.
    rewrite (lex_compare_linear S c' c (Hbpc c' Hc') Hc). reflexivity.
Qed.

(* ===================================================================== *)
(** ** The gather stage as an index selection *)
(* ===================================================================== *)

Lemma strongly_sorted_seq (a n : nat) :
  StronglySorted Z.lt (map Z.of_nat (seq a n)).
Proof.
  revert a. induction n as [| n IH]; intros a; cbn; constructor; [apply IH |].
  apply Forall_forall. intros k Hk. apply in_map_iff in Hk.
  destruct Hk as (i & <- & Hi). apply in_seq in Hi. lia.
Qed.

(** Repeating each element of a strictly increasing list keeps the list
    nondecreasing. *)
Lemma sorted_flat_map_repeat_le (m : Z -> nat) (l : list Z) :
  StronglySorted Z.lt l ->
  StronglySorted Z.le (flat_map (fun k => repeat k (m k)) l).
Proof.
  induction 1 as [| x l Hs IH Hall]; cbn [flat_map]; [constructor |].
  assert (Hrest : Forall (Z.le x) (flat_map (fun k => repeat k (m k)) l)).
  { apply Forall_forall. intros k Hk. apply in_flat_map in Hk.
    destruct Hk as (k' & Hin & Hrep). apply repeat_spec in Hrep. subst k.
    rewrite Forall_forall in Hall. specialize (Hall k' Hin). lia. }
  induction (m x) as [| n IHn]; cbn [repeat app]; [exact IH |].
  constructor; [exact IHn |].
  apply Forall_app. split; [| exact Hrest].
  apply Forall_forall. intros k Hk. apply repeat_spec in Hk. lia.
Qed.

Lemma Forall2_map_in {A B C : Type} (R : B -> C -> Prop) (f : A -> B)
    (g : A -> C) (l : list A) :
  (forall a, In a l -> R (f a) (g a)) -> Forall2 R (map f l) (map g l).
Proof.
  induction l as [| a l IH]; intros H; cbn; constructor.
  - apply H. left. reflexivity.
  - apply IH. intros a' Ha'. apply H. right. exact Ha'.
Qed.

(** X16. The fused gather is an index selection: on roles that fit the
    widths, with the copy of the index columns in range ([gather_fits]),
    the gather stage fills its three buffers, the columns it copies
    are [source.indices.index_select(1, selected_source)], every selected
    position is a valid position of its side (so neither [index_select] on
    the values raises), the two positions selected for an output row hold
    the same coordinate, and [selected_source] is nondecreasing: output rows
    are grouped by source nonzero, in the order of the source. *)
Theorem gather_is_index_select (w ow : width) (shape : list Z)
    (pc source : Tensor) :
  fits w ow shape pc source ->
  gather_fits w ow shape pc source ->
  exists s i p,
    selected w ow pc source shape = Some (s, i, p)
    /\ i = map (column (_indices source)) s
    /\ Forall (fun k => 0 <= k < _nnz source) s
    /\ Forall (fun k => 0 <= k < _nnz pc) p
    /\ Forall2 (fun ks kp => column (_indices source) ks = column (_indices pc) kp)
               s p
    /\ StronglySorted Z.le s
    /\ (exists vs vp,
          index_select (_values source) s = Some vs
          /\ index_select (_values pc) p = Some vp
          /\ length (vrows vs) = length s /\ length (vrows vp) = length s).
Proof.
  intros F G.
  pose proof (gather_selected w ow shape pc source F) as Hsel. cbv zeta in Hsel.
  fold (kernel_pairs w shape pc source) in Hsel.
  rewrite (gathered_indices_exact w ow shape pc source F G) in Hsel.
  set (pairs := kernel_pairs w shape pc source) in *.
  assert (Hsound : forall q, In q pairs ->
            0 <= fst q < _nnz source /\ 0 <= snd q < _nnz pc
            /\ column (_indices source) (fst q) = column (_indices pc) (snd q)).
  { intros [a b] Hq. apply (matched_pairs_sound w ow shape pc source a b F Hq). }
  assert (Hs : Forall (fun k => 0 <= k < _nnz source) (map fst pairs)).
  { apply Forall_forall. intros k Hk. apply in_map_iff in Hk.
    destruct Hk as (q & <- & Hq). apply (Hsound q Hq). }
  assert (Hp : Forall (fun k => 0 <= k < _nnz pc) (map snd pairs)).
  { apply Forall_forall. intros k Hk. apply in_map_iff in Hk.
    destruct Hk as (q & <- & Hq). apply (Hsound q Hq). }
  exists (map fst pairs), (map (fun q => column (_indices source) (fst q)) pairs),
    (map snd pairs).
  split; [exact Hsel |].
  split; [rewrite map_map; reflexivity |].
  split; [exact Hs |]. split; [exact Hp |].
  split; [apply Forall2_map_in; intros q Hq; apply (Hsound q Hq) |].
  split.
  - unfold pairs, kernel_pairs, matched_pairs. rewrite map_flat_map.
    set (cnt := fun k =>
      length (matches_of (sparse_shape shape pc)
                (fst (sorted_and_argsort w pc source shape))
                (snd (sorted_and_argsort w pc source shape))
                (_indices source) k)).
    rewrite (flat_map_ext_in _ (fun k => repeat k (cnt k))).
    + apply sorted_flat_map_repeat_le. unfold arange. apply strongly_sorted_seq.
    + intros k _. unfold cnt, matches_of. rewrite map_map. cbn [fst].
      rewrite map_const_seq, length_map, length_seq. reflexivity.
  - destruct (select_rows_ok (vrows (_values source)) (map fst pairs) Hs)
      as (rs & Hrs & Frs).
    destruct (select_rows_ok (vrows (_values pc)) (map snd pairs) Hp)
      as (rp & Hrp & Frp).
    unfold index_select. rewrite Hrs, Hrp.
    do 2 eexists. split; [reflexivity |]. split; [reflexivity |].
    cbn [vrows].
    rewrite <- (Forall2_length_eq _ _ _ Frs), <- (Forall2_length_eq _ _ _ Frp).
    rewrite !length_map. split; reflexivity.
Qed.

(* ===================================================================== *)
(** ** The entry point on valid inputs *)
(* ===================================================================== *)

Lemma In_flat_map_repeat {A : Type} (m : A -> nat) (l : list A) (c : A) :
  In c (flat_map (fun col => repeat col (m col)) l) <-> In c l /\ (m c > 0)%nat.
Proof.
  rewrite in_flat_map. split.
  - intros (c' & Hin & Hrep). pose proof (repeat_spec _ _ _ Hrep). subst c'.
    split; [exact Hin |]. destruct (m c); [destruct Hrep | lia].
  - intros (Hin & Hm). exists c. split; [exact Hin |].
    destruct (m c) as [| n]; [lia | left; reflexivity].
Qed.

(** The coordinates held by the columns of the assembled result. *)
Lemma assembled_members (w ow : width) (x_ y_ : Tensor) (shape : list Z)
    (is_commutative : bool) (res pc source : Tensor) (rows : list Row) :
  fits w ow shape x_ y_ ->
  select_roles (if is_commutative then x_ else coalesce x_)
               (if is_commutative then y_ else coalesce y_) = Some (pc, source) ->
  _indices (assembled w ow shape pc source res rows)
  = flat_map (fun col => repeat col (multiplicity col pc)) (_indices source) ->
  forall c, In c (_indices (assembled w ow shape pc source res rows))
            <-> In c (_indices x_) /\ In c (_indices y_).
Proof.
  intros F Hroles Hidx c. rewrite Hidx, In_flat_map_repeat.
  pose proof (fits_operands w ow shape x_ y_ is_commutative F)
    as [Hx Hy _ _ _ _ _].
  pose proof F as [Hx_ Hy_ _ _ _ _ _].
  rewrite <- (operand_members shape x_ is_commutative c Hx_).
  rewrite <- (operand_members shape y_ is_commutative c Hy_).
  rewrite <- (select_roles_members shape _ _ pc source c Hx Hy Hroles).
  rewrite (multiplicity_In c pc). tauto.
Qed.

(** X17. The entry point on valid inputs: when the inputs pass the entry
    check, are well formed for their own shapes, their dense shapes
    broadcast, the number of points of the sparse shape and the product of
    the nonzero counts are representable in [int64_t], the nonzero counts
    fit the selected [hash_t], the dtype check passes, role selection
    does not divide by zero and the copy of the index columns stays in
    range for the selected [offset_t] ([gather_fits]), then the widths the
    entry point selects are wide enough for the stages before that copy,
    broadcasting leaves the sparse shape as it is, and the entry point
    returns with a well-formed result of the broadcasted shape whose
    coordinates are those held by both inputs. *)
Theorem entry_point_runs (x y : Tensor) (shape : list Z) (is_commutative : bool)
    (res pc source : Tensor) :
  inputs_ok x y = true ->
  infer_size (sizes x) (sizes y) = Some shape ->
  well_formed (sizes x) x -> well_formed (sizes y) y ->
  0 <= numel (slice_prefix (sizes x) (sparse_dim x)) <= INT64_MAX ->
  _nnz x * _nnz y <= INT64_MAX ->
  _nnz x <= max_of (fst (select_widths x y shape)) ->
  _nnz y <= max_of (fst (select_widths x y shape)) ->
  canCast (result_type x y) (scalar_type res) = true ->
  select_roles (if is_commutative then x else coalesce x)
               (if is_commutative then y else coalesce y) = Some (pc, source) ->
  gather_fits (fst (select_widths x y shape)) (snd (select_widths x y shape))
              shape pc source ->
  fits (fst (select_widths x y shape)) (snd (select_widths x y shape)) shape x y
  /\ slice_prefix shape (sparse_dim x) = slice_prefix (sizes x) (sparse_dim x)
  /\ exists res',
       _sparse_binary_op_intersection_kernel_out x y is_commutative res
       = (inr tt, res')
       /\ sizes res' = shape
       /\ well_formed shape res'
       /\ (forall c, In c (_indices res')
                     <-> In c (_indices x) /\ In c (_indices y)).
Proof.
  intros Hok Hshape Hx Hy Hnumel Hnnz Hnx Hny Hcast Hroles G.
  pose proof (entry_fits x y shape Hok Hshape Hx Hy Hnumel Hnnz Hnx Hny) as F.
  split; [exact F |]. split.
  - apply inputs_ok_spec in Hok. destruct Hok as (_ & Hdim & Hsd & Hprefix).
    assert (Hrank : length (sizes x) = length (sizes y)).
    { unfold dim, zlen in Hdim. lia. }
    rewrite (infer_size_same_rank _ _ Hrank) in Hshape.
    unfold slice_prefix in *.
    apply (infer_size_aligned_prefix _ _ _ _ Hshape).
    rewrite Hprefix, Hsd. reflexivity.
  - set (hw := fst (select_widths x y shape)) in *.
    set (ow' := snd (select_widths x y shape)) in *.
    destruct (kernel_impl_indices hw ow' x y shape is_commutative res pc source
                Hcast F Hroles G) as (F' & rows & Hrows & Hrun & Hidx & Hlen).
    exists (assembled hw ow' shape pc source res rows).
    split; [| split; [reflexivity | split]].
    + unfold _sparse_binary_op_intersection_kernel_out, bind, TORCH_CHECK.
      rewrite Hok, Hshape. unfold ret at 1, lift, ret at 1.
      rewrite <- Hrun. unfold hw, ow'.
      destruct (select_widths x y shape) as [a b]. reflexivity.
    + apply (assembled_well_formed hw ow' shape pc source res rows F' Hidx Hlen).
    + apply (assembled_members hw ow' x y shape is_commutative res pc source rows
               F Hroles Hidx).
Qed.

(* ===================================================================== *)
(** ** A coalesced tensor intersected with itself *)
(* ===================================================================== *)

Lemma strongly_sorted_NoDup (l : list (list Z)) :
  StronglySorted lex_lt l -> NoDup l.
Proof.
  induction 1 as [| c l Hs IH Hall]; constructor; [| exact IH].
  intros Hin. rewrite Forall_forall in Hall.
  apply (lex_lt_irrefl c), Hall, Hin.
Qed.

Lemma flat_map_singleton {A B : Type} (f : A -> list B) (g : A -> B)
    (l : list A) :
  (forall a, In a l -> f a = [g a]) -> flat_map f l = map g l.
Proof.
  induction l as [| a l IH]; intros H; [reflexivity |].
  cbn [flat_map map]. rewrite (H a (or_introl eq_refl)).
  rewrite IH by (intros a' Ha'; apply H; right; exact Ha'). reflexivity.
Qed.

(** Positions holding the same column of a strictly sorted index list are
    the same position. *)
Lemma sorted_column_inj (indices : list (list Z)) (i k : Z) :
  StronglySorted lex_lt indices ->
  0 <= i < zlen indices -> 0 <= k < zlen indices ->
  column indices i = column indices k -> i = k.
Proof.
  intros Hs Hi Hk Hcol. apply strongly_sorted_NoDup in Hs.
  unfold zlen in Hi, Hk. unfold column in Hcol.
  pose proof (proj1 (NoDup_nth indices []) Hs (Z.to_nat i) (Z.to_nat k)
                ltac:(lia) ltac:(lia) Hcol). lia.
Qed.

(** The matched pairs of a coalesced tensor with itself are the pairs
    [(k, k)], in order. *)
Lemma self_pairs (w ow : width) (shape : list Z) (x : Tensor) :
  fits w ow shape x x -> is_coalesced x = true ->
  kernel_pairs w shape x x = map (fun k => (k, k)) (arange (_nnz x)).
Proof.
  intros F Hco.
  pose proof (fun h => match_span_fits w ow shape x x h F) as Hspan.
  cbv zeta in Hspan.
  pose proof (pc_hash_exact w ow shape x x F) as Hhash.
  pose proof F as [Hwf _ _ Hh _ _ _].
  pose proof (nnz_indices shape x Hwf) as Hn.
  pose proof Hwf as [_ _ _ Hb Hsorted]. specialize (Hsorted Hco).
  assert (Hstage : sorted_and_argsort w x x shape
                   = (map (linear_offset (sparse_shape shape x)) (_indices x),
                      arange (_nnz x))).
  { unfold sorted_and_argsort. rewrite Hco, Hhash. unfold nnz_arange.
    rewrite narrow_arange by lia. reflexivity. }
  unfold kernel_pairs, matched_pairs. rewrite Hstage in *. cbn [fst snd] in *.
  rewrite <- Hn. apply flat_map_singleton. intros k Hk. apply In_arange in Hk.
  unfold matches_of.
  set (S := sparse_shape shape x) in *.
  set (sorted := map (linear_offset S) (_indices x)) in *.
  set (h := linear_offset S (column (_indices x) k)).
  destruct (Hspan h) as (H0 & Hle & Hub & Hiff).
  set (lb := find_bound true sorted 0 (zlen sorted) h) in *.
  set (ub := find_bound false sorted 0 (zlen sorted) h) in *.
  assert (Hsame : forall i, 0 <= i < _nnz x -> lb <= i < ub -> i = k).
  { intros i Hi Hin. apply Hiff in Hin; [| exact Hi].
    unfold sorted in Hin. rewrite deref_map_linear in Hin.
    apply (sorted_column_inj (_indices x)); try lia; [exact Hsorted |].
    apply (linear_offset_inj S); [| | exact Hin];
      apply (column_in_bounds shape x); try assumption; lia. }
  assert (Hkin : lb <= k < ub).
  { apply Hiff; [exact Hk |]. unfold sorted. apply deref_map_linear. }
  assert (Hlb : lb = k).
  { destruct (Z.eq_dec lb k) as [E | N]; [exact E |].
    apply (Hsame lb); lia. }
  assert (Hub' : ub = k + 1).
  { destruct (Z.eq_dec ub (k + 1)) as [E | N]; [exact E |].
    specialize (Hsame (k + 1) ltac:(lia) ltac:(lia)). lia. }
  rewrite Hlb, Hub'. replace (k + 1 - k) with 1 by lia.
  change (Z.to_nat 1) with 1%nat. cbn [seq map].
  change (Z.of_nat 0) with 0.
  rewrite Z.add_0_r, deref_arange by lia. reflexivity.
Qed.

Lemma rows_of_diagonal (d : dtype) (l2 : list Row) :
  forall (l1 rows : list Row),
    Forall2 (fun (q : Z * Z) r =>
               exists rs rp,
                 nth_error (l1 ++ l2) (Z.to_nat (fst q)) = Some rs
                 /\ nth_error (l1 ++ l2) (Z.to_nat (snd q)) = Some rp
                 /\ r = to_row d (binary_op rs rp))
            (map (fun k => (k, k)) (map Z.of_nat (seq (length l1) (length l2))))
            rows ->
    rows = map (fun r => to_row d (binary_op r r)) l2.
Proof.
  induction l2 as [| r0 l2 IH]; intros l1 rows H.
  - inversion H. reflexivity.
  - cbn [length seq map] in H.
    inversion H as [| q r qs rs' (rs & rp & Hrs & Hrp & Hr) Hrest]; subst.
    cbn [fst snd] in Hrs, Hrp.
    rewrite Nat2Z.id, nth_error_app2, Nat.sub_diag in Hrs, Hrp by lia.
    cbn in Hrs, Hrp. injection Hrs as <-. injection Hrp as <-.
    cbn [map]. f_equal. apply (IH (l1 ++ [r0])).
    rewrite <- app_assoc, length_app. cbn [app length].
    rewrite Nat.add_1_r. exact Hrest.
Qed.

(** X18. A coalesced tensor intersected with itself keeps its sparsity
    pattern: the kernel returns, the probe and the source are the tensor
    itself, the result has (when the copy of the index columns stays in
    range, [gather_fits]) exactly the tensor's index columns, in the same
    order, its value rows are [op(v, v)] for the tensor's rows [v] (cast to
    the dtype of [res]), and the result is flagged coalesced, for a
    commutative and for a non-commutative operator alike. *)
Theorem self_intersection (w ow : width) (x : Tensor) (shape : list Z)
    (is_commutative : bool) (res pc source : Tensor) :
  canCast (result_type x x) (scalar_type res) = true ->
  fits w ow shape x x ->
  is_coalesced x = true ->
  select_roles x x = Some (pc, source) ->
  gather_fits w ow shape x x ->
  pc = x /\ source = x
  /\ exists res',
       _sparse_binary_op_intersection_kernel_impl w ow x x shape
         is_commutative res
       = (inr tt, res')
       /\ _indices res' = _indices x
       /\ vrows (_values res')
          = map (fun r => to_row (scalar_type res) (binary_op r r))
                (vrows (_values x))
       /\ is_coalesced res' = true
       /\ sparse_dim res' = sparse_dim x.
Proof.
  intros Hcast F Hco Hroles G.
  pose proof F as [Hwf _ _ _ _ _ _].
  pose proof Hwf as [_ _ Hlen _ Hsorted]. specialize (Hsorted Hco).
  pose proof (coalesce_sorted_id x Hlen Hsorted Hco) as Hid.
  assert (Hpc : pc = x /\ source = x).
  { destruct (select_roles_cases x x pc source Hroles)
      as [([-> | ->] & ->) | ([-> | ->] & ->)]; rewrite ?Hid; auto. }
  destruct Hpc as (-> & ->).
  split; [reflexivity |]. split; [reflexivity |].
  assert (Hroles' : select_roles (if is_commutative then x else coalesce x)
                                 (if is_commutative then x else coalesce x)
                    = Some (x, x)).
  { rewrite Hid. destruct is_commutative; exact Hroles. }
  destruct (kernel_impl_runs w ow x x shape is_commutative res x x
              Hcast F Hroles') as (_ & rows & Hrows & Hrun).
  exists (assembled w ow shape x x res rows).
  split; [exact Hrun |].
  pose proof (self_pairs w ow shape x F Hco) as Hpairs.
  rewrite (assembled_indices w ow shape x x res rows F G).
  unfold assembled. cbn [_values vrows is_coalesced sparse_dim].
  rewrite Hpairs in *. split; [| split; [| split]].
  - rewrite map_map. cbn [fst]. rewrite (nnz_indices shape x Hwf).
    rewrite (map_column_arange (fun c => c)). apply map_id.
  - apply (rows_of_diagonal (scalar_type res) (vrows (_values x)) [] rows).
    cbn [app length]. unfold arange, _nnz, zlen in Hrows.
    rewrite Nat2Z.id in Hrows. exact Hrows.
  - rewrite Hco. reflexivity.
  - reflexivity.
Qed.

(* ===================================================================== *)
(** ** Operand order of a non-commutative operator *)
(* ===================================================================== *)

Lemma Forall2_nth_error_r {A B : Type} (R : A -> B -> Prop) (la : list A)
    (lb : list B) (p : nat) (b : B) :
  Forall2 R la lb -> nth_error lb p = Some b ->
  exists a, nth_error la p = Some a /\ R a b.
Proof.
  intros H. revert p. induction H as [| x y la lb Hxy _ IH]; intros [| p] Hp;
    cbn in *; try discriminate.
  - injection Hp as <-. exists x. auto.
  - apply IH, Hp.
Qed.

(** The roles of two coalesced operands: the larger one is the probe ([x]
    when the sizes are equal), the other one the source. *)
Lemma select_roles_coalesced (x y pc source : Tensor) :
  length (_indices x) = length (vrows (_values x)) ->
  length (_indices y) = length (vrows (_values y)) ->
  select_roles (coalesce x) (coalesce y) = Some (pc, source) ->
  (pc, source) = (if _nnz (coalesce x) >=? _nnz (coalesce y)
                  then (coalesce x, coalesce y) else (coalesce y, coalesce x)).
Proof.
  intros Hx Hy. unfold select_roles. cbn [is_coalesced coalesce xorb].
  fold (coalesce x). fold (coalesce y).
  destruct (_nnz (coalesce x) >=? _nnz (coalesce y)); cbv zeta;
    match goal with
    | |- context [sparse_dim_numel ?t =? 0] =>
        destruct (sparse_dim_numel t =? 0); [discriminate |];
        destruct (Z.quot (_nnz t) (sparse_dim_numel t) >? MAX_COPIES_PER_THREAD)
    end;
    intros H; injection H as <- <-;
    rewrite ?(coalesce_idempotent x Hx), ?(coalesce_idempotent y Hy); reflexivity.
Qed.

(** X19. Operand order of a non-commutative operator: with
    [is_commutative = false] the kernel returns, the probe is the coalesced
    input with more nonzeros ([coalesce(x)] when the counts are equal) and
    the source the other one, and every value row of the result is
    [op(source row, probe row)] for two rows at the same coordinate (the
    coordinate the result holds in that row when the copy of the index
    columns stays in range, [gather_fits]). So when
    [coalesce(x)] has at least as many nonzeros as [coalesce(y)] the
    operator receives the row of [y] first and the row of [x] second, and
    only otherwise the row of [x] first. *)
Theorem non_commutative_operand_order (w ow : width) (x_ y_ : Tensor)
    (shape : list Z) (res pc source : Tensor) :
  canCast (result_type x_ y_) (scalar_type res) = true ->
  fits w ow shape x_ y_ ->
  select_roles (coalesce x_) (coalesce y_) = Some (pc, source) ->
  (pc, source) = (if _nnz (coalesce x_) >=? _nnz (coalesce y_)
                  then (coalesce x_, coalesce y_)
                  else (coalesce y_, coalesce x_))
  /\ exists res',
       _sparse_binary_op_intersection_kernel_impl w ow x_ y_ shape false res
       = (inr tt, res')
       /\ (_nnz (coalesce x_) >= _nnz (coalesce y_) ->
           forall p r,
             nth_error (vrows (_values res')) p = Some r ->
             exists i j ry rx,
               (gather_fits w ow shape pc source ->
                nth_error (_indices res') p
                = Some (column (_indices (coalesce y_)) i))
               /\ column (_indices (coalesce y_)) i
                  = column (_indices (coalesce x_)) j
               /\ nth_error (vrows (_values (coalesce y_))) (Z.to_nat i) = Some ry
               /\ nth_error (vrows (_values (coalesce x_))) (Z.to_nat j) = Some rx
               /\ r = to_row (scalar_type res) (binary_op ry rx))
       /\ (_nnz (coalesce x_) < _nnz (coalesce y_) ->
           forall p r,
             nth_error (vrows (_values res')) p = Some r ->
             exists i j rx ry,
               (gather_fits w ow shape pc source ->
                nth_error (_indices res') p
                = Some (column (_indices (coalesce x_)) i))
               /\ column (_indices (coalesce x_)) i
                  = column (_indices (coalesce y_)) j
               /\ nth_error (vrows (_values (coalesce x_))) (Z.to_nat i) = Some rx
               /\ nth_error (vrows (_values (coalesce y_))) (Z.to_nat j) = Some ry
               /\ r = to_row (scalar_type res) (binary_op rx ry)).
Proof.
  intros Hcast F Hroles.
  pose proof F as [[_ _ Hnx _ _] [_ _ Hny _ _] _ _ _ _ _].
  pose proof (select_roles_coalesced x_ y_ pc source Hnx Hny Hroles) as Hsel.
  split; [exact Hsel |].
  destruct (kernel_impl_runs w ow x_ y_ shape false res pc source
              Hcast F Hroles) as (F' & rows & Hrows & Hrun).
  exists (assembled w ow shape pc source res rows).
  split; [exact Hrun |].
  assert (Hrow : forall p r,
            nth_error rows p = Some r ->
            exists i j rs rp,
              (gather_fits w ow shape pc source ->
               nth_error (_indices (assembled w ow shape pc source res rows)) p
               = Some (column (_indices source) i))
              /\ column (_indices source) i = column (_indices pc) j
              /\ nth_error (vrows (_values source)) (Z.to_nat i) = Some rs
              /\ nth_error (vrows (_values pc)) (Z.to_nat j) = Some rp
              /\ r = to_row (scalar_type res) (binary_op rs rp)).
  { intros p r Hr.
    destruct (Forall2_nth_error_r _ _ _ p r Hrows Hr)
      as ([i j] & Hq & rs & rp & Hrs & Hrp & ->).
    cbn [fst snd] in Hrs, Hrp.
    pose proof (nth_error_In _ _ Hq) as Hin.
    apply (matched_pairs_sound w ow shape pc source i j F') in Hin.
    destruct Hin as (_ & _ & Hcol).
    exists i, j, rs, rp. split; [| auto].
    intros G. rewrite (assembled_indices w ow shape pc source res rows F' G).
    rewrite nth_error_map, Hq. reflexivity. }
  change (vrows (_values (assembled w ow shape pc source res rows))) with rows.
  split; intros Hcmp p r Hr.
  - replace (_nnz (coalesce x_) >=? _nnz (coalesce y_)) with true in Hsel
      by (symmetry; apply Z.geb_le; lia).
    injection Hsel as -> ->. apply (Hrow p r Hr).
  - replace (_nnz (coalesce x_) >=? _nnz (coalesce y_)) with false in Hsel
      by (symmetry; rewrite Z.geb_leb; apply Z.leb_gt; lia).
    injection Hsel as -> ->. apply (Hrow p r Hr).
Qed.

(* ===================================================================== *)
(** ** Swapping the roles under a commutative operator *)
(* ===================================================================== *)

Lemma NoDup_flat_map_fst {B : Type} (f : Z -> list (Z * B)) (l : list Z) :
  NoDup l -> (forall k, In k l -> NoDup (f k)) ->
  (forall k p, In p (f k) -> fst p = k) ->
  NoDup (flat_map f l).
Proof.
  intros Hl Hf Hfst. induction Hl as [| a l Ha Hl IH]; cbn [flat_map];
    [constructor |].
  apply NoDup_app.
  - apply Hf. left. reflexivity.
  - apply IH. intros k Hk. apply Hf. right. exact Hk.
  - intros p Hp Hq. apply in_flat_map in Hq. destruct Hq as (k & Hk & Hpk).
    apply Hfst in Hp. apply Hfst in Hpk. subst. contradiction.
Qed.

(** The permutation returned by the sort stage has no repeated position. *)
Lemma argsort_NoDup (hash sorted argsort : list Z) :
  sort_stage_ok hash sorted argsort -> NoDup argsort.
Proof.
  intros (_ & _ & Hla & _ & _ & Hsurj).
  apply NoDup_incl_NoDup with (l := arange (zlen hash)).
  - apply NoDup_arange.
  - rewrite length_arange. unfold zlen. lia.
  - intros j Hj. apply In_arange in Hj.
    destruct (Hsurj j Hj) as (q & Hq & <-).
    apply deref_In. unfold zlen in *. lia.
Qed.

(** Every pair of a source nonzero and a probe nonzero at one coordinate is
    an output row exactly once. *)
Lemma kernel_pairs_NoDup (w ow : width) (shape : list Z) (pc source : Tensor) :
  fits w ow shape pc source -> NoDup (kernel_pairs w shape pc source).
Proof.
  intros F.
  pose proof (sort_stage_fits w ow shape pc source F) as Hstage.
  pose proof (argsort_NoDup _ _ _ Hstage) as Hnd.
  destruct Hstage as (_ & _ & Hla & _).
  pose proof (fun h => match_span_fits w ow shape pc source h F) as Hspan.
  cbv zeta in Hspan.
  pose proof F as [Hpc _ _ _ _ _ _].
  pose proof (nnz_indices shape pc Hpc) as Hn.
  rewrite length_map in Hla.
  unfold kernel_pairs, matched_pairs.
  apply NoDup_flat_map_fst.
  - apply NoDup_arange.
  - intros k _. unfold matches_of.
    set (h := linear_offset (sparse_shape shape pc) (column (_indices source) k)).
    destruct (Hspan h) as (H0 & Hle & Hub & _).
    set (sorted := fst (sorted_and_argsort w pc source shape)) in *.
    set (argsort := snd (sorted_and_argsort w pc source shape)) in *.
    set (lb := find_bound true sorted 0 (zlen sorted) h) in *.
    set (ub := find_bound false sorted 0 (zlen sorted) h) in *.
    apply NoDup_map_NoDup_ForallPairs; [| apply seq_NoDup].
    intros i1 i2 Hi1 Hi2 Heq. apply in_seq in Hi1, Hi2.
    injection Heq as Heq. unfold deref in Heq.
    rewrite Hn in Hub. unfold zlen in Hub.
    pose proof (proj1 (NoDup_nth argsort 0) Hnd
                  (Z.to_nat (lb + Z.of_nat i1)) (Z.to_nat (lb + Z.of_nat i2))
                  ltac:(lia) ltac:(lia) Heq).
    lia.
  - intros k p Hp. unfold matches_of in Hp. apply in_map_iff in Hp.
    destruct Hp as (i & <- & _). reflexivity.
Qed.

Lemma kernel_pairs_swap (w ow : width) (shape : list Z) (a b : Tensor) (i j : Z) :
  fits w ow shape a b ->
  In (i, j) (kernel_pairs w shape a b) -> In (j, i) (kernel_pairs w shape b a).
Proof.
  intros F Hin.
  apply (matched_pairs_sound w ow shape a b i j F) in Hin.
  destruct Hin as (Hi & Hj & Hcol).
  apply (matched_pairs_complete w ow shape b a j i (fits_swap w ow shape a b F));
    [exact Hj | exact Hi | symmetry; exact Hcol].
Qed.

Lemma Forall2_perm {A B : Type} (R : A -> B -> Prop) (l l' : list A) :
  Permutation l l' ->
  forall L, Forall2 R l L -> exists L', Permutation L L' /\ Forall2 R l' L'.
Proof.
  induction 1 as [| x l l' _ IH | x y l | l l' l'' _ IH1 _ IH2]; intros L HL.
  - inversion HL; subst. exists []. split; constructor.
  - inversion HL as [| ? e ? L0 Hxe HL0]; subst.
    destruct (IH L0 HL0) as (L0' & Hp & Hf).
    exists (e :: L0'). split; [constructor; exact Hp | constructor; assumption].
  - inversion HL as [| ? e1 ? L1 H1 HL1]; subst.
    inversion HL1 as [| ? e2 ? L2 H2 HL2]; subst.
    exists (e2 :: e1 :: L2). split; [apply perm_swap |].
    repeat constructor; assumption.
  - destruct (IH1 L HL) as (L' & Hp1 & Hf1).
    destruct (IH2 L' Hf1) as (L'' & Hp2 & Hf2).
    exists L''. split; [eapply perm_trans; eassumption | exact Hf2].
Qed.

Lemma Forall2_eq_in {A B : Type} (R1 R2 : A -> B -> Prop) (l : list A) :
  forall L1 L2,
    Forall2 R1 l L1 -> Forall2 R2 l L2 ->
    (forall x e1 e2, In x l -> R1 x e1 -> R2 x e2 -> e1 = e2) ->
    L1 = L2.
Proof.
  induction l as [| x l IH]; intros L1 L2 H1 H2 Hfun;
    inversion H1; inversion H2; subst; [reflexivity |].
  f_equal.
  - eapply Hfun; [left; reflexivity | eassumption | eassumption].
  - apply IH; try assumption.
    intros x' e1 e2 Hx'. apply Hfun. right. exact Hx'.
Qed.

Lemma Forall2_combine_map {A B C : Type} (Q : A -> C -> Prop) (g : A -> B)
    (l : list A) (rows : list C) :
  Forall2 Q l rows ->
  Forall2 (fun p e => fst e = g p /\ Q p (snd e)) l (combine (map g l) rows).
Proof.
  induction 1 as [| p r l rows Hpr _ IH]; cbn; constructor; auto.
Qed.

Lemma Forall2_map_l {A A' B : Type} (R : A' -> B -> Prop) (f : A -> A')
    (l : list A) (L : list B) :
  Forall2 (fun x e => R (f x) e) l L -> Forall2 R (map f l) L.
Proof. induction 1; cbn; constructor; assumption. Qed.

(** The rows of the result when the two roles are exchanged. *)
Lemma swapped_roles_rows (w ow : width) (shape : list Z) (a b : Tensor)
    (d : dtype) (rows1 rows2 : list Row) :
  (forall r1 r2, binary_op r1 r2 = binary_op r2 r1) ->
  fits w ow shape a b ->
  Forall2 (row_of_pair d b a) (kernel_pairs w shape a b) rows1 ->
  Forall2 (row_of_pair d a b) (kernel_pairs w shape b a) rows2 ->
  Permutation
    (combine (map (fun p => column (_indices b) (fst p)) (kernel_pairs w shape a b))
             rows1)
    (combine (map (fun p => column (_indices a) (fst p)) (kernel_pairs w shape b a))
             rows2).
Proof.
  intros Hcomm F H1 H2.
  pose proof (fits_swap w ow shape a b F) as F'.
  set (P1 := kernel_pairs w shape a b) in *.
  set (P2 := kernel_pairs w shape b a) in *.
  set (swap := fun p : Z * Z => (snd p, fst p)).
  assert (Hperm : Permutation (map swap P1) P2).
  { apply NoDup_Permutation.
    - apply NoDup_map_NoDup_ForallPairs;
        [| apply (kernel_pairs_NoDup w ow shape a b F)].
      intros [i1 j1] [i2 j2] _ _ He. unfold swap in He. cbn in He.
      injection He as -> ->. reflexivity.
    - apply (kernel_pairs_NoDup w ow shape b a F').
    - intros [j i]. split.
      + intros Hin. apply in_map_iff in Hin.
        destruct Hin as ([i' j'] & He & Hin). unfold swap in He. cbn in He.
        injection He as -> ->.
        apply (kernel_pairs_swap w ow shape a b i j F Hin).
      + intros Hin. apply in_map_iff. exists (i, j). split; [reflexivity |].
        apply (kernel_pairs_swap w ow shape b a j i F' Hin). }
  pose proof (Forall2_combine_map _ (fun p => column (_indices b) (fst p))
                _ _ H1) as E1.
  pose proof (Forall2_combine_map _ (fun p => column (_indices a) (fst p))
                _ _ H2) as E2.
  set (L1 := combine (map (fun p => column (_indices b) (fst p)) P1) rows1) in *.
  set (L2 := combine (map (fun p => column (_indices a) (fst p)) P2) rows2) in *.
  assert (E1' : Forall2 (fun q e => fst e = column (_indices b) (snd q)
                                    /\ row_of_pair d b a (swap q) (snd e))
                        (map swap P1) L1).
  { apply Forall2_map_l. eapply Forall2_impl; [| exact E1].
    intros [i j] e (He & Hr). split; assumption. }
  destruct (Forall2_perm _ _ _ Hperm L1 E1') as (L' & HpL & HF).
  replace L2 with L'; [exact HpL |].
  apply (Forall2_eq_in _ _ P2 L' L2 HF E2).
  intros [j i] [c1 r1] [c2 r2] Hin (Hc1 & Hr1) (Hc2 & Hr2).
  cbn [fst snd] in *. unfold swap in Hr1. cbn [fst snd] in Hr1.
  apply (matched_pairs_sound w ow shape b a j i F') in Hin.
  destruct Hin as (_ & _ & Hcol).
  destruct Hr1 as (rs1 & rp1 & Hs1 & Hp1 & ->).
  destruct Hr2 as (rs2 & rp2 & Hs2 & Hp2 & ->).
  cbn [fst snd] in *.
  rewrite Hs1 in Hp2. rewrite Hp1 in Hs2.
  injection Hp2 as <-. injection Hs2 as <-.
  rewrite (Hcomm rs1 rp1). f_equal. congruence.
Qed.

(** X20. Swapping the inputs of a commutative operator: when the operator
    is commutative on rows, the inputs fit the widths, role selection
    uses the two inputs as they are in both orders and the copy of the
    index columns stays in range in both ([gather_fits]), the results of the
    kernel on [(x, y)] and on [(y, x)] hold the same (index column, value
    row) entries, each the same number of times: one is a permutation of
    the other (the order of the rows follows the source, which the swap may
    change). *)
Theorem commutative_operator_swap (w ow : width) (x y : Tensor)
    (shape : list Z) (res pc source pc' source' : Tensor) :
  (forall r1 r2, binary_op r1 r2 = binary_op r2 r1) ->
  canCast (result_type x y) (scalar_type res) = true ->
  canCast (result_type y x) (scalar_type res) = true ->
  fits w ow shape x y ->
  select_roles x y = Some (pc, source) ->
  select_roles y x = Some (pc', source') ->
  (pc = x /\ source = y) \/ (pc = y /\ source = x) ->
  (pc' = x /\ source' = y) \/ (pc' = y /\ source' = x) ->
  gather_fits w ow shape pc source ->
  gather_fits w ow shape pc' source' ->
  exists r1 r2,
    _sparse_binary_op_intersection_kernel_impl w ow x y shape true res
    = (inr tt, r1)
    /\ _sparse_binary_op_intersection_kernel_impl w ow y x shape true res
       = (inr tt, r2)
    /\ Permutation (combine (_indices r1) (vrows (_values r1)))
                   (combine (_indices r2) (vrows (_values r2))).
Proof.
  intros Hcomm Hc1 Hc2 F Hr1 Hr2 Hcase1 Hcase2 Gf1 Gf2.
  pose proof (fits_swap w ow shape x y F) as F'.
  destruct (kernel_impl_runs w ow x y shape true res pc source Hc1 F Hr1)
    as (G1 & rows1 & Hrows1 & Hrun1).
  destruct (kernel_impl_runs w ow y x shape true res pc' source' Hc2 F' Hr2)
    as (G2 & rows2 & Hrows2 & Hrun2).
  exists (assembled w ow shape pc source res rows1),
    (assembled w ow shape pc' source' res rows2).
  split; [exact Hrun1 |]. split; [exact Hrun2 |].
  rewrite (assembled_indices w ow shape pc source res rows1 G1 Gf1).
  rewrite (assembled_indices w ow shape pc' source' res rows2 G2 Gf2).
  unfold assembled. cbn [_values vrows].
  assert (Hsame : forall (a b : Tensor) (ra rb : list Row),
            Forall2 (row_of_pair (scalar_type res) b a) (kernel_pairs w shape a b) ra ->
            Forall2 (row_of_pair (scalar_type res) b a) (kernel_pairs w shape a b) rb ->
            ra = rb).
  { intros a b ra rb Ha Hb.
    apply (Forall2_eq_in _ _ _ ra rb Ha Hb).
    intros p e1 e2 _ (rs1 & rp1 & Hs1 & Hp1 & ->) (rs2 & rp2 & Hs2 & Hp2 & ->).
    congruence. }
  destruct Hcase1 as [(-> & ->) | (-> & ->)];
    destruct Hcase2 as [(-> & ->) | (-> & ->)].
  - rewrite (Hsame x y rows1 rows2 Hrows1 Hrows2). apply Permutation_refl.
  - apply (swapped_roles_rows w ow shape x y (scalar_type res) rows1 rows2
             Hcomm G1 Hrows1 Hrows2).
  - apply (swapped_roles_rows w ow shape y x (scalar_type res) rows1 rows2
             Hcomm G1 Hrows1 Hrows2).
  - rewrite (Hsame y x rows1 rows2 Hrows1 Hrows2). apply Permutation_refl.
Qed.

(* ===================================================================== *)
(** ** The copy of the index columns beyond its range *)
(* ===================================================================== *)

(** X22. Where the copy of the index columns leaves its range. With
    [offset_t = int32_t] the subscript [d * dim_stride] is a product in
    [unsigned int]. For four sparse dimensions and index tensors of
    1500000000 columns (contiguous: stride 1500000000 between the rows),
    the task of the source nonzero [k] with one match stores the entries of
    the dimensions 0, 1 and 2 of its column at their slots, and the entry
    of dimension 3 at offset [k + 205032704], a slot of the row of
    dimension 0, read from the same offset of the source: no store of the
    task reaches the row of dimension 3, which starts at offset
    [3 * 1500000000]. With [offset_t = int64_t] the same task stores the
    four entries at their slots. *)
Theorem index_copy_wraps_at_scale (w : width) (argsort : list Z)
    (source_data : Z -> Z) (k first_match_idx : Z) :
  0 <= k < 1500000000 ->
  let strides :=
    {| selected_source_sparse_indices_nnz_stride := 1;
       selected_source_sparse_indices_dim_stride := 1500000000;
       source_sparse_indices_nnz_stride := 1;
       source_sparse_indices_dim_stride := 1500000000 |} in
  let task := fun ow =>
    gather_task w ow 4 argsort strides source_data
      (k, 1, first_match_idx, k + 1) in
  let index_stores := fun ow =>
    filter (fun wr => output_eqb (target wr) SelectedSourceSparseIndices)
           (task ow) in
  writes_to SelectedSource (task W32) = [k]
  /\ writes_to SelectedProbablyCoalesced (task W32) = [k]
  /\ map address (index_stores W32)
     = [k; k + 1500000000; k + 3000000000; k + 205032704]
  /\ map stored (index_stores W32)
     = map source_data [k; k + 1500000000; k + 3000000000; k + 205032704]
  /\ (forall a, In a (writes_to SelectedSourceSparseIndices (task W32)) ->
        0 <= a < 3 * 1500000000)
  /\ map address (index_stores W64)
     = [k; k + 1500000000; k + 3000000000; k + 4500000000].
Proof.
  intros Hk. cbv zeta.
  assert (Hoff : forall ow, sub_w ow (k + 1) (cast ow 1) = k).
  { intros ow. unfold sub_w. rewrite cast_idem_1.
    replace (k + 1 - 1) with k by lia.
    apply cast_nonneg_small. pose proof (max_of_le_W64 ow).
    destruct ow; [rewrite max_of_W32 | rewrite max_of_W64]; lia. }
  assert (Hout : forall ow, mul_w ow k 1 = k).
  { intros ow. unfold mul_w. rewrite Z.mul_1_r.
    apply cast_nonneg_small.
    destruct ow; [rewrite max_of_W32 | rewrite max_of_W64]; lia. }
  assert (Htask : forall ow,
    filter (fun wr => output_eqb (target wr) SelectedSourceSparseIndices)
      (gather_task w ow 4 argsort
         {| selected_source_sparse_indices_nnz_stride := 1;
            selected_source_sparse_indices_dim_stride := 1500000000;
            source_sparse_indices_nnz_stride := 1;
            source_sparse_indices_dim_stride := 1500000000 |}
         source_data (k, 1, first_match_idx, k + 1))
    = map (fun d => {| target := SelectedSourceSparseIndices;
                       address := k + dim_subscript ow d 1500000000;
                       stored := source_data
                                   (k + dim_subscript ow d 1500000000) |})
          (seq 0 4)).
  { intros ow. unfold gather_task. rewrite Hoff.
    change (Z.to_nat 1) with 1%nat. cbn [seq flat_map].
    rewrite app_nil_r. unfold gather_write.
    cbn [selected_source_sparse_indices_nnz_stride
         source_sparse_indices_nnz_stride].
    rewrite Hout, (Hout W64). cbn [filter target output_eqb].
    rewrite filter_copy_column. unfold copy_column.
    cbn [Z.of_nat Z.mul selected_source_sparse_indices_dim_stride
         source_sparse_indices_dim_stride].
    rewrite Z.add_0_r. reflexivity. }
  assert (Hslot : forall o, o <> SelectedSourceSparseIndices ->
    writes_to o
      (gather_task w W32 4 argsort
         {| selected_source_sparse_indices_nnz_stride := 1;
            selected_source_sparse_indices_dim_stride := 1500000000;
            source_sparse_indices_nnz_stride := 1;
            source_sparse_indices_dim_stride := 1500000000 |}
         source_data (k, 1, first_match_idx, k + 1))
    = [k]).
  { intros o Ho. unfold writes_to, gather_task. rewrite Hoff.
    change (Z.to_nat 1) with 1%nat. cbn [seq flat_map].
    rewrite app_nil_r. unfold gather_write, copy_column.
    destruct o; [| | contradiction Ho; reflexivity];
      cbn; f_equal; lia. }
  unfold writes_to in *. rewrite !Htask.
  split; [apply Hslot; discriminate |].
  split; [apply Hslot; discriminate |].
  cbn [seq map address stored].
  change (dim_subscript W32 0 1500000000) with 0.
  change (dim_subscript W32 1 1500000000) with 1500000000.
  change (dim_subscript W32 2 1500000000) with 3000000000.
  change (dim_subscript W32 3 1500000000) with 205032704.
  change (dim_subscript W64 0 1500000000) with 0.
  change (dim_subscript W64 1 1500000000) with 1500000000.
  change (dim_subscript W64 2 1500000000) with 3000000000.
  change (dim_subscript W64 3 1500000000) with 4500000000.
  rewrite Z.add_0_r.
  split; [reflexivity |]. split; [reflexivity |].
  split; [| reflexivity].
  intros a [<- | [<- | [<- | [<- | []]]]]; lia.
Qed.

End Kernel.

(* ===================================================================== *)
(** ** Concrete inputs *)
(* ===================================================================== *)

Module Examples.

(** The instance used for concrete runs: integer value rows with no dense
    dimension, multiplication as the operator, one dtype. *)
Definition T : Type := Tensor unit Z.

Definition coo (sparse_shape : list Z) (indices : list (list Z))
    (values : list Z) (coalesced : bool) : T :=
  {| is_sparse := true;
     scalar_type := tt;
     sparse_dim := zlen sparse_shape;
     dense_dim := 0;
     sizes := sparse_shape;
     _indices := indices;
     _values := {| vdim := 1; vrows := values |};
     is_coalesced := coalesced |}.

(** The index tensors of the concrete inputs are contiguous: [sparse_dim]
    rows of [nnz] entries, so that [stride(0) = nnz] and [stride(1) = 1],
    and the entry [d] of the column [k] is at offset [d * nnz + k]. *)
Definition contiguous_stride (t : T) : Z * Z := (zlen (_indices unit Z t), 1).

Definition contiguous_data (t : T) (a : Z) : Z :=
  let nnz := zlen (_indices unit Z t) in
  nth (Z.to_nat (a / nnz)) (column (_indices unit Z t) (a mod nnz)) 0.

(** Fresh memory, for the concrete runs: every word reads [-1]. *)
Definition fresh (a : Z) : Z := -1.

Definition kernel_impl (w ow : width) (x y : T) (shape : list Z)
    (is_commutative : bool) : M unit Z unit :=
  _sparse_binary_op_intersection_kernel_impl unit Z (fun _ _ => true) Z.mul
    (fun _ r => r) Z.add (fun _ _ => tt) contiguous_stride
    contiguous_data fresh w ow x y shape is_commutative.

Definition kernel_out (x y : T) (is_commutative : bool) : M unit Z unit :=
  _sparse_binary_op_intersection_kernel_out unit Z (fun _ _ => true) Z.mul
    (fun _ r => r) Z.add (fun _ _ => tt) contiguous_stride
    contiguous_data fresh x y is_commutative.

(** The scenario of the spec: coordinates [0, 2, 4] with values [1, 2, 3],
    coalesced, and coordinates [2, 2, 5] with values [10, 20, 30], not
    coalesced. *)
Definition ex_x : T := coo [6] [[0]; [2]; [4]] [1; 2; 3] true.
Definition ex_y : T := coo [6] [[2]; [2]; [5]] [10; 20; 30] false.

(** Two coalesced inputs on a 3 x 4 coordinate space. *)
Definition ex_a : T := coo [3; 4] [[0; 1]; [1; 3]; [2; 0]] [1; 2; 3] true.
Definition ex_b : T := coo [3; 4] [[1; 3]; [2; 0]; [2; 2]] [5; 7; 9] true.

(** An output tensor before the call. *)
Definition ex_res : T := coo [0] [] [] false.

(** Inputs with a repeated coordinate: [dup_x] holds coordinate 2 twice and
    [dup_y] once, neither is coalesced. *)
Definition dup_x : T := coo [6] [[2]; [2]] [1; 2] false.
Definition dup_y : T := coo [6] [[2]] [10] false.

(** 51 nonzeros at the single point of a one-point space, and one nonzero
    there, neither coalesced. *)
Definition many_x : T := coo [1] (repeat [0] 51) (repeat 1 51) false.
Definition many_y : T := coo [1] [[0]] [7] false.

(** Two coalesced inputs on a 65536 x 65536 coordinate space: the number
    of points, [2^32], is 0 once stored in the [int] accumulator of role
    selection. *)
Definition wide_x : T := coo [65536; 65536] [[0; 0]] [1] true.
Definition wide_y : T := coo [65536; 65536] [[1; 1]] [2] true.

(** Two inputs without nonzeros on a sparse dimension of size 0, neither
    coalesced. *)
Definition empty_x : T := coo [0] [] [] false.
Definition empty_y : T := coo [0] [] [] false.

(** An input whose coordinates [1, 3] are not among those of [ex_x]. *)
Definition apart_y : T := coo [6] [[1]; [3]] [10; 20] false.

(** A dense tensor: the entry point's check refuses it. *)
Definition dense_x : T :=
  {| is_sparse := false; scalar_type := tt; sparse_dim := 0; dense_dim := 1;
     sizes := [6]; _indices := []; _values := {| vdim := 1; vrows := [] |};
     is_coalesced := false |}.

(** Proves [well_formed shape t] of a concrete tensor. *)
Ltac well_formed_example :=
  constructor;
  [ vm_compute; split; [discriminate | reflexivity]
  | vm_compute; discriminate
  | reflexivity
  | repeat constructor; vm_compute; try discriminate; reflexivity
  | first [ discriminate | intros _; repeat constructor ] ].

(** Proves [fits w ow shape pc source] of concrete tensors. *)
Ltac fits_example :=
  constructor;
  [ well_formed_example | well_formed_example | reflexivity
  | vm_compute; discriminate .. ].

Lemma fits_ex_x_ex_y : fits unit Z W32 W32 [6] ex_x ex_y.
Proof. fits_example. Defined.

Lemma fits_ex_a_ex_b : fits unit Z W32 W32 [3; 4] ex_a ex_b.
Proof. fits_example. Defined.

Lemma fits_ex_x_apart_y : fits unit Z W32 W32 [6] ex_x apart_y.
Proof. fits_example. Defined.

Lemma fits_empty : fits unit Z W32 W32 [0] empty_x empty_y.
Proof. fits_example. Defined.

Lemma apart_disjoint (c : list Z) :
  ~ (In c (_indices unit Z ex_x) /\ In c (_indices unit Z apart_y)).
Proof.
  intros [Hx Hy]. cbn in Hx, Hy.
  destruct Hy as [<- | [<- | []]];
    destruct Hx as [H | [H | [H | []]]]; discriminate H.
Defined.

Lemma fits_dup : fits unit Z W32 W32 [6] dup_x dup_y.
Proof. fits_example. Defined.


(** Proves [gather_fits w ow shape pc source] of concrete tensors. *)
Ltac gather_fits_example := apply gather_fitsb_sound; vm_compute; reflexivity.

Lemma gather_fits_ex_x_ex_y :
  gather_fits unit Z contiguous_stride contiguous_data W32 W32 [6] ex_x ex_y.
Proof. gather_fits_example. Defined.


Lemma sorted_example : Sorted Z.le [1; 3; 3; 5; 5].
Proof. repeat constructor; discriminate. Defined.

(** Witness of C5: in [1; 3; 3; 5; 5] the lower bound of 3 is position 1,
    its upper bound position 3, and the record of a source nonzero whose
    hash is 3 is [(count, first) = (2, 1)]. *)
Lemma find_bound_witness :
  Sorted Z.le [1; 3; 3; 5; 5]
  /\ find_bound true [1; 3; 3; 5; 5] 0 5 3 = 1
  /\ find_bound false [1; 3; 3; 5; 5] 0 5 3 = 3
  /\ (forall i, 0 <= i < 1 -> deref [1; 3; 3; 5; 5] i < 3)
  /\ (forall i, 3 <= i < 5 -> 3 < deref [1; 3; 3; 5; 5] i).
Proof.
  split; [exact sorted_example |].
  split; [reflexivity |]. split; [reflexivity |].
  destruct (find_bound_lower_upper_span [1; 3; 3; 5; 5] 3 sorted_example)
    as ((_ & Hl & _) & (_ & _ & Hu) & _).
  split; [exact Hl | exact Hu].
Defined.

(** Witness of C4: [ex_a] is a coalesced probe on a 3 x 4 space; its hashes
    1, 7, 8 are returned with the identity permutation. *)
Lemma hash_order_witness :
  fits unit Z W32 W32 [3; 4] ex_a ex_b
  /\ is_coalesced unit Z ex_a = true
  /\ sorted_and_argsort unit Z W32 ex_a ex_b [3; 4] = ([1; 7; 8], [0; 1; 2])
  /\ Sorted Z.le [1; 7; 8].
Proof.
  split; [exact fits_ex_a_ex_b |]. split; [reflexivity |].
  destruct (hash_injective_order_preserving unit Z W32 W32 [3; 4] ex_a ex_b)
    as (_ & H).
  destruct (H fits_ex_a_ex_b) as (_ & _ & Hco).
  destruct (Hco eq_refl) as (Hsorted & Heq).
  split; [rewrite Heq; reflexivity | exact Hsorted].
Defined.




(** Witness of X21: the scenario has two output rows; [ex_x] and
    [apart_y] share no coordinate, and the result has no nonzero; both
    results have the broadcasted shape, the source's [sparse_dim] and no
    dense dimension. *)
Lemma result_size_witness :
  (fits unit Z W32 W32 [6] ex_x ex_y
   /\ select_roles unit Z Z.add ex_x ex_y = Some (ex_x, ex_y)
   /\ _nnz unit Z (snd (kernel_impl W32 W32 ex_x ex_y [6] true ex_res)) = 2
   /\ sizes unit Z (snd (kernel_impl W32 W32 ex_x ex_y [6] true ex_res)) = [6]
   /\ sparse_dim unit Z (snd (kernel_impl W32 W32 ex_x ex_y [6] true ex_res)) = 1)
  /\ (fits unit Z W32 W32 [6] ex_x apart_y
      /\ select_roles unit Z Z.add ex_x apart_y = Some (ex_x, apart_y)
      /\ (forall c, ~ (In c (_indices unit Z ex_x)
                       /\ In c (_indices unit Z apart_y)))
      /\ fst (kernel_impl W32 W32 ex_x apart_y [6] true ex_res) = inr tt
      /\ _nnz unit Z (snd (kernel_impl W32 W32 ex_x apart_y [6] true ex_res)) = 0
      /\ sizes unit Z (snd (kernel_impl W32 W32 ex_x apart_y [6] true ex_res))
         = [6]
      /\ sparse_dim unit Z
           (snd (kernel_impl W32 W32 ex_x apart_y [6] true ex_res)) = 1
      /\ dense_dim unit Z
           (snd (kernel_impl W32 W32 ex_x apart_y [6] true ex_res)) = 0).
Proof.
  split.
  - split; [exact fits_ex_x_ex_y |]. split; [reflexivity |].
    destruct (result_size_and_shape unit Z (fun _ _ => true) Z.mul
                (fun _ r => r) Z.add (fun _ _ => tt) contiguous_stride
                contiguous_data fresh W32 W32 ex_x ex_y [6] true
                ex_res ex_x ex_y eq_refl fits_ex_x_ex_y eq_refl)
      as (res' & Hrun & Hnnz & _ & _ & _ & Hsizes & Hsd & _).
    unfold kernel_impl. rewrite Hrun. cbn [snd].
    split; [rewrite Hnnz; reflexivity |].
    split; [exact Hsizes | rewrite Hsd; reflexivity].
  - split; [exact fits_ex_x_apart_y |]. split; [reflexivity |].
    split; [exact apart_disjoint |].
    destruct (result_size_and_shape unit Z (fun _ _ => true) Z.mul
                (fun _ r => r) Z.add (fun _ _ => tt) contiguous_stride
                contiguous_data fresh W32 W32 ex_x apart_y [6] true
                ex_res ex_x apart_y eq_refl fits_ex_x_apart_y eq_refl)
      as (res' & Hrun & _ & _ & _ & Hnone & Hsizes & Hsd & Hdd).
    unfold kernel_impl. rewrite Hrun. cbn [fst snd].
    split; [reflexivity |].
    split; [exact (Hnone apart_disjoint) |].
    split; [exact Hsizes |].
    split; [rewrite Hsd; reflexivity |].
    rewrite Hdd.
    change res' with (snd (@inr failure unit tt, res')).
    rewrite <- Hrun. reflexivity.
Defined.


(** Witness of C9: the scenario selects 32-bit hashes and offsets. *)
Lemma width_selection_witness :
  0 <= sparse_dim unit Z ex_x <= zlen [6]
  /\ fst (select_widths unit Z ex_x ex_y [6]) = W32
  /\ snd (select_widths unit Z ex_x ex_y [6]) = W32.
Proof.
  assert (H1 : 0 <= sparse_dim unit Z ex_x <= zlen [6])
    by (vm_compute; split; discriminate).
  split; [exact H1 |].
  destruct (width_selection unit Z (fun _ _ => true) Z.mul (fun _ r => r) Z.add
              (fun _ _ => tt) contiguous_stride contiguous_data fresh
              ex_x ex_y [6] H1) as (Hh & Ho & _).
  - vm_compute. split; discriminate.
  - vm_compute. discriminate.
  - split; [apply Hh | apply Ho]; vm_compute; discriminate.
Defined.

(** Witness of C10: neither [dup_x] nor [dup_y] is coalesced; with a
    non-commutative operator the output's flag is set. *)
Lemma non_commutative_witness :
  fits unit Z W32 W32 [6] dup_x dup_y
  /\ is_coalesced unit Z dup_x = false /\ is_coalesced unit Z dup_y = false
  /\ is_coalesced unit Z (snd (kernel_impl W32 W32 dup_x dup_y [6] false ex_res))
     = true.
Proof.
  split; [exact fits_dup |]. split; [reflexivity |]. split; [reflexivity |].
  destruct (non_commutative_coalesces unit Z (fun _ _ => true) Z.mul
              (fun _ r => r) Z.add (fun _ _ => tt) contiguous_stride
              contiguous_data fresh W32 W32 dup_x dup_y [6] ex_res
              (coalesce unit Z Z.add dup_x) (coalesce unit Z Z.add dup_y)
              eq_refl fits_dup eq_refl)
    as (_ & _ & _ & rows & Hrun & Hflag).
  unfold kernel_impl. rewrite Hrun. exact Hflag.
Defined.

(** Witness of C7: a dense input is refused and [ex_res] is as before. *)
Lemma entry_errors_witness :
  kernel_out dense_x ex_y true ex_res = (inl (InputCheckFailed), ex_res).
Proof.
  destruct (entry_errors_leave_res_unchanged unit Z (fun _ _ => true) Z.mul
              (fun _ r => r) Z.add (fun _ _ => tt) contiguous_stride
              contiguous_data fresh dense_x ex_y true ex_res)
    as (Hcheck & _).
  apply Hcheck. intros ((Hs & _) & _). discriminate Hs.
Defined.

(** C6. Where the claimed empty-intersection case fails. The inputs
    [empty_x] and [empty_y] have no nonzero and a sparse dimension of size
    0: they pass the entry point's check, their shapes broadcast to [[0]],
    both 32-bit widths are selected, they are well formed and fit those
    widths, and no coordinate is in both. The two flags are equal, so role
    selection divides [larger._nnz()] by [sparse_dim_numel = 0] (line 137):
    the entry point stops in that undefined operation, for
    [is_commutative] true and false, and [res] is not given the shape, the
    [sparse_dim], the [dense_dim] and the zero nonzero count of an empty
    intersection: it is as before the call. *)
Lemma empty_intersection_divides_by_zero :
  inputs_ok unit Z empty_x empty_y = true
  /\ infer_size (sizes unit Z empty_x) (sizes unit Z empty_y) = Some [0]
  /\ select_widths unit Z empty_x empty_y [0] = (W32, W32)
  /\ fits unit Z W32 W32 [0] empty_x empty_y
  /\ (forall c, ~ (In c (_indices unit Z empty_x)
                   /\ In c (_indices unit Z empty_y)))
  /\ _nnz unit Z empty_x = 0
  /\ _nnz unit Z empty_y = 0
  /\ sparse_dim_numel unit Z empty_x = 0
  /\ select_roles unit Z Z.add empty_x empty_y = None
  /\ kernel_out empty_x empty_y true ex_res = (inl Undefined, ex_res)
  /\ kernel_out empty_x empty_y false ex_res = (inl Undefined, ex_res).
Proof.
  split; [reflexivity |]. split; [reflexivity |]. split; [reflexivity |].
  split; [exact fits_empty |].
  split; [intros c [[] _] |].
  repeat split.
Qed.

(** Witness of X22: the tasks of the source nonzeros 0 and 205032704 both
    store to offset 205032704 of the index tensor, the first one the entry
    of dimension 3 of its column and the second one the entry of dimension
    0. *)
Lemma index_copy_wraps_witness :
  let strides :=
    {| selected_source_sparse_indices_nnz_stride := 1;
       selected_source_sparse_indices_dim_stride := 1500000000;
       source_sparse_indices_nnz_stride := 1;
       source_sparse_indices_dim_stride := 1500000000 |} in
  0 <= 0 < 1500000000
  /\ 0 <= 205032704 < 1500000000
  /\ nth 3 (writes_to SelectedSourceSparseIndices
              (gather_task W32 W32 4 [0] strides (fun a => a) (0, 1, 0, 1))) 0
     = 205032704
  /\ nth 0 (writes_to SelectedSourceSparseIndices
              (gather_task W32 W32 4 [0] strides (fun a => a)
                 (205032704, 1, 0, 205032705))) 0
     = 205032704.
Proof.
  cbv zeta.
  assert (H0 : 0 <= 0 < 1500000000) by lia.
  assert (H1 : 0 <= 205032704 < 1500000000) by lia.
  split; [exact H0 |]. split; [exact H1 |].
  destruct (index_copy_wraps_at_scale W32 [0] (fun a => a) 0 0 H0)
    as (_ & _ & Ha & _).
  destruct (index_copy_wraps_at_scale W32 [0] (fun a => a) 205032704 0 H1)
    as (_ & _ & Hb & _).
  split.
  - exact (f_equal (fun l => nth 3 l 0) Ha).
  - exact (f_equal (fun l => nth 0 l 0) Hb).
Defined.

(** Where role selection does not return: both flags are equal and the
    divisor of [larger._nnz() / sparse_dim_numel] is zero. *)
Lemma role_selection_zero_divisor :
  sparse_dim_numel unit Z wide_x = 0
  /\ select_roles unit Z Z.add wide_x wide_y = None
  /\ fst (kernel_out wide_x wide_y true ex_res) = inl Undefined.
Proof. vm_compute. repeat split. Qed.



(** The kernel with subtraction as the operator: an operator that is not
    commutative. *)
Definition kernel_sub (w ow : width) (x y : T) (shape : list Z)
    (is_commutative : bool) : M unit Z unit :=
  _sparse_binary_op_intersection_kernel_impl unit Z (fun _ _ => true) Z.sub
    (fun _ r => r) Z.add (fun _ _ => tt) contiguous_stride
    contiguous_data fresh w ow x y shape is_commutative.

(** An array that is not sorted, and whose positions 1 to 4 the test
    [*it < 5] partitions. *)
Definition partitioned_example : list Z := [9; 2; 1; 7; 8; 0].

Lemma well_formed_ex_x : well_formed unit Z [6] ex_x.
Proof. well_formed_example. Defined.

Lemma well_formed_ex_y : well_formed unit Z [6] ex_y.
Proof. well_formed_example. Defined.

Lemma well_formed_ex_a : well_formed unit Z [3; 4] ex_a.
Proof. well_formed_example. Defined.

Lemma fits_ex_a_ex_a : fits unit Z W32 W32 [3; 4] ex_a ex_a.
Proof. fits_example. Defined.

Lemma gather_fits_ex_a_ex_a :
  gather_fits unit Z contiguous_stride contiguous_data W32 W32 [3; 4] ex_a ex_a.
Proof. gather_fits_example. Defined.

Lemma well_formed_many_x : well_formed unit Z [1] many_x.
Proof. well_formed_example. Defined.

(** Two inputs that are not coalesced, with as many nonzeros each, holding
    the coordinates 2 and 4 in opposite orders. *)
Definition swap_u : T := coo [6] [[4]; [2]] [1; 2] false.
Definition swap_v : T := coo [6] [[2]; [4]] [10; 30] false.

Lemma fits_swap_u_v : fits unit Z W32 W32 [6] swap_u swap_v.
Proof. fits_example. Defined.

Lemma gather_fits_swap_u_v :
  gather_fits unit Z contiguous_stride contiguous_data W32 W32 [6] swap_u swap_v.
Proof. gather_fits_example. Defined.

Lemma gather_fits_swap_v_u :
  gather_fits unit Z contiguous_stride contiguous_data W32 W32 [6] swap_v swap_u.
Proof. gather_fits_example. Defined.

(** Witness of X3: on positions 1 to 4 of [9; 2; 1; 7; 8; 0] the lower
    bound of 5 is position 3. *)
Lemma find_bound_partition_witness :
  1 <= 5
  /\ find_bound true partitioned_example 1 5 5 = 3
  /\ (forall i, 1 <= i < 3 ->
        bound_test true (deref partitioned_example i) 5 = true)
  /\ (forall i, 3 <= i < 5 ->
        bound_test true (deref partitioned_example i) 5 = false).
Proof.
  assert (Hle : 1 <= 5) by lia.
  assert (Hpart : forall i j, 1 <= i <= j /\ j < 5 ->
            bound_test true (deref partitioned_example j) 5 = true ->
            bound_test true (deref partitioned_example i) 5 = true).
  { intros i j Hij.
    assert (Hc : (i = 1 \/ i = 2 \/ i = 3 \/ i = 4)
                 /\ (j = 1 \/ j = 2 \/ j = 3 \/ j = 4)) by lia.
    destruct Hc as ([-> | [-> | [-> | ->]]] & [-> | [-> | [-> | ->]]]);
      try lia; vm_compute; intros H; first [reflexivity | discriminate H]. }
  destruct (find_bound_partition_point true partitioned_example 1 5 5 Hle Hpart)
    as (_ & Hl & Hh & _).
  split; [exact Hle |]. split; [reflexivity |].
  split; [exact Hl | exact Hh].
Defined.

(** Witness of X4: on the whole of [9; 2; 1; 7; 8; 0], which is not
    sorted, the bounds of 2 are ordered and inside the array. *)
Lemma find_bound_ordered_witness :
  0 <= 6
  /\ 0 <= find_bound true partitioned_example 0 6 2
  /\ find_bound true partitioned_example 0 6 2
     <= find_bound false partitioned_example 0 6 2
  /\ find_bound false partitioned_example 0 6 2 <= 6.
Proof.
  assert (Hle : 0 <= 6) by lia.
  destruct (find_bound_pair_ordered partitioned_example 0 6 2 Hle)
    as ((H1 & H2 & H3) & _).
  split; [exact Hle |]. split; [exact H1 |]. split; [exact H2 | exact H3].
Defined.

(** Witness of X5: in [1; 3; 3; 5; 5] the span of 3 ends at position 3,
    where the span of 5 starts. *)
Lemma find_bound_spans_witness :
  Sorted Z.le [1; 3; 3; 5; 5]
  /\ 3 < 5
  /\ find_bound false [1; 3; 3; 5; 5] 0 5 3 = 3
  /\ find_bound true [1; 3; 3; 5; 5] 0 5 5 = 3
  /\ find_bound false [1; 3; 3; 5; 5] 0 (zlen [1; 3; 3; 5; 5]) 3
     <= find_bound true [1; 3; 3; 5; 5] 0 (zlen [1; 3; 3; 5; 5]) 5.
Proof.
  assert (Hlt : 3 < 5) by lia.
  destruct (find_bound_spans_ordered [1; 3; 3; 5; 5] 3 5 sorted_example Hlt)
    as (Hsep & _).
  split; [exact sorted_example |]. split; [exact Hlt |].
  split; [reflexivity |]. split; [reflexivity | exact Hsep].
Defined.

(** Witness of X8: [ex_x] is coalesced; it is the probe, and its hashes
    0, 2, 4 are used as they are, with the positions 0, 1, 2. *)
Lemma skips_sort_witness :
  select_roles unit Z Z.add ex_x ex_y = Some (ex_x, ex_y)
  /\ sorted_and_argsort unit Z W32 ex_x ex_y [6] = ([0; 2; 4], [0; 1; 2]).
Proof.
  split; [reflexivity |].
  destruct (coalesced_operand_skips_sort unit Z Z.add W32 ex_x ex_y ex_x ex_y [6]
              eq_refl) as (_ & _ & Hskip & _).
  rewrite (Hskip eq_refl). reflexivity.
Defined.

(** Witness of X9: [many_x] holds the only point of its space 51 times;
    role selection coalesces it, and it holds a coordinate more than 50
    times. *)
Lemma eager_coalesce_witness :
  is_coalesced unit Z many_x = is_coalesced unit Z many_y
  /\ well_formed unit Z [1] many_x
  /\ select_roles unit Z Z.add many_x many_y
     = Some (coalesce unit Z Z.add many_x, many_y)
  /\ exists c, In c (_indices unit Z many_x)
               /\ (50 < multiplicity unit Z c many_x)%nat.
Proof.
  split; [reflexivity |]. split; [exact well_formed_many_x |].
  split; [reflexivity |].
  destruct (eager_coalesce_needs_repeats unit Z Z.add many_x many_y
              (coalesce unit Z Z.add many_x) many_y eq_refl well_formed_many_x)
    as (_ & _ & _ & Hrep & _).
  - vm_compute. split; [reflexivity | discriminate].
  - reflexivity.
  - apply Hrep. intros H.
    apply (f_equal (is_coalesced unit Z)) in H. discriminate H.
Defined.

(** Witness of X10: on the 3 x 4 space of [ex_a] the hash of the point
    (1, 3) is 7, within [0, 12), and 7 is the hash of that point only. *)
Lemma hash_bijective_witness :
  well_formed unit Z [3; 4] ex_a
  /\ numel (sparse_shape unit Z [3; 4] ex_a) <= max_of W32
  /\ Forall (fun s => 0 <= s) (sparse_shape unit Z [3; 4] ex_a)
  /\ 0 <= compute_hash W32 (sdim_of unit Z ex_a) (hash_coeffs unit Z W32 ex_a [3; 4])
            [1; 3] < 12
  /\ exists c, in_bounds [3; 4] c
               /\ compute_hash W32 (sdim_of unit Z ex_a)
                    (hash_coeffs unit Z W32 ex_a [3; 4]) c = 7.
Proof.
  assert (H1 : numel (sparse_shape unit Z [3; 4] ex_a) <= max_of W32)
    by (vm_compute; discriminate).
  assert (H2 : Forall (fun s => 0 <= s) (sparse_shape unit Z [3; 4] ex_a))
    by (repeat constructor; discriminate).
  destruct (hash_bijective_onto_offsets unit Z W32 [3; 4] ex_a
              well_formed_ex_a H1 H2) as (Hrange & Honto).
  split; [exact well_formed_ex_a |]. split; [exact H1 |]. split; [exact H2 |].
  split.
  - apply (Hrange [1; 3]). repeat constructor; discriminate.
  - destruct (Honto 7) as (c & Hc & Hh & _);
      [vm_compute; split; [discriminate | reflexivity] |].
    exists c. split; [exact Hc | exact Hh].
Defined.

(** Witness of X11: the source [ex_y] holds coordinate 2 twice and 5 once,
    the coalesced probe [ex_x] holds 2 and not 5: the result's columns are
    2, 2. *)
Lemma result_columns_witness :
  fits unit Z W32 W32 [6] ex_x ex_y
  /\ select_roles unit Z Z.add ex_x ex_y = Some (ex_x, ex_y)
  /\ gather_fits unit Z contiguous_stride contiguous_data W32 W32 [6] ex_x ex_y
  /\ _indices unit Z (snd (kernel_impl W32 W32 ex_x ex_y [6] true ex_res))
     = [[2]; [2]].
Proof.
  split; [exact fits_ex_x_ex_y |]. split; [reflexivity |].
  split; [exact gather_fits_ex_x_ex_y |].
  destruct (result_columns_follow_source unit Z (fun _ _ => true) Z.mul
              (fun _ r => r) Z.add (fun _ _ => tt) contiguous_stride
              contiguous_data fresh W32 W32 ex_x ex_y [6] true
              ex_res ex_x ex_y eq_refl fits_ex_x_ex_y eq_refl
              gather_fits_ex_x_ex_y)
    as (res' & Hrun & Hidx & _).
  unfold kernel_impl. rewrite Hrun. cbn [snd]. rewrite Hidx. reflexivity.
Defined.

(** Witness of X12: the result of the scenario is well formed. *)
Lemma result_well_formed_witness :
  fits unit Z W32 W32 [6] ex_x ex_y
  /\ select_roles unit Z Z.add ex_x ex_y = Some (ex_x, ex_y)
  /\ gather_fits unit Z contiguous_stride contiguous_data W32 W32 [6] ex_x ex_y
  /\ well_formed unit Z [6] (snd (kernel_impl W32 W32 ex_x ex_y [6] true ex_res)).
Proof.
  split; [exact fits_ex_x_ex_y |]. split; [reflexivity |].
  split; [exact gather_fits_ex_x_ex_y |].
  destruct (result_well_formed unit Z (fun _ _ => true) Z.mul
              (fun _ r => r) Z.add (fun _ _ => tt) contiguous_stride
              contiguous_data fresh W32 W32 ex_x ex_y [6] true
              ex_res ex_x ex_y eq_refl fits_ex_x_ex_y eq_refl
              gather_fits_ex_x_ex_y)
    as (res' & Hrun & Hwf & _).
  unfold kernel_impl. rewrite Hrun. exact Hwf.
Defined.

(** Witness of X13: in the scenario the probe is coalesced, and the result
    has 2 rows, not more than the 3 of the source. *)
Lemma result_nnz_witness :
  fits unit Z W32 W32 [6] ex_x ex_y
  /\ select_roles unit Z Z.add ex_x ex_y = Some (ex_x, ex_y)
  /\ _nnz unit Z (snd (kernel_impl W32 W32 ex_x ex_y [6] true ex_res)) = 2
  /\ _nnz unit Z (snd (kernel_impl W32 W32 ex_x ex_y [6] true ex_res))
     <= _nnz unit Z ex_y.
Proof.
  split; [exact fits_ex_x_ex_y |]. split; [reflexivity |].
  split; [reflexivity |].
  destruct (result_nnz_bounds unit Z (fun _ _ => true) Z.mul
              (fun _ r => r) Z.add (fun _ _ => tt) contiguous_stride
              contiguous_data fresh W32 W32 ex_x ex_y [6] true
              ex_res ex_x ex_y eq_refl fits_ex_x_ex_y eq_refl)
    as (res' & Hrun & _ & _ & Hprobe & _).
  unfold kernel_impl. rewrite Hrun. cbn [snd]. apply Hprobe. reflexivity.
Defined.

(** Witness of X14: the scenario fits 32-bit widths; the kernel returns
    when the cast is allowed, and raises the cast failure, with [ex_res] as
    before, when it is not. *)
Lemma kernel_failure_witness :
  fits unit Z W32 W32 [6] ex_x ex_y
  /\ fst (kernel_impl W32 W32 ex_x ex_y [6] true ex_res) = inr tt
  /\ _sparse_binary_op_intersection_kernel_impl unit Z (fun _ _ => false) Z.mul
       (fun _ r => r) Z.add (fun _ _ => tt) contiguous_stride
       contiguous_data fresh W32 W32 ex_x ex_y [6] true ex_res
     = (inl CastCheckFailed, ex_res).
Proof.
  split; [exact fits_ex_x_ex_y |]. split.
  - destruct (kernel_failure_modes unit Z (fun _ _ => true) Z.mul
                (fun _ r => r) Z.add (fun _ _ => tt) contiguous_stride
                contiguous_data fresh W32 W32 ex_x ex_y [6] true
                ex_res fits_ex_x_ex_y) as (_ & _ & Hruns & _).
    apply Hruns; [reflexivity | discriminate].
  - destruct (kernel_failure_modes unit Z (fun _ _ => false) Z.mul
                (fun _ r => r) Z.add (fun _ _ => tt) contiguous_stride
                contiguous_data fresh W32 W32 ex_x ex_y [6] true
                ex_res fits_ex_x_ex_y) as (Hcast & _).
    apply Hcast. reflexivity.
Defined.

(** Witness of X15: in the scenario the source nonzero 2 is at coordinate
    5, which the probe [ex_x] does not hold and which is after its three
    coordinates 0, 2, 4: the count is 0 and the first index is 3. *)
Lemma join_record_witness :
  fits unit Z W32 W32 [6] ex_x ex_y
  /\ 0 <= 2 < _nnz unit Z ex_y
  /\ intersection unit Z W32 ex_x ex_y [6] = ([1; 1; 0], [1; 1; 3])
  /\ deref (fst (intersection unit Z W32 ex_x ex_y [6])) 2
     = Z.of_nat (multiplicity unit Z [5] ex_x)
  /\ deref (snd (intersection unit Z W32 ex_x ex_y [6])) 2
     = Z.of_nat (length (_indices unit Z ex_x)).
Proof.
  assert (Hk : 0 <= 2 < _nnz unit Z ex_y) by (vm_compute; split; [discriminate | reflexivity]).
  destruct (join_record_meaning unit Z W32 W32 [6] ex_x ex_y 2 fits_ex_x_ex_y Hk)
    as (Hcount & Hfirst).
  split; [exact fits_ex_x_ex_y |]. split; [exact Hk |].
  split; [reflexivity |]. split; [exact Hcount | exact Hfirst].
Defined.

(** Witness of X16: in the scenario the source nonzeros 0 and 1 (both at
    coordinate 2) are selected, each with the probe nonzero 1. *)
Lemma gather_index_select_witness :
  fits unit Z W32 W32 [6] ex_x ex_y
  /\ gather_fits unit Z contiguous_stride contiguous_data W32 W32 [6] ex_x ex_y
  /\ selected unit Z contiguous_stride contiguous_data fresh W32 W32 ex_x ex_y [6]
     = Some ([0; 1], [[2]; [2]], [1; 1])
  /\ exists s i p,
       selected unit Z contiguous_stride contiguous_data fresh W32 W32
         ex_x ex_y [6] = Some (s, i, p)
       /\ i = map (column (_indices unit Z ex_y)) s
       /\ StronglySorted Z.le s.
Proof.
  split; [exact fits_ex_x_ex_y |]. split; [exact gather_fits_ex_x_ex_y |].
  split; [reflexivity |].
  destruct (gather_is_index_select unit Z contiguous_stride contiguous_data
              fresh W32 W32 [6] ex_x ex_y fits_ex_x_ex_y gather_fits_ex_x_ex_y)
    as (s & i & p & Hsel & Hi & _ & _ & _ & Hs & _).
  exists s, i, p. auto.
Defined.

(** Witness of X17: the entry point on the scenario returns, with the
    result of shape [6] whose only coordinate is 2. *)
Lemma entry_point_witness :
  inputs_ok unit Z ex_x ex_y = true
  /\ infer_size (sizes unit Z ex_x) (sizes unit Z ex_y) = Some [6]
  /\ well_formed unit Z (sizes unit Z ex_x) ex_x
  /\ well_formed unit Z (sizes unit Z ex_y) ex_y
  /\ gather_fits unit Z contiguous_stride contiguous_data
       (fst (select_widths unit Z ex_x ex_y [6]))
       (snd (select_widths unit Z ex_x ex_y [6])) [6] ex_x ex_y
  /\ fst (kernel_out ex_x ex_y true ex_res) = inr tt
  /\ sizes unit Z (snd (kernel_out ex_x ex_y true ex_res)) = [6]
  /\ (In [2] (_indices unit Z (snd (kernel_out ex_x ex_y true ex_res)))
      <-> In [2] (_indices unit Z ex_x) /\ In [2] (_indices unit Z ex_y)).
Proof.
  assert (Hnumel : 0 <= numel (slice_prefix (sizes unit Z ex_x)
                                            (sparse_dim unit Z ex_x))
                   <= INT64_MAX)
    by (vm_compute; split; discriminate).
  assert (Hnnz : _nnz unit Z ex_x * _nnz unit Z ex_y <= INT64_MAX)
    by (vm_compute; discriminate).
  assert (Hnx : _nnz unit Z ex_x
                <= max_of (fst (select_widths unit Z ex_x ex_y [6])))
    by (vm_compute; discriminate).
  assert (Hny : _nnz unit Z ex_y
                <= max_of (fst (select_widths unit Z ex_x ex_y [6])))
    by (vm_compute; discriminate).
  split; [reflexivity |]. split; [reflexivity |].
  split; [exact well_formed_ex_x |]. split; [exact well_formed_ex_y |].
  split; [exact gather_fits_ex_x_ex_y |].
  destruct (entry_point_runs unit Z (fun _ _ => true) Z.mul (fun _ r => r) Z.add
              (fun _ _ => tt) contiguous_stride
              contiguous_data fresh ex_x ex_y [6] true ex_res ex_x ex_y
              eq_refl eq_refl well_formed_ex_x well_formed_ex_y
              Hnumel Hnnz Hnx Hny eq_refl eq_refl gather_fits_ex_x_ex_y)
    as (_ & _ & res' & Hrun & Hsizes & _ & Hin).
  unfold kernel_out. rewrite Hrun. cbn [fst snd].
  split; [reflexivity |]. split; [exact Hsizes | apply Hin].
Defined.

(** Witness of X18: [ex_a] with itself: the same three columns, and the
    squares 1, 4, 9 of its values. *)
Lemma self_intersection_witness :
  fits unit Z W32 W32 [3; 4] ex_a ex_a
  /\ is_coalesced unit Z ex_a = true
  /\ select_roles unit Z Z.add ex_a ex_a = Some (ex_a, ex_a)
  /\ gather_fits unit Z contiguous_stride contiguous_data W32 W32 [3; 4] ex_a ex_a
  /\ _indices unit Z (snd (kernel_impl W32 W32 ex_a ex_a [3; 4] true ex_res))
     = _indices unit Z ex_a
  /\ vrows Z (_values unit Z (snd (kernel_impl W32 W32 ex_a ex_a [3; 4] true ex_res)))
     = [1; 4; 9].
Proof.
  split; [exact fits_ex_a_ex_a |]. split; [reflexivity |]. split; [reflexivity |].
  split; [exact gather_fits_ex_a_ex_a |].
  destruct (self_intersection unit Z (fun _ _ => true) Z.mul
              (fun _ r => r) Z.add (fun _ _ => tt) contiguous_stride
              contiguous_data fresh W32 W32 ex_a [3; 4] true
              ex_res ex_a ex_a eq_refl fits_ex_a_ex_a eq_refl eq_refl
              gather_fits_ex_a_ex_a)
    as (_ & _ & res' & Hrun & Hidx & Hval & _).
  unfold kernel_impl. rewrite Hrun. cbn [snd].
  split; [exact Hidx | rewrite Hval; reflexivity].
Defined.

(** Witness of X19: with subtraction, [coalesce(dup_x)] holds 1 + 2 = 3 at
    coordinate 2 and [coalesce(dup_y)] holds 10 there; the sizes are equal,
    so the source is [coalesce(dup_y)], and the result holds [10 - 3], the
    value of [y] minus the value of [x]. *)
Lemma operand_order_witness :
  fits unit Z W32 W32 [6] dup_x dup_y
  /\ vrows Z (_values unit Z (snd (kernel_sub W32 W32 dup_x dup_y [6] false ex_res)))
     = [7]
  /\ exists ry rx,
       In ry (vrows Z (_values unit Z (coalesce unit Z Z.add dup_y)))
       /\ In rx (vrows Z (_values unit Z (coalesce unit Z Z.add dup_x)))
       /\ 7 = ry - rx.
Proof.
  split; [exact fits_dup |]. split; [reflexivity |].
  destruct (non_commutative_operand_order unit Z (fun _ _ => true) Z.sub
              (fun _ r => r) Z.add (fun _ _ => tt) contiguous_stride
              contiguous_data fresh W32 W32 dup_x dup_y [6] ex_res
              (coalesce unit Z Z.add dup_x) (coalesce unit Z Z.add dup_y)
              eq_refl fits_dup eq_refl)
    as (_ & res' & Hrun & Hge & _).
  assert (Hres : res' = snd (kernel_sub W32 W32 dup_x dup_y [6] false ex_res))
    by (unfold kernel_sub; rewrite Hrun; reflexivity).
  subst res'.
  destruct (Hge ltac:(vm_compute; discriminate) 0%nat 7 eq_refl)
    as (i & j & ry & rx & _ & _ & Hry & Hrx & Hr).
  exists ry, rx. split; [apply (nth_error_In _ _ Hry) |].
  split; [apply (nth_error_In _ _ Hrx) | exact Hr].
Defined.

(** Witness of X20: with multiplication, the kernel on [(swap_u, swap_v)]
    holds the rows of coordinates 2 and 4 in the order of [swap_v], the
    kernel on [(swap_v, swap_u)] in the order of [swap_u]; the entries are
    the same. *)
Lemma commutative_swap_witness :
  fits unit Z W32 W32 [6] swap_u swap_v
  /\ select_roles unit Z Z.add swap_u swap_v = Some (swap_u, swap_v)
  /\ select_roles unit Z Z.add swap_v swap_u = Some (swap_v, swap_u)
  /\ gather_fits unit Z contiguous_stride contiguous_data W32 W32 [6] swap_u swap_v
  /\ gather_fits unit Z contiguous_stride contiguous_data W32 W32 [6] swap_v swap_u
  /\ combine (_indices unit Z (snd (kernel_impl W32 W32 swap_u swap_v [6] true ex_res)))
             (vrows Z (_values unit Z
                (snd (kernel_impl W32 W32 swap_u swap_v [6] true ex_res))))
     = [([2], 20); ([4], 30)]
  /\ combine (_indices unit Z (snd (kernel_impl W32 W32 swap_v swap_u [6] true ex_res)))
             (vrows Z (_values unit Z
                (snd (kernel_impl W32 W32 swap_v swap_u [6] true ex_res))))
     = [([4], 30); ([2], 20)]
  /\ Permutation
       (combine (_indices unit Z (snd (kernel_impl W32 W32 swap_u swap_v [6] true ex_res)))
                (vrows Z (_values unit Z
                   (snd (kernel_impl W32 W32 swap_u swap_v [6] true ex_res)))))
       (combine (_indices unit Z (snd (kernel_impl W32 W32 swap_v swap_u [6] true ex_res)))
                (vrows Z (_values unit Z
                   (snd (kernel_impl W32 W32 swap_v swap_u [6] true ex_res))))).
Proof.
  split; [exact fits_swap_u_v |]. split; [reflexivity |]. split; [reflexivity |].
  split; [exact gather_fits_swap_u_v |]. split; [exact gather_fits_swap_v_u |].
  split; [reflexivity |]. split; [reflexivity |].
  destruct (commutative_operator_swap unit Z (fun _ _ => true) Z.mul
              (fun _ r => r) Z.add (fun _ _ => tt) contiguous_stride
              contiguous_data fresh W32 W32 swap_u swap_v [6]
              ex_res swap_u swap_v swap_v swap_u Z.mul_comm eq_refl eq_refl
              fits_swap_u_v eq_refl eq_refl
              (or_introl (conj eq_refl eq_refl))
              (or_intror (conj eq_refl eq_refl))
              gather_fits_swap_u_v gather_fits_swap_v_u)
    as (r1 & r2 & Hrun1 & Hrun2 & Hperm).
  unfold kernel_impl. rewrite Hrun1, Hrun2. exact Hperm.
Defined.

End Examples.
